(** * A shallow embedding of the Dynamo-style key-value store

    The development follows the Go sources file by file:
    - [VClock]  : backend/vector_clock.go
    - [SHA256]  : the digest of crypto/sha256 that the ring hashes with
    - [Ring]    : the consistent-hash ring (ConsistentHashRing)
    - [Coord]   : backend/node.go (coordinator: quorum reads and writes,
                  local write application, read repair, hinted handoff) and
                  the handlers of backend/main.go for reads, internal reads,
                  internal writes and repairs
    - [Conf]    : backend/config.go and the start of main
    - [Gossip]  : the membership table of the gossip service (updateMember,
                  checkMemberStatuses)
    - [Merkle]  : the Merkle tree of the anti-entropy exchange

    Conventions.  A Go [int] is a 64-bit two's-complement integer, modelled
    as a [Z] with the wrap-around written out ([wrap64]).  A Go
    [map[string]T] is a [gmap string T]; a nil map reads like the empty
    map, so both are [∅].  A pointer that may be nil is an [option], and
    reading through a nil pointer stops the program, which a function that
    can do so reports as [None].  Go leaves the order of a [for ... range m]
    loop over a map unspecified: the loops of the vector clock are folds
    over [map_to_list m] whose results are proved from the membership of the
    entries only, and the coordinator takes the order from its environment
    ([walk]).  Goroutines are taken one after the other; logging, the
    statistics counters and the locks are left out. *)

From Stdlib Require Import ZArith Lia Ascii String.
From Equations Require Import Equations.
From stdpp Require Import base option list sorting gmap strings pretty.
Open Scope Z_scope.

(** * Part I: the program *)

(** ** Machine integers *)

Definition wrap64 (z : Z) : Z := (z + 2 ^ 63) mod 2 ^ 64 - 2 ^ 63.

Definition int64_range (z : Z) : Prop := - 2 ^ 63 <= z < 2 ^ 63.

(** ** Loops that only raise a flag

    Several Go loops walk a map and set a boolean when an entry has some
    property.  [raise_flag] is such a loop; its result does not depend on
    the order of the walk. *)

Definition raise_flag {A} (hit : A → bool) (flag : bool) (l : list A) : bool :=
  foldl (λ f x, if hit x then true else f) flag l.

(** ** backend/vector_clock.go *)

Module VClock.

(** [type VectorClock struct { Clock map[string]int }] *)
Record VectorClock := mkVC { Clock : gmap string Z }.

Definition NewVectorClock : VectorClock := mkVC ∅.

(** [vc.Clock[nodeID] = vc.Clock[nodeID] + 1]; a nil receiver returns at
    once, which callers never rely on: the receiver here is non-nil. *)
Definition Increment (vc : VectorClock) (nodeID : string) : VectorClock :=
  mkVC (<[nodeID := wrap64 (default 0 (Clock vc !! nodeID) + 1)]> (Clock vc)).

(** One iteration of the loop of [Merge]. *)
Definition merge_step (acc : gmap string Z) (e : string * Z) : gmap string Z :=
  match acc !! e.1 with
  | Some current => if current <? e.2 then <[e.1 := e.2]> acc else acc
  | None => <[e.1 := e.2]> acc
  end.

(** [Merge]: the receiver is non-nil at every call site; a nil argument
    leaves it unchanged. *)
Definition Merge (vc : VectorClock) (other : option VectorClock) : VectorClock :=
  match other with
  | None => vc
  | Some o => mkVC (foldl merge_step (Clock vc) (map_to_list (Clock o)))
  end.

(** [Clone]: a nil receiver gives a fresh empty clock. *)
Definition Clone (vc : option VectorClock) : VectorClock :=
  match vc with
  | None => NewVectorClock
  | Some v => mkVC (Clock v)
  end.

(** The two loops of [Compare].  The first walks the receiver's entries and
    updates both flags, the second walks the other clock's entries. *)
Definition vc_hit (other : gmap string Z) (e : string * Z) : bool :=
  match other !! e.1 with
  | Some otherCount => otherCount <? e.2
  | None => true
  end.

Definition other_hit (other : gmap string Z) (e : string * Z) : bool :=
  match other !! e.1 with
  | Some otherCount => e.2 <? otherCount
  | None => false
  end.

Definition absent_in (m : gmap string Z) (e : string * Z) : bool :=
  match m !! e.1 with
  | Some _ => false
  | None => true
  end.

Definition compare_step (other : gmap string Z) (st : bool * bool)
    (e : string * Z) : bool * bool :=
  match other !! e.1 with
  | Some otherCount =>
      if e.2 <? otherCount then (st.1, true)
      else if otherCount <? e.2 then (true, st.2)
      else st
  | None => (true, st.2)
  end.

Definition compare_flags (a b : gmap string Z) : bool * bool :=
  let st := foldl (compare_step b) (false, false) (map_to_list a) in
  (st.1, raise_flag (absent_in a) st.2 (map_to_list b)).

Definition Compare (vc other : option VectorClock) : Z :=
  match vc, other with
  | None, None => 0
  | None, Some _ => -1
  | Some _, None => 1
  | Some a, Some b =>
      let '(vcDominates, otherDominates) := compare_flags (Clock a) (Clock b) in
      if vcDominates && negb otherDominates then 1
      else if negb vcDominates && otherDominates then -1
      else 0
  end.

Definition IsEmpty (vc : option VectorClock) : bool :=
  match vc with
  | None => true
  | Some v => bool_decide (size (Clock v) = 0%nat)
  end.

(** *** Orders on clocks *)

(** [exceeds a b]: [a] has an entry that [b] lacks or holds with a smaller
    count.  This is what raises [vcDominates]. *)
Definition exceeds (a b : gmap string Z) : Prop :=
  ∃ n c, a !! n = Some c ∧ ∀ oc, b !! n = Some oc → oc < c.

(** [covers a b]: every entry of [b] is present in [a] with a count at
    least as large. *)
Definition covers (a b : gmap string Z) : Prop :=
  ∀ n c, b !! n = Some c → ∃ c', a !! n = Some c' ∧ c <= c'.

(** The order of the specification: a missing entry reads as 0. *)
Definition count (a : gmap string Z) (n : string) : Z := default 0 (a !! n).

Definition pointwise_ge (a b : gmap string Z) : Prop :=
  ∀ n, count b n <= count a n.

Definition dominates (a b : gmap string Z) : Prop :=
  pointwise_ge a b ∧ ∃ n, count b n < count a n.


(** Clocks as the program builds them: an entry exists only once it has
    been incremented, so every stored count is positive. *)
Definition positive (a : gmap string Z) : Prop :=
  map_Forall (λ _ c, 0 < c) a.

(** Component-wise maximum of two clocks. *)
Definition vc_max (a b : gmap string Z) : gmap string Z :=
  union_with (λ x y, Some (Z.max x y)) a b.

(** The clock behind a pointer; nil stands for the empty clock. *)
Definition clock_of (vc : option VectorClock) : gmap string Z :=
  match vc with
  | Some v => Clock v
  | None => ∅
  end.

Definition clock_A2_B1 : VectorClock := mkVC (<["A" := 2]> {["B" := 1]}).
Definition clock_A1 : VectorClock := mkVC {["A" := 1]}.

(** *** The remaining methods *)

(** [Equals]: both nil, or both non-nil with as many entries and every
    entry of the receiver found in the other clock with the same count. *)
Definition Equals (vc other : option VectorClock) : bool :=
  match vc, other with
  | None, None => true
  | Some a, Some b =>
      if decide (size (Clock a) = size (Clock b)) then
        forallb (λ e, match Clock b !! e.1 with
                      | Some otherCount => bool_decide (otherCount = e.2)
                      | None => false
                      end) (map_to_list (Clock a))
      else false
  | _, _ => false
  end.

(** [MergeAndIncrement]: on a nil receiver the fresh clock is bound to the
    local variable only, so the caller's pointer stays nil. *)
Definition MergeAndIncrement (vc other : option VectorClock) (nodeID : string)
    : option VectorClock :=
  match vc with
  | None => None
  | Some v => Some (Increment (Merge v other) nodeID)
  end.

End VClock.

(** ** crypto/sha256 (FIPS 180-4), on 32-bit words held in [Z] *)

Module SHA256.

(** Truncation to 32 bits. *)
Definition w32 (z : Z) : Z := Z.land z (Z.ones 32).

Definition add32 (x y : Z) : Z := w32 (x + y).

Definition rotr (n x : Z) : Z :=
  Z.lor (Z.shiftr x n) (w32 (Z.shiftl x (32 - n))).

Definition Ch (x y z : Z) : Z :=
  Z.lxor (Z.land x y) (Z.land (w32 (Z.lnot x)) z).

Definition Maj (x y z : Z) : Z :=
  Z.lxor (Z.lxor (Z.land x y) (Z.land x z)) (Z.land y z).

Definition bigSigma0 (x : Z) : Z :=
  Z.lxor (Z.lxor (rotr 2 x) (rotr 13 x)) (rotr 22 x).

Definition bigSigma1 (x : Z) : Z :=
  Z.lxor (Z.lxor (rotr 6 x) (rotr 11 x)) (rotr 25 x).

Definition smallSigma0 (x : Z) : Z :=
  Z.lxor (Z.lxor (rotr 7 x) (rotr 18 x)) (Z.shiftr x 3).

Definition smallSigma1 (x : Z) : Z :=
  Z.lxor (Z.lxor (rotr 17 x) (rotr 19 x)) (Z.shiftr x 10).

(** The constants of the standard are the first 32 bits of the fractional
    parts of the cube roots (for [K]) and square roots (for [H0]) of the
    first primes; they are computed here rather than listed. *)
Definition is_prime (n : Z) : bool :=
  forallb (λ d, negb (n mod d =? 0)) (Z.of_nat <$> seq 2 (Z.to_nat n - 2)).

Definition first_primes (k : nat) : list Z :=
  take k (filter (λ n, is_prime n = true) (Z.of_nat <$> seq 2 400)).

(** Integer cube root, one bit at a time from bit [b - 1] down. *)
Fixpoint cube_root_bits (b : nat) (n r : Z) : Z :=
  match b with
  | O => r
  | S b' =>
      let c := r + 2 ^ Z.of_nat b' in
      cube_root_bits b' n (if c * c * c <=? n then c else r)
  end.

Definition frac_cube_root (p : Z) : Z := w32 (cube_root_bits 40 (p * 2 ^ 96) 0).

Definition frac_sqrt (p : Z) : Z := w32 (Z.sqrt (p * 2 ^ 64)).

Definition K : list Z := Eval vm_compute in frac_cube_root <$> first_primes 64.

Definition H0 : list Z := Eval vm_compute in frac_sqrt <$> first_primes 8.

(** Big-endian bytes of a [n]-byte unsigned number. *)
Fixpoint be_bytes (n : nat) (z : Z) : list Z :=
  match n with
  | O => []
  | S n' => Z.land (Z.shiftr z (8 * Z.of_nat n')) (Z.ones 8) :: be_bytes n' z
  end.

(** The message followed by 0x80, zero bytes up to 56 modulo 64, and the
    bit length on 8 bytes. *)
Definition pad (msg : list Z) : list Z :=
  let len := Z.of_nat (length msg) in
  let zeros := Z.to_nat ((55 - len) mod 64) in
  msg ++ [0x80] ++ replicate zeros 0 ++ be_bytes 8 (8 * len).

Fixpoint words (fuel : nat) (bs : list Z) : list Z :=
  match fuel, bs with
  | S fuel', b0 :: b1 :: b2 :: b3 :: rest =>
      (b0 * 2 ^ 24 + b1 * 2 ^ 16 + b2 * 2 ^ 8 + b3) :: words fuel' rest
  | _, _ => []
  end.

(** The message schedule: [w] holds the words computed so far, newest
    first; [w !!! 1] is W(t-2), [w !!! 6] is W(t-7), and so on. *)
Fixpoint schedule (n : nat) (w : list Z) : list Z :=
  match n with
  | O => w
  | S n' =>
      let wt := add32 (add32 (add32 (smallSigma1 (w !!! 1%nat)) (w !!! 6%nat))
                             (smallSigma0 (w !!! 14%nat))) (w !!! 15%nat) in
      schedule n' (wt :: w)
  end.

Definition round (st : list Z) (kw : Z * Z) : list Z :=
  match st with
  | [a; b; c; d; e; f; g; h] =>
      let t1 := add32 (add32 (add32 (add32 h (bigSigma1 e)) (Ch e f g)) kw.1) kw.2 in
      let t2 := add32 (bigSigma0 a) (Maj a b c) in
      [add32 t1 t2; a; b; c; add32 d t1; e; f; g]
  | _ => st
  end.

Definition compress (hs : list Z) (block : list Z) : list Z :=
  let w := reverse (schedule 48 (reverse block)) in
  zip_with add32 hs (foldl round hs (zip K w)).

Fixpoint blocks (fuel : nat) (ws : list Z) (hs : list Z) : list Z :=
  match fuel with
  | O => hs
  | S fuel' =>
      match ws with
      | [] => hs
      | _ => blocks fuel' (drop 16 ws) (compress hs (take 16 ws))
      end
  end.

Definition string_bytes (s : string) : list Z :=
  (λ a, Z.of_N (Ascii.N_of_ascii a)) <$> String.list_ascii_of_string s.

(** [sha256.Sum256([]byte(s))]: the 32 bytes of the digest. *)
Definition Sum256 (s : string) : list Z :=
  let bs := pad (string_bytes s) in
  let ws := words (length bs) bs in
  concat (be_bytes 4 <$> blocks (length ws) ws H0).

Definition hex_digit (z : Z) : string :=
  String (default "0"%char (String.list_ascii_of_string "0123456789abcdef" !! Z.to_nat z)) "".

Definition hex (bs : list Z) : string :=
  foldr (λ b acc, hex_digit (b / 16) +:+ hex_digit (b mod 16) +:+ acc) "" bs.



End SHA256.

(** ** The consistent-hash ring *)

Module Ring.

Definition virtualNodeCount : nat := 256.
Definition replicaCount : nat := 3.

(** [virtualNodes []uint64], [nodeMap map[uint64]string],
    [nodes map[string]bool]; the lock is not modelled. *)
Record ConsistentHashRing := mkRing {
  virtualNodes : list Z;
  nodeMap : gmap Z string;
  nodes : gmap string bool
}.

Definition NewConsistentHashRing : ConsistentHashRing := mkRing [] ∅ ∅.

(** [uint64(b) << n]: a shift on 64 bits. *)
Definition shl64 (b n : Z) : Z := Z.shiftl b n mod 2 ^ 64.

Definition hashKey (key : string) : Z :=
  let h := SHA256.Sum256 key in
  Z.lor (Z.lor (Z.lor (Z.lor (Z.lor (Z.lor (Z.lor
    (shl64 (h !!! 0%nat) 56) (shl64 (h !!! 1%nat) 48)) (shl64 (h !!! 2%nat) 40))
    (shl64 (h !!! 3%nat) 32)) (shl64 (h !!! 4%nat) 24)) (shl64 (h !!! 5%nat) 16))
    (shl64 (h !!! 6%nat) 8)) (h !!! 7%nat).

(** [fmt.Sprintf("%s-vn-%d", nodeID, i)] *)
Definition virtualKey (nodeID : string) (i : nat) : string :=
  nodeID +:+ "-vn-" +:+ pretty i.

(** The body of the loop of [AddNode], on the pair of the slice and the map. *)
Definition add_vnode (nodeID : string) (st : list Z * gmap Z string) (i : nat)
    : list Z * gmap Z string :=
  let hash := hashKey (virtualKey nodeID i) in
  (st.1 ++ [hash], <[hash := nodeID]> st.2).

(** [sort.Slice] with [<] on the tokens: the ascending arrangement of the
    slice, which is unique. *)
Definition sort_tokens (l : list Z) : list Z := merge_sort Z.le l.

Definition AddNode (c : ConsistentHashRing) (nodeID : string) : ConsistentHashRing :=
  let st := foldl (add_vnode nodeID) (virtualNodes c, nodeMap c) (seq 0 virtualNodeCount) in
  mkRing (sort_tokens st.1) st.2 (<[nodeID := true]> (nodes c)).

(** The body of the loop of [RemoveNode]: a missing map entry reads as the
    empty string. *)
Definition remove_vnode (nodeID : string) (st : list Z * gmap Z string) (hash : Z)
    : list Z * gmap Z string :=
  if decide (default "" (st.2 !! hash) = nodeID)
  then (st.1, delete hash st.2)
  else (st.1 ++ [hash], st.2).

Definition RemoveNode (c : ConsistentHashRing) (nodeID : string) : ConsistentHashRing :=
  let st := foldl (remove_vnode nodeID) ([], nodeMap c) (virtualNodes c) in
  mkRing st.1 st.2 (delete nodeID (nodes c)).

(** The loop of [sort.Search]: [i, j := 0, n; for i < j { h := (i+j)/2;
    if !f(h) { i = h + 1 } else { j = h } }; return i]. *)
Equations? search_loop (f : nat → bool) (i j : nat) : nat by wf (j - i)%nat lt :=
  search_loop f i j with decide (i < j)%nat => {
    | right _ => i
    | left _ with f ((i + j) / 2)%nat => {
      | true => search_loop f i ((i + j) / 2)%nat
      | false => search_loop f ((i + j) / 2 + 1)%nat j } }.
Proof.
  - assert (i <= (i + j) / 2 < j)%nat; [|lia].
    split; [apply Nat.div_le_lower_bound; lia | apply Nat.Div0.div_lt_upper_bound; lia].
  - assert (i <= (i + j) / 2 < j)%nat; [|lia].
    split; [apply Nat.div_le_lower_bound; lia | apply Nat.Div0.div_lt_upper_bound; lia].
Qed.

Definition Search (n : nat) (f : nat → bool) : nat := search_loop f 0 n.

Definition GetNode (c : ConsistentHashRing) (key : string) : string :=
  let vn := virtualNodes c in
  if decide (length vn = 0%nat) then ""
  else
    let hash := hashKey key in
    let idx := Search (length vn) (λ i, bool_decide (hash <= vn !!! i)) in
    let idx := if decide (idx = length vn) then 0%nat else idx in
    default "" (nodeMap c !! (vn !!! idx)).

(** *** The ring as the program keeps it *)

(** The token that serves hash [h]: the least token at or above [h], or
    the least token of all when every token is below [h]. *)
Definition successor_token (vn : list Z) (h t : Z) : Prop :=
  t ∈ vn ∧
  ((h <= t ∧ ∀ t', t' ∈ vn → h <= t' → t <= t') ∨
   ((∀ t', t' ∈ vn → t' < h) ∧ ∀ t', t' ∈ vn → t <= t')).

(** Tokens ascending, every token owned by a member, and a member's
    tokens on the ring. *)
Record ring_wf (c : ConsistentHashRing) : Prop := mk_ring_wf {
  wf_sorted : Sorted Z.le (virtualNodes c);
  wf_owned : ∀ t, t ∈ virtualNodes c →
             ∃ n, nodeMap c !! t = Some n ∧ nodes c !! n = Some true;
  wf_tokens : nodes c ≠ ∅ → virtualNodes c ≠ []
}.

(** The rings the program builds: [main] starts from an empty ring and
    adds itself and its peers. *)
Inductive built : ConsistentHashRing → Prop :=
  | built_new : built NewConsistentHashRing
  | built_add c nodeID : built c → built (AddNode c nodeID).

(** The tokens that [AddNode] derives for a node. *)
Definition tokens_of (nodeID : string) : list Z :=
  (λ i, hashKey (virtualKey nodeID i)) <$> seq 0 virtualNodeCount.

(** *** [AddNode] *)

Definition insert_tokens (nodeID : string) (m : gmap Z string) (ts : list Z)
    : gmap Z string :=
  foldl (λ m t, <[t := nodeID]> m) m ts.

#[global] Arguments insert_tokens : simpl never.
#[global] Arguments sort_tokens : simpl never.
#[global] Arguments tokens_of : simpl never.

(** A ring with one node, as [main] builds it for a node without peers. *)
Definition ringA : ConsistentHashRing := AddNode NewConsistentHashRing "nodeA".

End Ring.

(** ** backend/node.go: the coordinator *)

Module Coord.

Definition maxRetryAttempts : nat := 3.
Definition hintStorageLimit : nat := 1000.
Definition defaultReplication : Z := 3.

#[local] Unset Elimination Schemes.

(** A decoded JSON value other than [null]; the Go [interface{}] that holds
    it is an [option json], [None] being nil. *)
Inductive json :=
  | JString (s : string)
  | JNumber (z : Z)
  | JBool (b : bool)
  | JArray (l : list json)
  | JObject (l : list (string * json)).

(** [storedValue]; [time.Time] is an instant on an integer time line and
    the zero time is 0. *)
Inductive storedValue := mkStored {
  Value : option json;
  VectorClock : option VClock.VectorClock;
  Conflicts : list storedValue;
  Timestamp : Z
}.

#[local] Set Elimination Schemes.

(** [storedValue{}] *)
Definition emptyStoredValue : storedValue := mkStored None None [] 0.

(** [HintedWrite]; its clock is built by [Clone] and is never nil. *)
Record HintedWrite := mkHint {
  hint_Key : string;
  hint_Value : option json;
  hint_VectorClock : VClock.VectorClock;
  hint_TargetNode : string;
  hint_Timestamp : Z;
  hint_Attempts : Z
}.

Inductive NodeStatus := StatusAlive | StatusSuspected | StatusDown.

(** [Node] and [Coordinator] in one record.  [Storage] is the content of
    the store behind the [Storage] interface, [Gossip] the statuses the
    gossip service holds for its members ([None]: no service yet).  The
    statistics counters and the locks are not modelled. *)
Record Coordinator := mkCoordinator {
  NodeID : string;
  Ring : Ring.ConsistentHashRing;
  Replication : Z;
  Storage : gmap string storedValue;
  Hints : gmap string (list HintedWrite);
  Gossip : option (gmap string NodeStatus);
  ReadQuorum : Z;
  WriteQuorum : Z
}.

Definition set_Storage (f : gmap string storedValue → gmap string storedValue)
    (c : Coordinator) : Coordinator :=
  mkCoordinator (NodeID c) (Ring c) (Replication c) (f (Storage c)) (Hints c)
                (Gossip c) (ReadQuorum c) (WriteQuorum c).

Definition set_Hints (f : gmap string (list HintedWrite) → gmap string (list HintedWrite))
    (c : Coordinator) : Coordinator :=
  mkCoordinator (NodeID c) (Ring c) (Replication c) (Storage c) (f (Hints c))
                (Gossip c) (ReadQuorum c) (WriteQuorum c).

(** What a peer sends back on [GET /internal/kv/<key>], as far as
    [parseStoredValue] reads it. *)
Record WireValue := mkWire {
  wire_value : option json;
  wire_vector_clock : gmap string Z;
  wire_timestamp : option Z
}.

(** Everything outside the node: the order in which a [range] loop walks a
    map, the clock, whether the store accepts a write, and the outcome of
    each HTTP attempt. *)
Record World := mkWorld {
  walk : ∀ A : Type, gmap string A → list (string * A);
  now : Z;
  storage_put_ok : string → bool;
  remotePut : nat → string → string → option json → VClock.VectorClock → bool;
  remoteGet_reply : nat → string → string → option WireValue;
  deliverHint : HintedWrite → bool;
  deliverHintDirect : nat → HintedWrite → bool
}.

(** A walk yields every entry of the map once. *)
Definition walk_ok (w : World) : Prop :=
  ∀ (A : Type) (m : gmap string A), walk w A m ≡ₚ map_to_list m.

(** *** Comparing clocks *)

(** The first loop of [compareVectorClocks]. *)
Definition cvc_step (b : gmap string Z) (st : bool * bool) (e : string * Z)
    : bool * bool :=
  match b !! e.1 with
  | Some bCount =>
      if bCount <? e.2 then (true, st.2)
      else if e.2 <? bCount then (st.1, true)
      else st
  | None => (true, st.2)
  end.

Definition compareVectorClocks (a b : option VClock.VectorClock) : string :=
  match a, b with
  | Some a, Some b =>
      let st := foldl (cvc_step (VClock.Clock b)) (false, false)
                      (map_to_list (VClock.Clock a)) in
      let aGreater := st.1 in
      let bGreater :=
        raise_flag (VClock.absent_in (VClock.Clock a)) st.2
                   (map_to_list (VClock.Clock b)) in
      if aGreater && bGreater then "concurrent"
      else if bGreater then "newer"
      else "older"
  | _, _ => "concurrent"
  end.

(** *** Local write application *)

(** [c.Storage.Put(key, sv)]: the store takes the value or reports an
    error and keeps what it had. *)
Definition Storage_Put (w : World) (c : Coordinator) (key : string)
    (sv : storedValue) : bool * Coordinator :=
  if storage_put_ok w key then (true, set_Storage (<[key := sv]>) c)
  else (false, c).

(** [localPut].  The first statement reads [vc.Clock], so the function is
    only ever entered with a non-nil [vc]; the nil check after it is dead. *)
Definition localPut (w : World) (c : Coordinator) (key : string)
    (value : option json) (vc : VClock.VectorClock) : bool * Coordinator :=
  let newValue := mkStored value (Some (VClock.Clone (Some vc))) [] (now w) in
  match Storage c !! key with
  | Some existing =>
      let comparison := compareVectorClocks (VectorClock existing) (Some vc) in
      if decide (comparison = "concurrent") then
        let mergedVC := VClock.Merge (VClock.Clone (Some vc)) (VectorClock existing) in
        Storage_Put w c key
          (mkStored value (Some mergedVC) (Conflicts existing ++ [existing]) (now w))
      else if decide (comparison = "older") then (true, c)
      else Storage_Put w c key newValue
  | None => Storage_Put w c key newValue
  end.

(** *** Local reads *)

(** The inner loop of [localGet]: the first hint of a target that carries
    the key. *)
Definition find_hint (key : string) (hints : list HintedWrite) : option HintedWrite :=
  snd <$> list_find (λ h, hint_Key h = key) hints.

(** The outer loop: the targets in the order of the walk. *)
Fixpoint scan_hints (key : string) (targets : list (string * list HintedWrite))
    : option HintedWrite :=
  match targets with
  | [] => None
  | (_, hints) :: rest =>
      match find_hint key hints with
      | Some hint => Some hint
      | None => scan_hints key rest
      end
  end.

(** The second half of [localGet]: a hint held for any target stands in
    for the missing value. *)
Definition localGet_hints (w : World) (c : Coordinator) (key : string) : storedValue :=
  match scan_hints key (walk w _ (Hints c)) with
  | Some hint =>
      mkStored (hint_Value hint) (Some (hint_VectorClock hint)) [] (hint_Timestamp hint)
  | None => emptyStoredValue
  end.

Definition localGet (w : World) (c : Coordinator) (key : string) : storedValue :=
  match Storage c !! key with
  | Some val =>
      match Value val with
      | Some _ => val
      | None => localGet_hints w c key
      end
  | None => localGet_hints w c key
  end.

(** [parseStoredValue] *)
Definition parseStoredValue (w : World) (data : WireValue) : storedValue :=
  match wire_value data with
  | None => emptyStoredValue
  | Some v =>
      mkStored (Some v) (Some (VClock.mkVC (wire_vector_clock data))) []
               (default (now w) (wire_timestamp data))
  end.

(** [remoteGet]: no reply, a status other than 200 or an undecodable body
    give the empty value. *)
Definition remoteGet (w : World) (attempt : nat) (nodeID key : string) : storedValue :=
  match remoteGet_reply w attempt nodeID key with
  | Some data => parseStoredValue w data
  | None => emptyStoredValue
  end.

Fixpoint remoteGet_attempts (w : World) (attempts : list nat) (nodeID key : string)
    : storedValue :=
  match attempts with
  | [] => emptyStoredValue
  | i :: rest =>
      let sv := remoteGet w i nodeID key in
      match Value sv with
      | Some _ => sv
      | None => remoteGet_attempts w rest nodeID key
      end
  end.

Definition remoteGetWithRetry (w : World) (nodeID key : string) : storedValue :=
  remoteGet_attempts w (seq 0 maxRetryAttempts) nodeID key.

Definition retrieveValue (w : World) (c : Coordinator) (nodeID key : string)
    : storedValue :=
  if decide (nodeID = NodeID c) then localGet w c key
  else remoteGetWithRetry w nodeID key.

(** [gatherResponses]: one goroutine per node; a map keyed by node id
    collects the values that are not nil. *)
Definition gather_step (w : World) (c : Coordinator) (key : string)
    (responses : gmap string storedValue) (nid : string) : gmap string storedValue :=
  let sv := retrieveValue w c nid key in
  match Value sv with
  | Some _ => <[nid := sv]> responses
  | None => responses
  end.

Definition gatherResponses (w : World) (c : Coordinator) (nodes : list string)
    (key : string) : gmap string storedValue :=
  foldl (gather_step w c key) ∅ nodes.

(** *** The preference list *)

(** [getNodeStatus]: an unknown node counts as suspected. *)
Definition getNodeStatus (c : Coordinator) (members : gmap string NodeStatus)
    (nodeID : string) : NodeStatus :=
  if decide (nodeID = NodeID c) then StatusAlive
  else default StatusSuspected (members !! nodeID).

Definition isNodeAvailable (c : Coordinator) (nodeID : string) : bool :=
  if decide (nodeID = NodeID c) then true
  else match Gossip c with
       | None => true
       | Some members =>
           match getNodeStatus c members nodeID with
           | StatusAlive => true
           | _ => false
           end
       end.

(** [contains] *)
Definition contains (nodes : list string) (nodeID : string) : bool :=
  bool_decide (nodeID ∈ nodes).

(** [getAllNodeIDs]: the member ids in the order of a walk of the map. *)
Definition getAllNodeIDs (w : World) (ring : Ring.ConsistentHashRing) : list string :=
  (walk w _ (Ring.nodes ring)).*1.

(** The position of the primary in the list of all nodes, 0 when it is not
    there. *)
Definition primary_index (allNodes : list string) (primary : string) : nat :=
  match list_find (λ n, n = primary) allNodes with
  | Some (i, _) => i
  | None => 0%nat
  end.

(** The search for a substitute: the first available candidate not yet
    chosen, starting [Replication] places after the primary. *)
Fixpoint find_replacement (c : Coordinator) (allNodes nodes : list string)
    (primaryIndex : nat) (js : list nat) : option string :=
  match js with
  | [] => None
  | j :: rest =>
      let candidateIdx :=
        Z.rem (wrap64 (Z.of_nat primaryIndex + Replication c + Z.of_nat j))
              (Z.of_nat (length allNodes)) in
      let candidate := allNodes !!! Z.to_nat candidateIdx in
      if isNodeAvailable c candidate && negb (contains nodes candidate)
      then Some candidate
      else find_replacement c allNodes nodes primaryIndex rest
  end.

(** One round of the main loop of [determineResponsibleNodes]. *)
Definition responsible_step (c : Coordinator) (sloppy : bool) (allNodes : list string)
    (primaryIndex : nat) (st : list string * gmap string string) (i : nat)
    : list string * gmap string string :=
  let idx := ((primaryIndex + i) mod length allNodes)%nat in
  let nodeID := allNodes !!! idx in
  if sloppy && negb (isNodeAvailable c nodeID) then
    match find_replacement c allNodes st.1 primaryIndex (seq 0 (length allNodes)) with
    | Some candidate => (st.1 ++ [candidate], <[nodeID := candidate]> st.2)
    | None => (st.1 ++ [nodeID], st.2)
    end
  else (st.1 ++ [nodeID], st.2).

(** [determineResponsibleNodes], for the positive [Replication] that
    [NewCoordinator] lets through.  The candidate index is computed on
    [int]; it is negative only if [Replication] is within a ring size of
    the largest [int], where Go would stop with an index error. *)
Definition determineResponsibleNodes (w : World) (c : Coordinator) (key : string)
    (sloppy : bool) : list string * gmap string string :=
  let primary := Ring.GetNode (Ring c) key in
  let allNodes := getAllNodeIDs w (Ring c) in
  match allNodes with
  | [] => ([], ∅)
  | _ =>
      let primaryIndex := primary_index allNodes primary in
      let rounds := Z.to_nat (Z.min (Replication c) (Z.of_nat (length allNodes))) in
      foldl (responsible_step c sloppy allNodes primaryIndex) ([], ∅) (seq 0 rounds)
  end.

Fixpoint getResponsibleNodes_loop (tries : nat) (w : World) (c : Coordinator)
    (key : string) (sloppy : bool) (acc : list string * gmap string string)
    : list string * gmap string string :=
  match tries with
  | O => acc
  | S tries' =>
      let r := determineResponsibleNodes w c key sloppy in
      if decide (Replication c <= Z.of_nat (length r.1)) then r
      else getResponsibleNodes_loop tries' w c key sloppy r
  end.

Definition getResponsibleNodes (w : World) (c : Coordinator) (key : string)
    (sloppy : bool) : list string * gmap string string :=
  getResponsibleNodes_loop maxRetryAttempts w c key sloppy ([], ∅).

(** *** Reads at the coordinator *)

(** [mergeConflicts]; a nil clock on [a] is cloned into an empty one. *)
Definition mergeConflicts (w : World) (a b : storedValue) : storedValue :=
  mkStored (Value a)
           (Some (VClock.Merge (VClock.Clone (VectorClock a)) (VectorClock b)))
           (Conflicts a ++ [b])
           (now w).

Definition resolve_step (w : World) (st : storedValue * Z) (e : string * storedValue)
    : storedValue * Z :=
  match Value st.1 with
  | None => (e.2, st.2)
  | Some _ =>
      let comparison := compareVectorClocks (VectorClock st.1) (VectorClock e.2) in
      if decide (comparison = "concurrent")
      then (mergeConflicts w st.1 e.2, wrap64 (st.2 + 1))
      else if decide (comparison = "newer") then (e.2, st.2)
      else st
  end.

Definition resolveConflicts (w : World) (responses : gmap string storedValue)
    : storedValue * Z :=
  foldl (resolve_step w) (emptyStoredValue, 0) (walk w _ responses).

(** The map [formatResult] builds: "value", "vector_clock" and, when the
    count is positive, "conflicts". *)
Record GetResult := mkGetResult {
  res_value : option json;
  res_vector_clock : gmap string Z;
  res_conflicts : option (list (option json))
}.

(** [formatResult] reads [value.VectorClock.Clock]: on a nil clock the
    program stops ([None]). *)
Definition formatResult (value : storedValue) (conflicts : Z) : option GetResult :=
  match VectorClock value with
  | None => None
  | Some vc =>
      Some (mkGetResult (Value value) (VClock.Clock vc)
              (if 0 <? conflicts then Some (Value <$> Conflicts value) else None))
  end.

(** The body of [PUT /internal/repair/<key>]. *)
Record RepairBody := mkRepairBody {
  repair_value : option json;
  repair_vector_clock : gmap string Z;
  repair_timestamp : Z;
  repair_conflicts : option (list (option json * gmap string Z * Z))
}.

Record RepairRequest := mkRepairRequest {
  repair_node : string;
  repair_key : string;
  repair_body : option RepairBody
}.

Definition repair_conflict (sv : storedValue) : option (option json * gmap string Z * Z) :=
  match VectorClock sv with
  | None => None
  | Some vc => Some (Value sv, VClock.Clock vc, Timestamp sv)
  end.

(** The request [repairNode] sends; [None] for the body when building it
    reads a nil clock. *)
Definition repairNode (nodeID key : string) (value : storedValue) : RepairRequest :=
  mkRepairRequest nodeID key
    (match VectorClock value with
     | None => None
     | Some vc =>
         match Conflicts value with
         | [] => Some (mkRepairBody (Value value) (VClock.Clock vc) (Timestamp value) None)
         | cs =>
             match mapM repair_conflict cs with
             | None => None
             | Some l => Some (mkRepairBody (Value value) (VClock.Clock vc) (Timestamp value) (Some l))
             end
         end
     end).

(** [performReadRepairs]: the requests of the goroutines it starts, one
    for every listed node other than the coordinator. *)
Definition performReadRepairs (c : Coordinator) (nodes : list string) (key : string)
    (latest : storedValue) : list RepairRequest :=
  (λ nodeID, repairNode nodeID key latest) <$> filter (λ nodeID, nodeID ≠ NodeID c) nodes.

(** What [Get] gives back: a result, an error, or neither when the
    program stops on a nil clock. *)
Inductive GetReply :=
  | GetOk (r : GetResult)
  | GetError (msg : string)
  | GetPanic.

(** [Get], with the repair requests of the goroutine it leaves behind.
    The other goroutine, [handleSloppyReplacements], is not modelled. *)
Definition Get (w : World) (c : Coordinator) (key : string)
    : GetReply * list RepairRequest :=
  let nodes := (getResponsibleNodes w c key true).1 in
  let responses := gatherResponses w c nodes key in
  if Z.of_nat (size responses) <? ReadQuorum c then
    let localValue := localGet w c key in
    match Value localValue with
    | Some _ =>
        match formatResult localValue 0 with
        | Some r => (GetOk r, [])
        | None => (GetPanic, [])
        end
    | None => (GetError "insufficient replicas for read quorum", [])
    end
  else
    let result := resolveConflicts w responses in
    match formatResult result.1 result.2 with
    | Some r => (GetOk r, performReadRepairs c nodes key result.1)
    | None => (GetPanic, performReadRepairs c nodes key result.1)
    end.

(** [InternalGetHandler]: the body of the reply, [None] when it reads a
    nil clock. *)
Record InternalGetResponse := mkInternalGetResponse {
  resp_value : option json;
  resp_vector_clock : gmap string Z;
  resp_timestamp : Z;
  resp_conflicts : option (list (option json * gmap string Z))
}.

Definition InternalGetHandler (w : World) (c : Coordinator) (key : string)
    : option InternalGetResponse :=
  let value := localGet w c key in
  match VectorClock value with
  | None => None
  | Some vc =>
      match Conflicts value with
      | [] => Some (mkInternalGetResponse (Value value) (VClock.Clock vc) (Timestamp value) None)
      | cs =>
          match mapM (λ cf, (λ cvc, (Value cf, VClock.Clock cvc)) <$> VectorClock cf) cs with
          | None => None
          | Some l =>
              Some (mkInternalGetResponse (Value value) (VClock.Clock vc) (Timestamp value) (Some l))
          end
      end
  end.

(** *** Writes at the coordinator *)

(** [updateLocalVectorClock] *)
Definition updateLocalVectorClock (c : Coordinator) (key : string) : VClock.VectorClock :=
  match Storage c !! key with
  | Some existing => VClock.Increment (VClock.Clone (VectorClock existing)) (NodeID c)
  | None => VClock.Increment VClock.NewVectorClock (NodeID c)
  end.

(** [remotePutWithRetry]: up to three attempts. *)
Definition remotePutWithRetry (w : World) (nodeID key : string) (value : option json)
    (vc : VClock.VectorClock) : bool :=
  existsb (λ i, remotePut w i nodeID key value vc) (seq 0 maxRetryAttempts).

Definition writeToNode (w : World) (c : Coordinator) (nodeID key : string)
    (value : option json) (vc : VClock.VectorClock) : bool * Coordinator :=
  if decide (nodeID = NodeID c) then localPut w c key value vc
  else (remotePutWithRetry w nodeID key value vc, c).

(** [replicateWrite]: the goroutines taken one after the other; the list
    of the nodes that acknowledged comes with the coordinator after its
    local writes. *)
Definition replicate_step (w : World) (key : string) (value : option json)
    (vc : VClock.VectorClock) (st : list string * Coordinator) (nid : string)
    : list string * Coordinator :=
  let r := writeToNode w st.2 nid key value vc in
  (if r.1 then st.1 ++ [nid] else st.1, r.2).

Definition replicateWrite (w : World) (c : Coordinator) (nodes : list string)
    (key : string) (value : option json) (vc : VClock.VectorClock)
    : list string * Coordinator :=
  foldl (replicate_step w key value vc) ([], c) nodes.

(** [storeHint]: when the buffer of the target is full its first entry
    goes, then the new hint is appended. *)
Definition storeHint (w : World) (c : Coordinator) (targetNode key : string)
    (value : option json) (vc : option VClock.VectorClock) : Coordinator :=
  let hints := default [] (Hints c !! targetNode) in
  let hint := mkHint key value (VClock.Clone vc) targetNode (now w) 0 in
  let hints := if decide (hintStorageLimit <= length hints)%nat then drop 1 hints else hints in
  set_Hints (<[targetNode := hints ++ [hint]]>) c.

(** [processSloppyReplacements]: a hint for every original whose
    substitute acknowledged the write. *)
Definition sloppy_step (w : World) (successNodes : list string) (key : string)
    (value : option json) (vc : VClock.VectorClock) (c : Coordinator)
    (e : string * string) : Coordinator :=
  if contains successNodes e.2 then storeHint w c e.1 key value (Some vc) else c.

Definition processSloppyReplacements (w : World) (c : Coordinator)
    (successNodes : list string) (replacements : gmap string string) (key : string)
    (value : option json) (vc : VClock.VectorClock) : Coordinator :=
  foldl (sloppy_step w successNodes key value vc) c (walk w _ replacements).

(** [Put]: [None] is the nil error. *)
Definition Put (w : World) (c : Coordinator) (key : string) (value : option json)
    : option string * Coordinator :=
  let vc := updateLocalVectorClock c key in
  let r := getResponsibleNodes w c key true in
  let ws := replicateWrite w c r.1 key value vc in
  if Z.of_nat (length ws.1) <? WriteQuorum c
  then (Some "insufficient replicas for write quorum", ws.2)
  else (None, processSloppyReplacements w ws.2 ws.1 r.2 key value vc).

(** *** Hinted handoff *)

(** The update of one target in [processHints] after its deliveries. *)
Definition processHints_target (w : World) (hs : gmap string (list HintedWrite))
    (e : string * list HintedWrite) : gmap string (list HintedWrite) :=
  let successfulHints := hint_Key <$> filter (λ h, deliverHint w h = true) e.2 in
  match successfulHints with
  | [] => hs
  | _ =>
      match hs !! e.1 with
      | Some originalHints =>
          let newHints := filter (λ h, hint_Key h ∉ successfulHints) originalHints in
          match newHints with
          | [] => delete e.1 hs
          | _ => <[e.1 := newHints]> hs
          end
      | None => hs
      end
  end.

Definition processHints (w : World) (c : Coordinator) : Coordinator :=
  let pendingHints := filter (λ e, isNodeAvailable c e.1 = true) (walk w _ (Hints c)) in
  set_Hints (λ hs, foldl (processHints_target w) hs pendingHints) c.

(** The removal in [forceReconnectHints]: the first hint with the key is
    overwritten by the last one and the slice loses its last place. *)
Definition remove_swapping (key : string) (hints : list HintedWrite) : list HintedWrite :=
  match list_find (λ h, hint_Key h = key) hints with
  | None => hints
  | Some (i, _) =>
      if decide (length hints = 1%nat) then []
      else if decide (i < length hints - 1)%nat
      then match last hints with
           | Some lastHint => take (length hints - 1) (<[i := lastHint]> hints)
           | None => hints
           end
      else take (length hints - 1) hints
  end.

(** One hint of the copy: up to five attempts, removal on the first
    success, and the target's entry dropped once its list is empty. *)
Definition reconnect_step (w : World) (nodeID : string)
    (hs : gmap string (list HintedWrite)) (hint : HintedWrite)
    : gmap string (list HintedWrite) :=
  if existsb (λ attempt, deliverHintDirect w attempt hint) (seq 0 5) then
    let hints := remove_swapping (hint_Key hint) (default [] (hs !! nodeID)) in
    match hints with
    | [] => delete nodeID hs
    | _ => <[nodeID := hints]> hs
    end
  else hs.

(** [forceReconnectHints], with the keys it then pushes to the node from
    the local store. *)
Definition forceReconnectHints (w : World) (c : Coordinator) (nodeID : string)
    : Coordinator * list string :=
  let pushed :=
    (filter (λ e, Ring.GetNode (Ring c) e.1 = nodeID) (map_to_list (Storage c))).*1 in
  match Hints c !! nodeID with
  | Some (h :: hintsCopy) =>
      (set_Hints (λ hs, foldl (reconnect_step w nodeID) hs (h :: hintsCopy)) c, pushed)
  | _ => (c, pushed)
  end.

(** *** Construction *)

(** [NewCoordinator]: [inl] is the message of [log.Fatal]; the store is
    the one of a fresh data directory. *)
Definition NewCoordinator (nodeID : string) (ring : Ring.ConsistentHashRing)
    (replication readQ writeQ : Z) : string + Coordinator :=
  if (readQ <=? 0) || (writeQ <=? 0) || (replication <=? 0)
  then inl "Invalid quorum parameters - all values must be positive integers"
  else if wrap64 (readQ + writeQ) <=? replication
  then inl "Invalid quorum configuration: R + W must be > N"
  else inr (mkCoordinator nodeID ring
              (if replication <=? 0 then defaultReplication else replication)
              ∅ ∅ None readQ writeQ).

(** *** Sample data for the examples *)

(** A world in which maps are walked in key order, the store accepts
    every write and no peer answers. *)
Definition silent_world : World :=
  mkWorld (λ A m, map_to_list m) 100 (λ _, true) (λ _ _ _ _ _, false)
          (λ _ _ _, None) (λ _, false) (λ _ _, false).

Definition clockA1 : VClock.VectorClock := VClock.mkVC {["nodeA" := 1]}.
Definition clockB1 : VClock.VectorClock := VClock.mkVC {["nodeB" := 1]}.
Definition clockA2 : VClock.VectorClock := VClock.mkVC {["nodeA" := 2]}.

Definition stored_v1 : storedValue := mkStored (Some (JString "v1")) (Some clockA1) [] 50.
Definition stored_new : storedValue := mkStored (Some (JString "new")) (Some clockA2) [] 60.

(** Node A with N = 3, R = W = 2, holding "ck" and "x". *)
Definition nodeA_state : Coordinator :=
  mkCoordinator "nodeA" Ring.NewConsistentHashRing 3
                (<["ck" := stored_v1]> {["x" := stored_new]}) ∅ None 2 2.

(** *** Write quorum *)


(** *** Local reads and the hint buffer *)

(** [holds_hint c key h]: [h] is buffered for some target and carries
    [key]. *)
Definition holds_hint (c : Coordinator) (key : string) (h : HintedWrite) : Prop :=
  ∃ target hints, Hints c !! target = Some hints ∧ h ∈ hints ∧ hint_Key h = key.

Definition hint_value (h : HintedWrite) : storedValue :=
  mkStored (hint_Value h) (Some (hint_VectorClock h)) [] (hint_Timestamp h).

(** *** Reads below the quorum *)

(** The replies [Get] collects: the replicas of the preference list that
    returned a value. *)
Definition responses (w : World) (c : Coordinator) (key : string)
    : gmap string storedValue :=
  gatherResponses w c (getResponsibleNodes w c key true).1 key.

(** A coordinator that is the only node of its ring, holding "ck". *)
Definition nodeA_alone : Coordinator :=
  mkCoordinator "nodeA" Ring.ringA 3 {["ck" := stored_v1]} ∅ None 2 2.

(** *** Read repair *)

(** The reconciled value [Get] repairs with. *)
Definition reconciled (w : World) (c : Coordinator) (key : string) : storedValue :=
  (resolveConflicts w (responses w c key)).1.

(** What a replica returned to the coordinator during [Get]. *)
Definition returned (w : World) (c : Coordinator) (key nodeID : string) : storedValue :=
  retrieveValue w c nodeID key.

(** The replica returned nothing, or a version strictly older than the
    reconciled one. *)
Definition returned_stale (w : World) (c : Coordinator) (key nodeID : string) : Prop :=
  Value (returned w c key nodeID) = None ∨
  compareVectorClocks (VectorClock (returned w c key nodeID))
                      (VectorClock (reconciled w c key)) = "newer".

(** Three nodes, N = 3, R = W = 2.  Node A coordinates and holds nothing;
    nodes B and C both answer "hello" with clock {A:1}. *)
Definition ringABC : Ring.ConsistentHashRing :=
  Ring.AddNode (Ring.AddNode (Ring.AddNode Ring.NewConsistentHashRing "nodeA") "nodeB") "nodeC".

Definition hello_reply : WireValue :=
  mkWire (Some (JString "hello")) {["nodeA" := 1]} (Some 40).

Definition replicas_answer_world : World :=
  mkWorld (λ A m, map_to_list m) 100 (λ _, true) (λ _ _ _ _ _, true)
          (λ _ nodeID key,
             if bool_decide (key = "mykey") && bool_decide (nodeID ∈ ["nodeB"; "nodeC"])
             then Some hello_reply else None)
          (λ _, false) (λ _ _, false).

Definition three_nodes (ring : Ring.ConsistentHashRing) : Coordinator :=
  mkCoordinator "nodeA" ring 3 ∅ ∅ None 2 2.

Definition nodeA_of_three : Coordinator := three_nodes ringABC.

Definition hello_value : storedValue :=
  mkStored (Some (JString "hello")) (Some clockA1) [] 40.

Definition members_ABC : gmap string bool :=
  <["nodeC" := true]> (<["nodeB" := true]> (<["nodeA" := true]> ∅)).

(** Node A holds "fault" only as a hint for node C (scenario S2). *)
Definition hint_fault : HintedWrite :=
  mkHint "fault" (Some (JString "ft")) clockA1 "nodeC" 70 0.

Definition nodeA_with_hint : Coordinator :=
  mkCoordinator "nodeA" Ring.ringA 3 ∅ {["nodeC" := [hint_fault]]} None 2 2.

(** *** The hint buffer *)

(** Oldest first: the timestamps never decrease along the list. *)
Definition fifo (hints : list HintedWrite) : Prop :=
  StronglySorted (λ h1 h2, hint_Timestamp h1 <= hint_Timestamp h2) hints.

Definition not_later (t : Z) (hints : list HintedWrite) : Prop :=
  Forall (λ h, hint_Timestamp h <= t) hints.

(** No target holds more than [hintStorageLimit] hints. *)
Definition hints_bounded (hs : gmap string (list HintedWrite)) : Prop :=
  map_Forall (λ _ hints, (length hints <= hintStorageLimit)%nat) hs.

(** Every buffer is in arrival order and holds nothing from the future. *)
Definition hints_fifo (t : Z) (hs : gmap string (list HintedWrite)) : Prop :=
  map_Forall (λ _ hints, fifo hints ∧ not_later t hints) hs.

Definition buffer (c : Coordinator) (target : string) : list HintedWrite :=
  default [] (Hints c !! target).

(** At instant [t]; of all hint deliveries only those for [key] succeed. *)
Definition delivering_world (t : Z) (key : string) : World :=
  mkWorld (λ A m, map_to_list m) t (λ _, true) (λ _ _ _ _ _, false) (λ _ _ _, None)
          (λ h, bool_decide (hint_Key h = key))
          (λ _ h, bool_decide (hint_Key h = key)).

Definition nodeA_fresh : Coordinator :=
  mkCoordinator "nodeA" Ring.ringA 3 ∅ ∅ None 2 2.

(** The coordinator buffers a hint for node C at each instant of [ts];
    the hint of instant [i] is for key "k<i>". *)
Definition hint_at (c : Coordinator) (i : Z) : Coordinator :=
  storeHint (delivering_world i "k1") c "nodeC" ("k" +:+ pretty i)
            (Some (JNumber i)) (Some clockA1).

Definition buffered (ts : list Z) : Coordinator := foldl hint_at nodeA_fresh ts.

Definition timestamps (c : Coordinator) : list Z :=
  hint_Timestamp <$> buffer c "nodeC".

(** Node C comes back; only the hint for "k1" gets through. *)
Definition reconnected (c : Coordinator) (t : Z) : Coordinator :=
  (forceReconnectHints (delivering_world t "k1") c "nodeC").1.

Definition instants (n : nat) : list Z := Z.of_nat <$> seq 1 n.

(** *** The public read handler and further notions *)

(** The answer of [GetHandler]: status 200 with its body, 404, 500 with
    its message, or no answer when the handler stops on a nil clock. *)
Inductive GetResponse :=
  | GetResponse200 (body : GetResult)
  | GetResponse404
  | GetResponse500 (msg : string)
  | GetResponsePanic.

(** [GetHandler].  A result built from decoded JSON always marshals, so
    the "Failed to marshal response" branch is left out. *)
Definition GetHandler (w : World) (c : Coordinator) (key : string) : GetResponse :=
  let found (result : GetResult) :=
    match res_value result with
    | None => GetResponse404
    | Some _ => GetResponse200 result
    end in
  match (Get w c key).1 with
  | GetPanic => GetResponsePanic
  | GetOk result => found result
  | GetError msg =>
      let localValue := localGet w c key in
      match Value localValue with
      | Some _ =>
          match formatResult localValue 0 with
          | Some result => found result
          | None => GetResponsePanic
          end
      | None => GetResponse500 msg
      end
  end.

(** The clock of a stored value, nil read as the empty clock. *)
Definition clock_of_value (sv : storedValue) : gmap string Z :=
  VClock.clock_of (VectorClock sv).

(** A single-node cluster: N = R = W = 1. *)
Definition nodeA_single : Coordinator :=
  mkCoordinator "nodeA" Ring.ringA 1 {["ck" := stored_v1]} ∅ None 1 1.

(** What [processHints] leaves of a buffer whose target is available: the
    hints whose key is not among the keys of the delivered ones. *)
Definition undelivered (w : World) (hints : list HintedWrite) : list HintedWrite :=
  filter (λ h, hint_Key h ∉ hint_Key <$> filter (λ h', deliverHint w h' = true) hints) hints.

(** *** The internal write handlers of backend/main.go *)

(** The reply of a handler: the status code and the text it writes. *)
Definition Reply : Type := Z * string.

(** The body of [PUT /internal/kv/<key>] as [InternalPutHandler] reads it:
    the "value" member if there is one (its value may be null); the
    "vector_clock" member if there is one, with [None] inside when it does
    not decode as a [map[string]int]; and whether "force_sync", "force_key"
    and "is_hint" are the boolean true. *)
Record InternalPutBody := mkInternalPutBody {
  put_value : option (option json);
  put_vector_clock : option (option (gmap string Z));
  put_force_sync : bool;
  put_force_key : bool;
  put_is_hint : bool
}.

(** The clock the handler works with: the decoded one, or a fresh clock
    incremented at this node. *)
Definition body_clock (c : Coordinator) (vc : option (option (gmap string Z)))
    : VClock.VectorClock :=
  match vc with
  | Some (Some vcMap) => VClock.mkVC vcMap
  | _ => VClock.Increment VClock.NewVectorClock (NodeID c)
  end.

(** [InternalPutHandler]; [None] for a body that is not a JSON object. *)
Definition InternalPutHandler (w : World) (c : Coordinator) (key : string)
    (body : option InternalPutBody) : Reply * Coordinator :=
  match body with
  | None => ((400, "Invalid JSON"), c)
  | Some body =>
      match put_value body with
      | None => ((400, "Missing value"), c)
      | Some value =>
          let vc := body_clock c (put_vector_clock body) in
          if put_force_sync body || put_is_hint body || put_force_key body then
            let r := Storage_Put w c key (mkStored value (Some vc) [] (now w)) in
            if r.1 then ((200, "OK"), r.2) else ((500, "Storage error"), r.2)
          else ((200, "OK"), (localPut w c key value vc).2)
      end
  end.

(** The body of [PUT /internal/repair/<key>] as [RepairHandler] reads it.
    "conflicts" counts when it is an array; an element of it counts when it
    is an object, and then gives its "value" and what decodes of its
    "vector_clock". *)
Record RepairPayload := mkRepairPayload {
  payload_value : option (option json);
  payload_vector_clock : option (option (gmap string Z));
  payload_conflicts : option (list (option (option json * gmap string Z)))
}.

(** [RepairHandler] *)
Definition RepairHandler (w : World) (c : Coordinator) (key : string)
    (body : option RepairPayload) : Reply * Coordinator :=
  match body with
  | None => ((400, "Invalid JSON"), c)
  | Some body =>
      match payload_value body with
      | None => ((400, "Missing value"), c)
      | Some value =>
          let vc := match payload_vector_clock body with
                    | Some (Some vcMap) => VClock.mkVC vcMap
                    | _ => VClock.NewVectorClock
                    end in
          let conflicts :=
            (λ cf : option json * gmap string Z,
               mkStored cf.1 (Some (VClock.mkVC cf.2)) [] (now w))
              <$> omap id (default [] (payload_conflicts body)) in
          let r := Storage_Put w c key (mkStored value (Some vc) conflicts (now w)) in
          if r.1 then ((200, "OK"), r.2) else ((500, "Storage error"), r.2)
      end
  end.

(** What a replica decodes from the body [repairNode] marshals.  The
    decoder passes numbers through [float64], which is exact for the counts
    of [wire_safe] clocks. *)
Definition decoded (b : RepairBody) : RepairPayload :=
  mkRepairPayload (Some (repair_value b)) (Some (Some (repair_vector_clock b)))
    (match repair_conflicts b with
     | Some l => Some ((λ cf : option json * gmap string Z * Z, Some cf.1) <$> l)
     | None => None
     end).

Definition wire_safe (m : gmap string Z) : Prop :=
  map_Forall (λ _ count, - 2 ^ 53 <= count <= 2 ^ 53) m.

(** The sibling a replica rebuilds from a conflict of the repair. *)
Definition repaired_sibling (w : World) (cf : storedValue) : storedValue :=
  mkStored (Value cf) (Some (VClock.mkVC (clock_of_value cf))) [] (now w).

(** The body of a hint delivery whose clock {A:1} is older than what node A
    stores under "x". *)
Definition stale_hint_body : InternalPutBody :=
  mkInternalPutBody (Some (Some (JString "old"))) (Some (Some {["nodeA" := 1]}))
                    false false true.

End Coord.

(** ** backend/config.go and the start of [main] *)

Module Conf.

Record PeerConfig := mkPeerConfig {
  peer_NodeID : string;
  peer_Host : string;
  peer_Port : Z
}.

(** [Config]; the three durations are [time.Duration] values, that is,
    nanoseconds on 64 bits. *)
Record Config := mkConfig {
  NodeID : string;
  Host : string;
  Port : Z;
  Peers : list PeerConfig;
  ReplicationFactor : Z;
  ReadQuorum : Z;
  WriteQuorum : Z;
  GossipInterval : Z;
  FailureCheckInterval : Z;
  GossipTimeout : Z
}.

Definition Millisecond : Z := 1000000.
Definition Second : Z := 1000 * Millisecond.

(** The three errors of [ValidateConfig], with the numbers their messages
    print. *)
Inductive ConfigError :=
  | QuorumsNotPositive
  | UnsafeQuorum (r w n : Z)
  | GossipIntervalTooShort (interval : Z).

(** [ValidateConfig]: [None] is the nil error.  The sum is an [int] sum. *)
Definition ValidateConfig (cfg : Config) : option ConfigError :=
  if (ReadQuorum cfg <=? 0) || (WriteQuorum cfg <=? 0) then Some QuorumsNotPositive
  else
    let sum := wrap64 (ReadQuorum cfg + WriteQuorum cfg) in
    if sum <=? ReplicationFactor cfg
    then Some (UnsafeQuorum (ReadQuorum cfg) (WriteQuorum cfg) (ReplicationFactor cfg))
    else if GossipInterval cfg <? 100 * Millisecond
    then Some (GossipIntervalTooShort (GossipInterval cfg))
    else None.

(** The start of [main] for a configuration file that [LoadConfig] has
    read: validation, the optional overrides of the flags -N, -R and -W (0
    when a flag is not given), the ring, and [NewCoordinator].  [inl] is a
    fatal exit. *)
Definition startup (cfg : Config) (nArg rArg wArg : Z) : string + Coord.Coordinator :=
  match ValidateConfig cfg with
  | Some _ => inl "Failed to load config: config validation failed"
  | None =>
      let n := if 0 <? nArg then nArg else ReplicationFactor cfg in
      let r := if 0 <? rArg then rArg else ReadQuorum cfg in
      let w := if 0 <? wArg then wArg else WriteQuorum cfg in
      let ring :=
        foldl (λ ring peer, Ring.AddNode ring (peer_NodeID peer))
              (Ring.AddNode Ring.NewConsistentHashRing (NodeID cfg)) (Peers cfg) in
      Coord.NewCoordinator (NodeID cfg) ring n r w
  end.

(** The node starts with the configuration as the file gives it. *)
Definition starts (cfg : Config) : Prop := ∃ c, startup cfg 0 0 0 = inr c.

(** The conditions of the specification. *)
Definition valid (cfg : Config) : Prop :=
  0 < ReadQuorum cfg ∧ 0 < WriteQuorum cfg ∧ 0 < ReplicationFactor cfg ∧
  ReplicationFactor cfg < ReadQuorum cfg + WriteQuorum cfg ∧
  100 * Millisecond <= GossipInterval cfg.

(** The file of [run_cluster.sh]: N = 3, R = W = 2, gossip every second. *)
Definition cluster_config : Config :=
  mkConfig "nodeA" "localhost" 8000
           [mkPeerConfig "nodeB" "localhost" 8001; mkPeerConfig "nodeC" "localhost" 8002]
           3 2 2 (1000 * Millisecond) (2000 * Millisecond) (1000 * Millisecond).

(** N = 0 with R = W = 1. *)
Definition config_N0 : Config :=
  mkConfig "nodeA" "localhost" 8000 [] 0 1 1 (100 * Millisecond) Second Second.

(** R = W = 2^62 with N = 3: the sum leaves the range of [int]. *)
Definition config_huge : Config :=
  mkConfig "nodeA" "localhost" 8000 [] 3 (2 ^ 62) (2 ^ 62) (100 * Millisecond) Second Second.

End Conf.

(** ** The gossip service: membership and failure detection *)

Module Gossip.

(** [NodeStatus] is a string type; gossip payloads can carry any string. *)
Definition StatusAlive : string := "alive".
Definition StatusSuspected : string := "suspected".
Definition StatusDown : string := "down".

(** [Member]; [LastSeen] is an instant in nanoseconds.  [Metadata] is never
    read or written and is left out. *)
Record Member := mkMember {
  NodeID : string;
  Host : string;
  Port : Z;
  Heartbeat : Z;
  Status : string;
  LastSeen : Z
}.

(** [GossipService]: [Self] and the content of the [Members] map. *)
Record GossipService := mkGossipService {
  Self : Member;
  Members : gmap string Member
}.

Definition Second : Z := 1000000000.

Definition set_LastSeen (t : Z) (m : Member) : Member :=
  mkMember (NodeID m) (Host m) (Port m) (Heartbeat m) (Status m) t.

Definition set_Status (s : string) (m : Member) : Member :=
  mkMember (NodeID m) (Host m) (Port m) (Heartbeat m) s (LastSeen m).

(** [updateMember] at instant [now], with the node for which it starts
    [forceReconnectHints], if any ([main] sets the global coordinator before
    it starts the gossip service).  The stored member is updated in place
    and stored again under the id of the report. *)
Definition updateMember (now : Z) (gs : GossipService) (newMember : option Member)
    : GossipService * option string :=
  match newMember with
  | None => (gs, None)
  | Some newMember =>
      if decide (NodeID newMember = "") then (gs, None)
      else if decide (NodeID newMember = NodeID (Self gs))
      then (mkGossipService (set_LastSeen now (Self gs)) (Members gs), None)
      else
        match Members gs !! NodeID newMember with
        | None =>
            (mkGossipService (Self gs) (<[NodeID newMember := newMember]> (Members gs)), None)
        | Some current =>
            let reconnect :=
              if (bool_decide (Status current = StatusDown)
                  || bool_decide (Status current = StatusSuspected))
                 && (Heartbeat current <? Heartbeat newMember)
              then Some (NodeID newMember) else None in
            let seen := set_LastSeen now current in
            let beaten :=
              if Heartbeat seen <? Heartbeat newMember
              then mkMember (NodeID seen) (Host newMember) (Port newMember)
                            (Heartbeat newMember)
                            (if decide (Status newMember = StatusAlive)
                             then StatusAlive else Status seen)
                            (LastSeen seen)
              else seen in
            let reported :=
              if bool_decide (Status newMember = StatusDown)
                 && negb (bool_decide (Status beaten = StatusDown))
              then set_Status StatusSuspected beaten else beaten in
            (mkGossipService (Self gs) (<[NodeID newMember := reported]> (Members gs)),
             reconnect)
        end
  end.

(** The status [checkMemberStatuses] gives a member last seen [elapsed]
    nanoseconds ago: down after 6 s, suspected after 3 s, alive otherwise.
    [Time.Sub] saturates at the ends of [int64], far from both thresholds. *)
Definition status_by_silence (elapsed : Z) : string :=
  if 6 * Second <? elapsed then StatusDown
  else if 3 * Second <? elapsed then StatusSuspected
  else StatusAlive.

(** One visit of the [Range] loop of [checkMemberStatuses]: the member is
    stored under its own [NodeID]. *)
Definition check_member (now : Z) (self : string) (ms : gmap string Member)
    (e : string * Member) : gmap string Member :=
  if decide (NodeID e.2 = self) then ms
  else <[NodeID e.2 := set_Status (status_by_silence (now - LastSeen e.2)) e.2]> ms.

(** [checkMemberStatuses] at instant [now]; the members are visited in the
    order of [map_to_list]. *)
Definition checkMemberStatuses (now : Z) (gs : GossipService) : GossipService :=
  mkGossipService (Self gs)
    (foldl (check_member now (NodeID (Self gs))) (Members gs) (map_to_list (Members gs))).

(** What a visit of [checkMemberStatuses] makes of a member. *)
Definition checked (now : Z) (self : string) (m : Member) : Member :=
  if decide (NodeID m = self) then m
  else set_Status (status_by_silence (now - LastSeen m)) m.

(** Every member is stored under its own id, as all the [Store] calls of
    the program have it. *)
Definition keyed (gs : GossipService) : Prop :=
  ∀ k m, Members gs !! k = Some m → NodeID m = k.

(** A known member reported down by a peer. *)
Definition peerB : Member := mkMember "nodeB" "localhost" 8001 7 StatusAlive 1000.
Definition gossipA : GossipService :=
  mkGossipService (mkMember "nodeA" "localhost" 8000 3 StatusAlive 1000) {["nodeB" := peerB]}.
Definition rumour_B_down : Member := mkMember "nodeB" "localhost" 8001 5 StatusDown 0.

End Gossip.

(** ** The Merkle tree *)

Module Merkle.

(** [MerkleTree] *)
Record MerkleTree := mkMerkleTree {
  Leaves : list string;
  Levels : list (list string);
  KeyMap : gmap string string;
  Version : Z
}.

(** [hex.EncodeToString] of the SHA-256 digest of a string. *)
Definition sha256_hex (s : string) : string := SHA256.hex (SHA256.Sum256 s).

Definition hash_pair (a b : string) : string := sha256_hex (a +:+ b).

(** The inner loop of [buildTree]: the hashes of the pairs of a level, the
    last hash paired with itself when the level is odd. *)
Fixpoint next_level (current : list string) : list string :=
  match current with
  | [] => []
  | [a] => [hash_pair a a]
  | a :: b :: rest => hash_pair a b :: next_level rest
  end.

(** The outer loop of [buildTree]: the levels above [current]. *)
Equations? build_levels (current : list string) : list (list string)
    by wf (length current) lt :=
  build_levels current with decide (1 < length current)%nat => {
    | left _ => next_level current :: build_levels (next_level current)
    | right _ => [] }.
Proof.
  assert (∀ n l, (length l <= n)%nat →
            (2 * length (next_level l) <= length l + 1)%nat) as H.
  { intros n. induction n as [|n IH]; intros k Hk.
    - destruct k; [simpl; lia|simpl in Hk; lia].
    - destruct k as [|a [|b rest]]; [simpl; lia|simpl; lia|].
      cbn [next_level length]. specialize (IH rest). simpl in Hk. lia. }
  specialize (H (length current) current). lia.
Qed.

(** [buildTree] *)
Definition buildTree (mt : MerkleTree) : MerkleTree :=
  mkMerkleTree (Leaves mt) (Leaves mt :: build_levels (Leaves mt)) (KeyMap mt)
               (wrap64 (Version mt + 1)).

(** [Root] *)
Definition Root (mt : MerkleTree) : string :=
  match last (Levels mt) with
  | Some (root :: _) => root
  | _ => ""
  end.

(** [findDifferingKeys]: the set [diffs]; the slice it returns lists the
    elements of this set in the order of a map walk. *)
Definition findDifferingKeys (mt other : MerkleTree) : gset string :=
  let fromSelf :=
    omap (λ leaf, if decide (leaf ∈ Leaves other) then None else KeyMap mt !! leaf)
         (Leaves mt) in
  let fromOther :=
    omap (λ leaf, match KeyMap mt !! leaf with
                  | Some _ => None
                  | None => KeyMap other !! leaf
                  end)
         (Leaves other) in
  list_to_set (fromSelf ++ fromOther).

(** [CompareTrees]: [None] is the nil slice of equal roots. *)
Definition CompareTrees (mt other : MerkleTree) : option (gset string) :=
  if decide (Root mt = Root other) then None
  else Some (findDifferingKeys mt other).

(** The byte-wise order of strings. *)
Definition string_le (a b : string) : Prop := String.leb a b = true.

#[global] Instance string_le_dec : RelDecision string_le.
Proof. intros a b. unfold string_le. apply _. Defined.

(** Three leaves, and the same leaves with the last one repeated. *)
Definition three_leaves : MerkleTree := mkMerkleTree ["a"; "b"; "c"] [] ∅ 0.
Definition four_leaves : MerkleTree := mkMerkleTree ["a"; "b"; "c"; "c"] [] ∅ 0.

Section Render.

(** The text [fmt.Sprintf] produces for a value under the verb [%v]. *)
Variable render : option Coord.json → string.

(** [hashLeaf] *)
Definition hashLeaf (key : string) (value : option Coord.json) : string :=
  sha256_hex (key +:+ ":" +:+ render value).

(** [sort.Strings]: ascending in the byte-wise order of strings. *)
Definition sort_keys (keys : list string) : list string := merge_sort string_le keys.

(** [NewMerkleTree]; a nil value in [data] is [None]. *)
Definition NewMerkleTree (data : gmap string (option Coord.json)) : MerkleTree :=
  let keys := sort_keys (map_to_list data).*1 in
  let leaf := λ k, hashLeaf k (default None (data !! k)) in
  buildTree (mkMerkleTree (leaf <$> keys) []
                          (foldl (λ m k, <[leaf k := k]> m) ∅ keys) 0).

End Render.

End Merkle.

(** * Part II: properties *)

Lemma wrap64_id z : int64_range z → wrap64 z = z.
Proof.
  unfold int64_range, wrap64. intros Hz.
  rewrite Z.mod_small; lia.
Qed.

Lemma wrap64_range z : int64_range (wrap64 z).
Proof.
  unfold int64_range, wrap64.
  pose proof (Z.mod_pos_bound (z + 2 ^ 63) (2 ^ 64) ltac:(lia)). lia.
Qed.

Lemma wrap64_overflow z : 2 ^ 63 <= z < 2 ^ 64 → wrap64 z = z - 2 ^ 64.
Proof.
  unfold wrap64. intros Hz.
  replace (z + 2 ^ 63) with ((z - 2 ^ 63) + 1 * 2 ^ 64) by lia.
  rewrite Z.mod_add by lia. rewrite Z.mod_small; lia.
Qed.

Lemma raise_flag_spec {A} (hit : A → bool) flag l :
  raise_flag hit flag l = true ↔ flag = true ∨ ∃ x, x ∈ l ∧ hit x = true.
Proof.
  unfold raise_flag. revert flag.
  induction l as [|y l IH]; intros flag; simpl.
  - split; [auto|]. intros [?|(x & Hx & _)]; [done|]. by apply elem_of_nil in Hx.
  - rewrite IH. split.
    + intros [Hf|(x & Hx & Hh)].
      * destruct (hit y) eqn:Hy; [|by left].
        right. exists y. split; [constructor|done].
      * right. exists x. split; [by constructor|done].
    + intros [->|(x & Hx & Hh)].
      * left. by destruct (hit y).
      * apply elem_of_cons in Hx as [->|Hx].
        -- left. by rewrite Hh.
        -- right. eauto.
Qed.

Module VClockFacts.

Import VClock.

(** *** The loops of [Compare] as flags *)

Lemma flag_false_iff (f : bool) (P : Prop) : (f = true ↔ P) → (f = false ↔ ¬ P).
Proof.
  intros [H1 H2]. destruct f; split; try done.
  - intros HnP. exfalso. by apply HnP, H1.
  - intros _ HP. by apply H2 in HP.
Qed.

Lemma compare_step_flags b l st :
  foldl (compare_step b) st l
  = (raise_flag (vc_hit b) st.1 l, raise_flag (other_hit b) st.2 l).
Proof.
  revert st. induction l as [|e l IH]; intros [vd od]; [done|].
  simpl. rewrite IH. unfold compare_step, vc_hit, other_hit.
  destruct (b !! e.1) as [oc|]; [|done].
  destruct (e.2 <? oc) eqn:H1, (oc <? e.2) eqn:H2; simpl; try done.
  apply Z.ltb_lt in H1, H2. lia.
Qed.

Lemma vcDominates_spec a b : (compare_flags a b).1 = true ↔ exceeds a b.
Proof.
  unfold compare_flags. rewrite compare_step_flags. simpl.
  rewrite raise_flag_spec. split.
  - intros [?|([n c] & Hin & Hhit)]; [done|].
    apply elem_of_map_to_list in Hin. exists n, c. split; [done|].
    intros oc Hoc. unfold vc_hit in Hhit. simpl in Hhit. rewrite Hoc in Hhit.
    by apply Z.ltb_lt.
  - intros (n & c & Hn & Hlt). right. exists (n, c). split.
    + by apply elem_of_map_to_list.
    + unfold vc_hit. simpl. destruct (b !! n) as [oc|]; [|done].
      apply Z.ltb_lt. by apply Hlt.
Qed.

Lemma otherDominates_spec a b : (compare_flags a b).2 = true ↔ exceeds b a.
Proof.
  unfold compare_flags. rewrite compare_step_flags. simpl.
  rewrite !raise_flag_spec. split.
  - intros [[?|([n c] & Hin & Hhit)]|([n c] & Hin & Hhit)]; [done| |].
    + apply elem_of_map_to_list in Hin. unfold other_hit in Hhit. simpl in Hhit.
      destruct (b !! n) as [oc|] eqn:Hb; [|done]. apply Z.ltb_lt in Hhit.
      exists n, oc. split; [done|]. intros c' Hc'. by simplify_eq.
    + apply elem_of_map_to_list in Hin. unfold absent_in in Hhit. simpl in Hhit.
      destruct (a !! n) eqn:Ha; [done|].
      exists n, c. split; [done|]. intros oc Hoc. by simplify_eq.
  - intros (n & c & Hn & Hlt). destruct (a !! n) as [oc|] eqn:Ha.
    + left. right. exists (n, oc). split; [by apply elem_of_map_to_list|].
      unfold other_hit. simpl. rewrite Hn. apply Z.ltb_lt. by apply Hlt.
    + right. exists (n, c). split; [by apply elem_of_map_to_list|].
      unfold absent_in. simpl. by rewrite Ha.
Qed.

Lemma covers_not_exceeds a b : covers a b ↔ ¬ exceeds b a.
Proof.
  split.
  - intros Hc (n & c & Hn & Hlt). destruct (Hc n c Hn) as (c' & Hc' & Hle).
    specialize (Hlt c' Hc'). lia.
  - intros Hne n c Hn. destruct (a !! n) as [c'|] eqn:Ha.
    + exists c'. split; [done|]. destruct (decide (c <= c')); [done|].
      exfalso. apply Hne. exists n, c. split; [done|].
      intros oc Hoc. simplify_eq. lia.
    + exfalso. apply Hne. exists n, c. split; [done|]. intros oc Hoc. by simplify_eq.
Qed.


Lemma covers_refl a : covers a a.
Proof. intros n c Hn. exists c. split; [done|lia]. Qed.

Lemma covers_trans a b c : covers a b → covers b c → covers a c.
Proof.
  intros Hab Hbc n x Hn.
  destruct (Hbc n x Hn) as (y & Hy & Hxy).
  destruct (Hab n y Hy) as (z & Hz & Hyz).
  exists z. split; [done|lia].
Qed.

(** [Compare] on two non-nil clocks, read off the flags. *)
Lemma Compare_1_iff a b :
  Compare (Some a) (Some b) = 1 ↔ exceeds (Clock a) (Clock b) ∧ covers (Clock a) (Clock b).
Proof.
  unfold Compare. rewrite covers_not_exceeds.
  rewrite <- vcDominates_spec, <- (flag_false_iff _ _ (otherDominates_spec _ _)).
  destruct (compare_flags (Clock a) (Clock b)) as [[] []]; simpl; intuition congruence.
Qed.

Lemma Compare_m1_iff a b :
  Compare (Some a) (Some b) = -1 ↔ exceeds (Clock b) (Clock a) ∧ covers (Clock b) (Clock a).
Proof.
  unfold Compare. rewrite covers_not_exceeds.
  rewrite <- otherDominates_spec, <- (flag_false_iff _ _ (vcDominates_spec _ _)).
  destruct (compare_flags (Clock a) (Clock b)) as [[] []]; simpl; intuition congruence.
Qed.

Lemma Compare_values vc other :
  Compare vc other = 1 ∨ Compare vc other = -1 ∨ Compare vc other = 0.
Proof.
  unfold Compare. destruct vc as [a|], other as [b|]; [|by left|by right; left|by right; right].
  destruct (compare_flags (Clock a) (Clock b)) as [[] []]; simpl.
  - by right; right.
  - by left.
  - by right; left.
  - by right; right.
Qed.

Lemma Compare_refl vc : Compare vc vc = 0.
Proof.
  destruct vc as [a|]; [|done].
  destruct (Compare_values (Some a) (Some a)) as [H|[H|H]]; [| |done].
  - apply Compare_1_iff in H as [He _].
    by apply (proj1 (covers_not_exceeds _ _) (covers_refl (Clock a))) in He.
  - apply Compare_m1_iff in H as [He _].
    by apply (proj1 (covers_not_exceeds _ _) (covers_refl (Clock a))) in He.
Qed.

Lemma Compare_flip vc other : Compare vc other = 1 ↔ Compare other vc = -1.
Proof.
  destruct vc as [a|], other as [b|]; simpl; try done.
  change (Compare (Some a) (Some b) = 1 ↔ Compare (Some b) (Some a) = -1).
  by rewrite Compare_1_iff, Compare_m1_iff.
Qed.

Lemma Compare_trans x y z :
  Compare x y = 1 → Compare y z = 1 → Compare x z = 1.
Proof.
  destruct x as [a|], y as [b|], z as [c|]; simpl; try done.
  change (Compare (Some a) (Some b) = 1 → Compare (Some b) (Some c) = 1 →
          Compare (Some a) (Some c) = 1).
  rewrite !Compare_1_iff. intros [(n & k & Hn & Hlt) Hab] [_ Hbc]. split.
  - exists n, k. split; [done|]. intros oc Hoc.
    destruct (Hbc n oc Hoc) as (y & Hy & Hle). specialize (Hlt y Hy). lia.
  - by eapply covers_trans.
Qed.

(** *** Agreement with the order of the specification on positive clocks *)

Lemma count_Some a n c : a !! n = Some c → count a n = c.
Proof. unfold count. by intros ->. Qed.

Lemma count_None a n : a !! n = None → count a n = 0.
Proof. unfold count. by intros ->. Qed.

Lemma positive_count a n : positive a → 0 <= count a n.
Proof.
  intros Hp. unfold count. destruct (a !! n) as [c|] eqn:Hn; simpl; [|lia].
  specialize (Hp n c Hn). simpl in Hp. lia.
Qed.

Lemma covers_pointwise a b :
  positive a → positive b → covers a b ↔ pointwise_ge a b.
Proof.
  intros Ha Hb. split.
  - intros Hc n. destruct (b !! n) as [c|] eqn:Hn.
    + destruct (Hc n c Hn) as (c' & Hc' & Hle).
      rewrite (count_Some _ _ _ Hn), (count_Some _ _ _ Hc'). done.
    + rewrite (count_None _ _ Hn). by apply positive_count.
  - intros Hge n c Hn. specialize (Hge n). rewrite (count_Some _ _ _ Hn) in Hge.
    specialize (Hb n c Hn). simpl in Hb.
    destruct (a !! n) as [c'|] eqn:Ha'.
    + rewrite (count_Some _ _ _ Ha') in Hge. eauto.
    + rewrite (count_None _ _ Ha') in Hge. lia.
Qed.

Lemma exceeds_strict a b :
  positive a → positive b → exceeds a b ↔ ∃ n, count b n < count a n.
Proof.
  intros Ha Hb. split.
  - intros (n & c & Hn & Hlt). exists n. rewrite (count_Some _ _ _ Hn).
    specialize (Ha n c Hn). simpl in Ha.
    destruct (b !! n) as [oc|] eqn:Hbn.
    + rewrite (count_Some _ _ _ Hbn). by apply Hlt.
    + by rewrite (count_None _ _ Hbn).
  - intros (n & Hlt). pose proof (positive_count b n Hb) as Hbn.
    destruct (a !! n) as [c|] eqn:Han.
    + exists n, c. split; [done|]. intros oc Hoc.
      by rewrite (count_Some _ _ _ Han), (count_Some _ _ _ Hoc) in Hlt.
    + rewrite (count_None _ _ Han) in Hlt. lia.
Qed.

Lemma Compare_dominates a b :
  positive (Clock a) → positive (Clock b) →
  Compare (Some a) (Some b) = 1 ↔ dominates (Clock a) (Clock b).
Proof.
  intros Ha Hb. rewrite Compare_1_iff. unfold dominates.
  rewrite (covers_pointwise _ _ Ha Hb), (exceeds_strict _ _ Ha Hb). tauto.
Qed.

(** *** [Merge] *)

Lemma merge_step_fold (l : list (string * Z)) (acc : gmap string Z) k :
  NoDup l.*1 →
  foldl merge_step acc l !! k
  = match (list_to_map l : gmap string Z) !! k with
    | Some c => Some (match acc !! k with Some cur => Z.max cur c | None => c end)
    | None => acc !! k
    end.
Proof.
  revert acc. induction l as [|[n c] l IH]; intros acc Hnd; [done|].
  apply NoDup_cons in Hnd as [Hn Hnd]. simpl. rewrite IH by done.
  destruct (decide (k = n)) as [->|Hne].
  - rewrite lookup_insert_eq.
    rewrite (not_elem_of_list_to_map_1 _ n) by done.
    unfold merge_step. simpl. destruct (acc !! n) as [cur|] eqn:Hacc.
    + destruct (cur <? c) eqn:Hlt.
      * rewrite lookup_insert_eq. f_equal. apply Z.ltb_lt in Hlt. lia.
      * rewrite Hacc. f_equal. apply Z.ltb_ge in Hlt. lia.
    + by rewrite lookup_insert_eq.
  - rewrite lookup_insert_ne by done.
    assert (merge_step acc (n, c) !! k = acc !! k) as ->; [|done].
    unfold merge_step. simpl. destruct (acc !! n) as [cur|].
    + destruct (cur <? c); [by rewrite lookup_insert_ne|done].
    + by rewrite lookup_insert_ne.
Qed.

(** [Merge] is the component-wise maximum; merging a nil clock changes
    nothing. *)
Lemma Merge_vc_max vc other :
  Clock (Merge vc other) = vc_max (Clock vc) (clock_of other).
Proof.
  destruct other as [o|]; simpl.
  - apply map_eq. intros k. unfold vc_max. rewrite lookup_union_with.
    rewrite merge_step_fold by apply NoDup_fst_map_to_list.
    rewrite list_to_map_to_list.
    destruct (Clock o !! k), (Clock vc !! k); done.
  - apply map_eq. intros k. unfold vc_max. rewrite lookup_union_with, lookup_empty.
    by destruct (Clock vc !! k).
Qed.

Lemma vc_max_count a b n :
  positive a → positive b → count (vc_max a b) n = Z.max (count a n) (count b n).
Proof.
  intros Ha Hb. unfold count, vc_max. rewrite lookup_union_with.
  destruct (a !! n) as [x|] eqn:Han, (b !! n) as [y|] eqn:Hbn; simpl; try lia.
  - specialize (Ha n x Han). simpl in Ha. lia.
  - specialize (Hb n y Hbn). simpl in Hb. lia.
Qed.

(** C2, as stated, fails on the last part: [Compare] takes an entry that
    is present with count 0 as information the other clock lacks, and a nil
    clock as older than an empty one, although all of these denote the zero
    clock. *)
Lemma Compare_zero_entry_not_dominates :
  Compare (Some (mkVC {["x" := 0]})) (Some (mkVC ∅)) = 1 ∧
  ¬ dominates {["x" := 0]} ∅ ∧
  Compare (Some (mkVC ∅)) None = 1 ∧
  ¬ dominates (Clock (Clone (Some (mkVC ∅)))) (Clock (Clone None)).
Proof.
  split; [by vm_compute|]. split; [|split; [done|]].
  - intros [_ [n Hn]]. unfold count in Hn. rewrite lookup_empty in Hn. simpl in Hn.
    destruct (decide (n = "x")) as [->|Hne].
    + rewrite lookup_singleton_eq in Hn. simpl in Hn. lia.
    + rewrite lookup_singleton_ne in Hn by done. simpl in Hn. lia.
  - intros [_ [n Hn]]. simpl in Hn. unfold count in Hn.
    rewrite lookup_empty in Hn. simpl in Hn. lia.
Qed.

(** C2, amended.  [Compare] never reports a clock as dominating itself,
    reports [A] over [B] exactly when it reports [B] under [A] (so never both
    ways), and is transitive; this holds for all clocks, nil included.  On
    clocks whose stored counts are all positive, which is what [Increment]
    and [Merge] produce, it reports [A] as dominating [B] exactly when every
    component of [A] is at least the one of [B] (missing entries read as 0)
    and some component is strictly greater. *)
Theorem Compare_partial_order :
  (∀ A, Compare A A = 0) ∧
  (∀ A B, Compare A B = 1 ↔ Compare B A = -1) ∧
  (∀ A B, ¬ (Compare A B = 1 ∧ Compare B A = 1)) ∧
  (∀ A B C, Compare A B = 1 → Compare B C = 1 → Compare A C = 1) ∧
  (∀ a b, positive (Clock a) → positive (Clock b) →
          Compare (Some a) (Some b) = 1 ↔ dominates (Clock a) (Clock b)).
Proof.
  split; [apply Compare_refl|]. split; [apply Compare_flip|].
  split; [|split; [apply Compare_trans|apply Compare_dominates]].
  intros A B [H1 H2]. apply Compare_flip in H1. congruence.
Qed.

Lemma Compare_partial_order_witness :
  Compare (Some clock_A2_B1) (Some clock_A1) = 1
  ↔ dominates (Clock clock_A2_B1) (Clock clock_A1).
Proof.
  apply (proj2 (proj2 (proj2 (proj2 Compare_partial_order))) clock_A2_B1 clock_A1).
  - simpl. apply map_Forall_insert_2; [lia|]. apply map_Forall_singleton. lia.
  - simpl. apply map_Forall_singleton. lia.
Defined.

Example Compare_A2_B1_over_A1 : Compare (Some clock_A2_B1) (Some clock_A1) = 1.
Proof. by vm_compute. Qed.

(** *** [Merge], [Increment], [Equals] and [MergeAndIncrement] *)

Lemma covers_vc_max_l a b : covers (vc_max a b) a.
Proof.
  intros n c Hn. unfold vc_max. rewrite lookup_union_with, Hn.
  destruct (b !! n) as [y|]; simpl; eexists; (split; [done|lia]).
Qed.

Lemma covers_vc_max_r a b : covers (vc_max a b) b.
Proof.
  intros n c Hn. unfold vc_max. rewrite lookup_union_with, Hn.
  destruct (a !! n) as [y|]; simpl; eexists; (split; [done|lia]).
Qed.

Lemma covers_vc_max_least u a b : covers u a → covers u b → covers u (vc_max a b).
Proof.
  intros Ha Hb n c. unfold vc_max. rewrite lookup_union_with.
  destruct (a !! n) as [x|] eqn:Han, (b !! n) as [y|] eqn:Hbn; simpl; intros Hn;
    simplify_eq.
  - destruct (Ha n x Han) as (x' & Hx' & ?), (Hb n y Hbn) as (y' & Hy' & ?).
    simplify_eq. exists x'. split; [done|lia].
  - by apply Ha.
  - by apply Hb.
Qed.

Lemma Compare_covers_not_older a b :
  covers (Clock a) (Clock b) → Compare (Some a) (Some b) ≠ -1.
Proof.
  intros Hc H. apply Compare_m1_iff in H as [He _].
  by apply covers_not_exceeds in Hc.
Qed.

(** X1. [Merge] yields a least upper bound of the two clocks: [Compare]
    never ranks the merged clock below the receiver or below the argument,
    every clock that covers both covers the merged clock, and merging the
    same clock in again changes nothing. *)
Theorem Merge_least_upper_bound (vc : VectorClock) (other : option VectorClock) :
  Compare (Some (Merge vc other)) (Some vc) ≠ -1 ∧
  Compare (Some (Merge vc other)) other ≠ -1 ∧
  (∀ u, covers (Clock u) (Clock vc) → covers (Clock u) (clock_of other) →
        covers (Clock u) (Clock (Merge vc other))) ∧
  Merge (Merge vc other) other = Merge vc other.
Proof.
  split; [|split; [|split]].
  - apply Compare_covers_not_older. rewrite Merge_vc_max. apply covers_vc_max_l.
  - destruct other as [o|]; [|done].
    apply Compare_covers_not_older. rewrite Merge_vc_max. apply covers_vc_max_r.
  - intros u Ha Hb. rewrite Merge_vc_max. by apply covers_vc_max_least.
  - assert (∀ x y, Clock x = Clock y → x = y) as Hinj by (by intros [] [] [= ->]).
    apply Hinj. rewrite !Merge_vc_max. apply map_eq. intros k.
    unfold vc_max. rewrite !lookup_union_with.
    destruct (Clock vc !! k) as [x|], (clock_of other !! k) as [y|]; simpl;
      try done; f_equal; lia.
Qed.

Lemma Increment_lookup vc n k :
  Clock (Increment vc n) !! k
  = if decide (k = n) then Some (wrap64 (default 0 (Clock vc !! n) + 1)) else Clock vc !! k.
Proof.
  unfold Increment. simpl. destruct (decide (k = n)) as [->|Hne].
  - by rewrite lookup_insert_eq.
  - by rewrite lookup_insert_ne.
Qed.

Lemma Increment_Compare vc n :
  - 2 ^ 63 <= default 0 (Clock vc !! n) < 2 ^ 63 - 1 →
  Compare (Some (Increment vc n)) (Some vc) = 1.
Proof.
  intros Hr. apply Compare_1_iff.
  assert (wrap64 (default 0 (Clock vc !! n) + 1) = default 0 (Clock vc !! n) + 1) as Hw.
  { apply wrap64_id. unfold int64_range. lia. }
  split.
  - exists n, (default 0 (Clock vc !! n) + 1). split.
    + rewrite Increment_lookup, decide_True by done. by rewrite Hw.
    + intros oc Hoc. rewrite Hoc. simpl. lia.
  - intros k c Hk. rewrite Increment_lookup. destruct (decide (k = n)) as [->|Hne].
    + eexists. split; [done|]. rewrite Hw, Hk. simpl. lia.
    + exists c. split; [done|lia].
Qed.

(** X2. Short of integer overflow, [Increment] makes the clock strictly
    newer: [Compare] ranks the incremented clock above the old one (and the
    old one below it), the count of the node grows by one (from 0 if it had
    no entry), and no other entry changes. *)
Theorem Increment_strictly_newer (vc : VectorClock) (nodeID : string) :
  - 2 ^ 63 <= default 0 (Clock vc !! nodeID) < 2 ^ 63 - 1 →
  Compare (Some (Increment vc nodeID)) (Some vc) = 1 ∧
  Compare (Some vc) (Some (Increment vc nodeID)) = -1 ∧
  Clock (Increment vc nodeID) !! nodeID = Some (default 0 (Clock vc !! nodeID) + 1) ∧
  (∀ k, k ≠ nodeID → Clock (Increment vc nodeID) !! k = Clock vc !! k).
Proof.
  intros Hr. pose proof (Increment_Compare vc nodeID Hr) as H1.
  split; [done|]. split; [by apply Compare_flip|]. split.
  - rewrite Increment_lookup, decide_True by done. f_equal.
    apply wrap64_id. unfold int64_range. lia.
  - intros k Hk. by rewrite Increment_lookup, decide_False.
Qed.

Lemma Increment_strictly_newer_witness :
  Compare (Some (Increment clock_A1 "A")) (Some clock_A1) = 1 ∧
  Compare (Some clock_A1) (Some (Increment clock_A1 "A")) = -1 ∧
  Clock (Increment clock_A1 "A") !! "A" = Some (default 0 (Clock clock_A1 !! "A") + 1) ∧
  (∀ k, k ≠ "A" → Clock (Increment clock_A1 "A") !! k = Clock clock_A1 !! k).
Proof. apply (Increment_strictly_newer clock_A1 "A"). by vm_compute. Defined.

Lemma Equals_Some a b : Equals (Some a) (Some b) = true ↔ a = b.
Proof.
  unfold Equals. split.
  - destruct (decide _) as [Hsz|]; [|done]. intros Hall.
    assert (Clock a ⊆ Clock b) as Hsub.
    { apply map_subseteq_spec. intros k c Hk.
      rewrite forallb_forall in Hall.
      specialize (Hall (k, c)). simpl in Hall.
      destruct (Clock b !! k) as [oc|].
      - f_equal. eapply bool_decide_eq_true_1, Hall.
        apply list_elem_of_In. by apply elem_of_map_to_list.
      - exfalso. assert (false = true) by (apply Hall, list_elem_of_In;
          by apply elem_of_map_to_list). done. }
    assert (Clock a = Clock b) as Heq.
    { destruct (decide (Clock a = Clock b)) as [|Hne]; [done|].
      assert (Clock a ⊂ Clock b) as Hss.
      { split; [done|]. intros Hba. apply Hne. by apply (anti_symm (⊆)). }
      apply map_subset_size in Hss. lia. }
    destruct a, b. simpl in *. by subst.
  - intros ->. rewrite decide_True by done.
    apply forallb_forall. intros [k c] Hin. simpl.
    apply list_elem_of_In, elem_of_map_to_list in Hin. rewrite Hin.
    by apply bool_decide_eq_true_2.
Qed.

(** X3. [Equals] returns true exactly when both clocks are nil or both
    hold the same entries; equal clocks compare as 0. *)
Theorem Equals_iff (vc other : option VectorClock) :
  (Equals vc other = true ↔ vc = other) ∧
  (Equals vc other = true → Compare vc other = 0).
Proof.
  assert (Equals vc other = true ↔ vc = other) as Hiff.
  { destruct vc as [a|], other as [b|]; [|by simpl..].
    rewrite Equals_Some. split; [by intros ->|by intros [= ->]]. }
  split; [done|]. intros H. apply Hiff in H as ->. apply Compare_refl.
Qed.

(** X4. On a non-nil receiver and short of integer overflow,
    [MergeAndIncrement] leaves a clock that [Compare] ranks strictly above
    both the old receiver and the merged-in clock. *)
Theorem MergeAndIncrement_dominates (vc : VectorClock) (other : option VectorClock)
    (nodeID : string) :
  - 2 ^ 63 <= default 0 (Clock (Merge vc other) !! nodeID) < 2 ^ 63 - 1 →
  ∃ r, MergeAndIncrement (Some vc) other nodeID = Some r ∧
       Compare (Some r) (Some vc) = 1 ∧ Compare (Some r) other = 1.
Proof.
  intros Hr. eexists. split; [done|].
  pose proof (Increment_Compare _ nodeID Hr) as Hi.
  pose proof (Merge_vc_max vc other) as Hm.
  assert (∀ b, covers (Clock (Merge vc other)) (Clock b) →
               Compare (Some (Increment (Merge vc other) nodeID)) (Some b) = 1) as Hstep.
  { intros b Hb. apply Compare_1_iff in Hi as [(n & c & Hn & Hlt) Hc].
    apply Compare_1_iff. split; [|by eapply covers_trans].
    exists n, c. split; [done|]. intros oc Hoc.
    destruct (Hb n oc Hoc) as (y & Hy & Hle). specialize (Hlt y Hy). lia. }
  split.
  - apply Hstep. rewrite Hm. apply covers_vc_max_l.
  - destruct other as [o|]; [|done]. apply Hstep. rewrite Hm. apply covers_vc_max_r.
Qed.

Lemma MergeAndIncrement_dominates_witness :
  ∃ r, MergeAndIncrement (Some clock_A1) (Some clock_A2_B1) "B" = Some r ∧
       Compare (Some r) (Some clock_A1) = 1 ∧ Compare (Some r) (Some clock_A2_B1) = 1.
Proof. apply (MergeAndIncrement_dominates clock_A1 (Some clock_A2_B1) "B"). by vm_compute. Defined.

End VClockFacts.

Module SHA256Facts.

Import SHA256.










End SHA256Facts.

Example K_ends : head SHA256.K = Some 0x428a2f98 ∧ last SHA256.K = Some 0xc67178f2.
Proof. by vm_compute. Qed.

Example H0_ends : head SHA256.H0 = Some 0x6a09e667 ∧ last SHA256.H0 = Some 0x5be0cd19.
Proof. by vm_compute. Qed.

(** The test vectors of the standard: one block, the empty message, and a
    message whose padding spills into a second block. *)
Example Sum256_abc :
  SHA256.hex (SHA256.Sum256 "abc")
  = "ba7816bf8f01cfea414140de5dae2223b00361a396177a9cb410ff61f20015ad".
Proof. vm_compute. reflexivity. Qed.

Example Sum256_empty :
  SHA256.hex (SHA256.Sum256 "")
  = "e3b0c44298fc1c149afbf4c8996fb92427ae41e4649b934ca495991b7852b855".
Proof. vm_compute. reflexivity. Qed.

Example Sum256_two_blocks :
  SHA256.hex (SHA256.Sum256 "abcdbcdecdefdefgefghfghighijhijkijkljklmklmnlmnomnopnopq")
  = "248d6a61d20638b8e5c026930c3e6039a33ce45964ff2167f6ecedd419db06c1".
Proof. vm_compute. reflexivity. Qed.

Module RingFacts.

Import Ring.

(** *** [hashKey] *)






(** *** [sort.Search] *)

(** For a predicate that is false and then true on [0, n), the loop stops
    at the boundary. *)
Lemma search_loop_spec f n i j :
  (∀ a b, (a <= b < n)%nat → f a = true → f b = true) →
  (i <= j <= n)%nat →
  (∀ k, (k < i)%nat → f k = false) →
  (∀ k, (j <= k < n)%nat → f k = true) →
  (i <= search_loop f i j <= j)%nat ∧
  (∀ k, (k < search_loop f i j)%nat → f k = false) ∧
  (∀ k, (search_loop f i j <= k < n)%nat → f k = true).
Proof.
  intros Hmono. funelim (search_loop f i j); intros Hij Hlo Hhi.
  - (* i >= j: the loop is over *)
    assert (i = j) as -> by lia. split; [lia|]. split; [done|]. done.
  - (* f h = true: j := h *)
    assert (i <= (i + j) / 2 < j)%nat as Hh.
    { split; [apply Nat.div_le_lower_bound; lia | apply Nat.Div0.div_lt_upper_bound; lia]. }
    destruct (H n Hmono) as (Hr & Hf & Ht); [lia|done| |].
    + intros k Hk. apply (Hmono ((i + j) / 2)%nat); [lia|done].
    + split; [lia|done].
  - (* f h = false: i := h + 1 *)
    assert (i <= (i + j) / 2 < j)%nat as Hh.
    { split; [apply Nat.div_le_lower_bound; lia | apply Nat.Div0.div_lt_upper_bound; lia]. }
    destruct (H n Hmono) as (Hr & Hf & Ht); [lia| |done|].
    + intros k Hk. destruct (f k) eqn:Hfk; [|done].
      rewrite (Hmono k ((i + j) / 2)%nat) in Heq; [done|lia|done].
    + split; [lia|done].
Qed.

Lemma Search_spec f n :
  (∀ a b, (a <= b < n)%nat → f a = true → f b = true) →
  (Search n f <= n)%nat ∧
  (∀ k, (k < Search n f)%nat → f k = false) ∧
  (∀ k, (Search n f <= k < n)%nat → f k = true).
Proof.
  intros Hmono. unfold Search.
  destruct (search_loop_spec f n 0 n Hmono) as (Hr & Hf & Ht); [lia|lia|lia|].
  split; [lia|done].
Qed.

(** *** [GetNode] *)

Lemma sorted_lookup_le (vn : list Z) a b x y :
  Sorted Z.le vn → (a <= b)%nat → vn !! a = Some x → vn !! b = Some y → x <= y.
Proof.
  intros Hs%Sorted_StronglySorted; [|apply _]. revert a b.
  induction Hs as [|t vn Hs IH Hall]; intros a b Hab Ha Hb; [done|].
  destruct a as [|a], b as [|b]; simpl in *; simplify_eq; try lia.
  - by eapply (proj1 (Forall_forall _ _) Hall), list_elem_of_lookup_2.
  - eapply IH; [|done..]. lia.
Qed.

Lemma successor_token_unique vn h t t' :
  successor_token vn h t → successor_token vn h t' → t = t'.
Proof.
  intros [Ht [[H1 H2]|[H1 H2]]] [Ht' [[H1' H2']|[H1' H2']]].
  - specialize (H2 t' Ht' H1'). specialize (H2' t Ht H1). lia.
  - specialize (H1' t Ht). lia.
  - specialize (H1 t' Ht'). lia.
  - specialize (H2 t' Ht'). specialize (H2' t Ht). lia.
Qed.

(** [GetNode] reads the map at the token that serves the key's hash. *)
Lemma GetNode_successor c key :
  Sorted Z.le (virtualNodes c) → virtualNodes c ≠ [] →
  ∃ t, successor_token (virtualNodes c) (hashKey key) t
       ∧ GetNode c key = default "" (nodeMap c !! t).
Proof.
  intros Hs Hne. unfold GetNode. cbv zeta.
  set (vn := virtualNodes c) in *. set (h := hashKey key).
  assert (0 < length vn)%nat as Hlen by (destruct vn; [done|simpl; lia]).
  destruct (decide (length vn = 0%nat)) as [|_]; [lia|].
  set (f := λ i : nat, bool_decide (h <= vn !!! i)).
  assert (∀ k, (k < length vn)%nat → vn !! k = Some (vn !!! k)) as Hlk.
  { intros k Hk. by apply list_lookup_lookup_total_lt. }
  assert (∀ a b, (a <= b < length vn)%nat → f a = true → f b = true) as Hmono.
  { intros a b Hab Ha. unfold f in *. apply bool_decide_eq_true in Ha.
    apply bool_decide_eq_true.
    pose proof (sorted_lookup_le vn a b _ _ Hs ltac:(lia) (Hlk a ltac:(lia)) (Hlk b ltac:(lia))).
    lia. }
  destruct (Search_spec f (length vn) Hmono) as (Hr & Hf & Ht).
  destruct (decide (Search (length vn) f = length vn)) as [Heq|Hneq].
  - (* every token is below the hash: wrap to the first token *)
    exists (vn !!! 0%nat). split; [|done]. split.
    + eapply list_elem_of_lookup_2, Hlk. lia.
    + right. split.
      * intros t' (k & Hk)%list_elem_of_lookup_1.
        pose proof (lookup_lt_Some _ _ _ Hk) as Hklt.
        specialize (Hf k ltac:(lia)). unfold f in Hf.
        apply bool_decide_eq_false in Hf.
        rewrite (list_lookup_total_correct _ _ _ Hk) in Hf. lia.
      * intros t' (k & Hk)%list_elem_of_lookup_1.
        eapply (sorted_lookup_le vn 0 k); [done|lia|by apply Hlk|done].
  - exists (vn !!! Search (length vn) f). split; [|done].
    assert (Search (length vn) f < length vn)%nat as Hlt by lia. split.
    + eapply list_elem_of_lookup_2, Hlk. lia.
    + left. split.
      * pose proof (Ht (Search (length vn) f) ltac:(lia)) as Htr.
        unfold f in Htr at 1. by apply bool_decide_eq_true in Htr.
      * intros t' (k & Hk)%list_elem_of_lookup_1 Hht'.
        pose proof (lookup_lt_Some _ _ _ Hk) as Hklt.
        destruct (decide (k < Search (length vn) f)%nat) as [Hkr|Hkr].
        -- specialize (Hf k Hkr). unfold f in Hf. apply bool_decide_eq_false in Hf.
           rewrite (list_lookup_total_correct _ _ _ Hk) in Hf. lia.
        -- eapply (sorted_lookup_le vn (Search (length vn) f) k);
             [done|lia|by apply Hlk|done].
Qed.

Lemma add_vnode_fold nodeID (idxs : list nat) l m :
  foldl (add_vnode nodeID) (l, m) idxs
  = (l ++ ((λ i, hashKey (virtualKey nodeID i)) <$> idxs),
     insert_tokens nodeID m ((λ i, hashKey (virtualKey nodeID i)) <$> idxs)).
Proof.
  revert l m. induction idxs as [|i idxs IH]; intros l m; simpl.
  - by rewrite app_nil_r.
  - unfold add_vnode at 2. simpl. rewrite IH. unfold insert_tokens. simpl.
    by rewrite <- app_assoc.
Qed.

Lemma AddNode_unfold c nodeID :
  AddNode c nodeID
  = mkRing (sort_tokens (virtualNodes c ++ tokens_of nodeID))
           (insert_tokens nodeID (nodeMap c) (tokens_of nodeID))
           (<[nodeID := true]> (nodes c)).
Proof. unfold AddNode. cbv zeta. by rewrite add_vnode_fold. Qed.

Lemma insert_tokens_lookup nodeID m ts t :
  insert_tokens nodeID m ts !! t = if decide (t ∈ ts) then Some nodeID else m !! t.
Proof.
  unfold insert_tokens. revert m. induction ts as [|x ts IH]; intros m; simpl.
  - destruct (decide (t ∈ [])) as [H|]; [by apply elem_of_nil in H|done].
  - rewrite IH. destruct (decide (t ∈ ts)) as [Hin|Hnin].
    + rewrite decide_True; [done|by right].
    + destruct (decide (t = x)) as [->|Hne].
      * rewrite lookup_insert_eq. rewrite decide_True; [done|by left].
      * rewrite lookup_insert_ne by done.
        rewrite decide_False; [done|]. by intros [?|?]%elem_of_cons.
Qed.

Lemma sort_tokens_perm l : sort_tokens l ≡ₚ l.
Proof. apply merge_sort_Permutation. Qed.

Lemma sort_tokens_sorted l : Sorted Z.le (sort_tokens l).
Proof. apply (Sorted_merge_sort Z.le). Qed.

Lemma elem_of_sort_tokens t l : t ∈ sort_tokens l ↔ t ∈ l.
Proof. by rewrite sort_tokens_perm. Qed.

Lemma tokens_of_length nodeID : length (tokens_of nodeID) = virtualNodeCount.
Proof. unfold tokens_of. by rewrite length_fmap, length_seq. Qed.

Lemma AddNode_length c nodeID :
  length (virtualNodes (AddNode c nodeID))
  = (length (virtualNodes c) + virtualNodeCount)%nat.
Proof.
  rewrite AddNode_unfold. simpl.
  by rewrite sort_tokens_perm, length_app, tokens_of_length.
Qed.


Lemma AddNode_wf c nodeID : ring_wf c → ring_wf (AddNode c nodeID).
Proof.
  intros [Hs Ho Ht]. split.
  - rewrite AddNode_unfold. apply sort_tokens_sorted.
  - intros t. rewrite AddNode_unfold. simpl.
    rewrite elem_of_sort_tokens, insert_tokens_lookup.
    destruct (decide (t ∈ tokens_of nodeID)) as [Hin|Hnin].
    + intros _. exists nodeID. by rewrite lookup_insert_eq.
    + intros [Hvn|?]%elem_of_app; [|done].
      destruct (Ho t Hvn) as (n & Hn & Hmem). exists n. split; [done|].
      destruct (decide (nodeID = n)) as [->|Hne].
      * by rewrite lookup_insert_eq.
      * by rewrite lookup_insert_ne.
  - intros _ Hnil. pose proof (AddNode_length c nodeID) as Hlen.
    rewrite Hnil in Hlen. unfold virtualNodeCount in Hlen. simpl in Hlen. lia.
Qed.

Lemma built_wf c : built c → ring_wf c.
Proof.
  induction 1 as [|c nodeID _ IH].
  - split; simpl; [constructor| |done].
    intros t Ht. by apply elem_of_nil in Ht.
  - by apply AddNode_wf.
Qed.

Example hashKey_mykey : hashKey "mykey" = 6796200142914898911.
Proof. vm_compute. reflexivity. Qed.

Example virtualKey_17 : virtualKey "nodeA" 17 = "nodeA-vn-17".
Proof. vm_compute. reflexivity. Qed.

(** The least and the greatest token of node A. *)
Example nodeA_token_61 : hashKey (virtualKey "nodeA" 61) = 95300296460692914.
Proof. vm_compute. reflexivity. Qed.

Example nodeA_token_130 : hashKey (virtualKey "nodeA" 130) = 18444543372975839440.
Proof. vm_compute. reflexivity. Qed.






(** *** Ring changes and the keys they move *)

(** *** [RemoveNode] *)

Lemma search_loop_bounds f i j :
  (i <= j)%nat → (i <= search_loop f i j <= j)%nat.
Proof.
  funelim (search_loop f i j); intros Hij.
  - lia.
  - assert (i <= (i + j) / 2 < j)%nat as Hh.
    { split; [apply Nat.div_le_lower_bound; lia | apply Nat.Div0.div_lt_upper_bound; lia]. }
    specialize (H ltac:(lia)). lia.
  - assert (i <= (i + j) / 2 < j)%nat as Hh.
    { split; [apply Nat.div_le_lower_bound; lia | apply Nat.Div0.div_lt_upper_bound; lia]. }
    specialize (H ltac:(lia)). lia.
Qed.

(** [GetNode] answers with the empty string on a ring without tokens and
    with the map entry of one of the tokens otherwise. *)
Lemma GetNode_cases c key :
  (virtualNodes c = [] ∧ GetNode c key = "") ∨
  ∃ t, t ∈ virtualNodes c ∧ GetNode c key = default "" (nodeMap c !! t).
Proof.
  unfold GetNode. cbv zeta. destruct (decide (length (virtualNodes c) = 0%nat)) as [H0|Hn0].
  - left. split; [by apply nil_length_inv|done].
  - right. set (vn := virtualNodes c) in *.
    set (f := λ i : nat, bool_decide (hashKey key <= vn !!! i)).
    pose proof (search_loop_bounds f 0 (length vn) ltac:(lia)) as Hb.
    fold (Search (length vn) f) in Hb.
    destruct (decide (Search (length vn) f = length vn)) as [Heq|Hneq].
    + exists (vn !!! 0%nat). split; [|done].
      eapply list_elem_of_lookup_2, list_lookup_lookup_total_lt. lia.
    + exists (vn !!! Search (length vn) f). split; [|done].
      eapply list_elem_of_lookup_2, list_lookup_lookup_total_lt. lia.
Qed.

Lemma StronglySorted_sublist {A} (R : relation A) l1 l2 :
  l1 `sublist_of` l2 → StronglySorted R l2 → StronglySorted R l1.
Proof.
  induction 1 as [|x l1 l2 Hsub IH|x l1 l2 Hsub IH]; intros Hs; [done| |].
  - apply StronglySorted_inv in Hs as [Hs Hall]. constructor; [by apply IH|].
    apply Forall_forall. intros y Hy.
    eapply (proj1 (Forall_forall _ _) Hall), elem_of_sublist; done.
  - apply StronglySorted_inv in Hs as [Hs _]. by apply IH.
Qed.

Lemma Sorted_le_sublist (l1 l2 : list Z) :
  l1 `sublist_of` l2 → Sorted Z.le l2 → Sorted Z.le l1.
Proof.
  intros Hsub Hs. apply StronglySorted_Sorted.
  eapply StronglySorted_sublist; [done|]. apply Sorted_StronglySorted; [apply _|done].
Qed.

(** The loop of [RemoveNode] from any intermediate state: what it appends
    is a sublist of the tokens it walks; no token it leaves on the slice is
    mapped to the node; and a token that was not mapped to the node is kept
    with its map entry. *)
Lemma remove_vnode_fold nodeID vn : ∀ l m,
  ∃ l' m', foldl (remove_vnode nodeID) (l, m) vn = (l ++ l', m') ∧
    l' `sublist_of` vn ∧
    ((∀ t, t ∈ l → default "" (m !! t) ≠ nodeID) →
     ∀ t, t ∈ l ++ l' → default "" (m' !! t) ≠ nodeID) ∧
    (∀ t, default "" (m !! t) ≠ nodeID → m' !! t = m !! t) ∧
    (∀ t, t ∈ vn → default "" (m !! t) ≠ nodeID → t ∈ l').
Proof.
  induction vn as [|hash vn IH]; intros l m.
  - exists [], m. rewrite app_nil_r. split; [done|]. split; [done|].
    split; [done|]. split; [done|]. intros t Ht. by apply elem_of_nil in Ht.
  - simpl. unfold remove_vnode at 2. simpl.
    destruct (decide (default "" (m !! hash) = nodeID)) as [Hown|Hother].
    + destruct (IH l (delete hash m)) as (l' & m' & -> & Hsub & Hinv & Hmap & Hkeep).
      assert (∀ t, default "" (m !! t) ≠ nodeID → delete hash m !! t = m !! t) as Hdel.
      { intros t Ht. apply lookup_delete_ne. by intros ->. }
      exists l', m'. split; [done|]. split; [by apply sublist_cons|].
      split; [|split].
      * intros Hl. apply Hinv. intros t Ht. rewrite Hdel; by apply Hl.
      * intros t Ht. rewrite <- (Hdel t Ht). apply Hmap. by rewrite Hdel.
      * intros t [->|Ht]%elem_of_cons Hne; [done|].
        apply Hkeep; [done|]. by rewrite Hdel.
    + destruct (IH (l ++ [hash]) m) as (l' & m' & -> & Hsub & Hinv & Hmap & Hkeep).
      exists (hash :: l'), m'. split; [by rewrite <- app_assoc|].
      split; [by apply sublist_skip|]. split; [|split].
      * intros Hl t Ht. apply Hinv.
        -- intros t' [?| ->%list_elem_of_singleton]%elem_of_app; [by apply Hl|done].
        -- by rewrite <- app_assoc.
      * done.
      * intros t [->|Ht]%elem_of_cons Hne; [by left|]. right. by apply Hkeep.
Qed.

Lemma remove_vnode_fold_id nodeID vn : ∀ l m,
  (∀ t, t ∈ vn → default "" (m !! t) ≠ nodeID) →
  foldl (remove_vnode nodeID) (l, m) vn = (l ++ vn, m).
Proof.
  induction vn as [|hash vn IH]; intros l m Hvn; simpl.
  - by rewrite app_nil_r.
  - unfold remove_vnode at 2. simpl. rewrite decide_False by (apply Hvn; by left).
    rewrite IH by (intros t Ht; apply Hvn; by right). by rewrite <- app_assoc.
Qed.

(** The ring after [RemoveNode], in the terms of [remove_vnode_fold]. *)
Lemma RemoveNode_spec c nodeID :
  virtualNodes (RemoveNode c nodeID) `sublist_of` virtualNodes c ∧
  (∀ t, t ∈ virtualNodes (RemoveNode c nodeID) →
        default "" (nodeMap (RemoveNode c nodeID) !! t) ≠ nodeID) ∧
  (∀ t, default "" (nodeMap c !! t) ≠ nodeID →
        nodeMap (RemoveNode c nodeID) !! t = nodeMap c !! t) ∧
  (∀ t, t ∈ virtualNodes c → default "" (nodeMap c !! t) ≠ nodeID →
        t ∈ virtualNodes (RemoveNode c nodeID)) ∧
  nodes (RemoveNode c nodeID) = delete nodeID (nodes c).
Proof.
  unfold RemoveNode. cbv zeta.
  destruct (remove_vnode_fold nodeID (virtualNodes c) [] (nodeMap c))
    as (l' & m' & -> & Hsub & Hinv & Hmap & Hkeep). simpl.
  split; [done|]. split; [|done].
  apply Hinv. intros t Ht. by apply elem_of_nil in Ht.
Qed.

(** X5. After [RemoveNode], [GetNode] never answers with the removed
    node (for a node id other than the empty string, which is also the
    answer of an empty ring). *)
Theorem RemoveNode_never_returned (c : ConsistentHashRing) (nodeID key : string) :
  nodeID ≠ "" → GetNode (RemoveNode c nodeID) key ≠ nodeID.
Proof.
  intros Hne. destruct (RemoveNode_spec c nodeID) as (_ & Hinv & _).
  destruct (GetNode_cases (RemoveNode c nodeID) key) as [[_ ->]|(t & Ht & ->)].
  - done.
  - by apply Hinv.
Qed.

Lemma RemoveNode_never_returned_witness :
  "nodeA" ≠ "" ∧ GetNode (RemoveNode ringA "nodeA") "mykey" ≠ "nodeA".
Proof. split; [done|]. by apply (RemoveNode_never_returned ringA "nodeA" "mykey"). Defined.

Lemma successor_token_subset (vn vn' : list Z) h t :
  (∀ x, x ∈ vn' → x ∈ vn) → t ∈ vn' →
  successor_token vn h t → successor_token vn' h t.
Proof.
  intros Hsub Ht [_ [[H1 H2]|[H1 H2]]]; (split; [done|]); [left|right].
  - split; [done|]. intros x Hx. apply H2. by apply Hsub.
  - split; intros x Hx; [apply H1|apply H2]; by apply Hsub.
Qed.

(** X6. Removing a node moves only that node's keys: on a ring with
    ascending tokens, a key that [GetNode] did not assign to the removed
    node is assigned to the same node afterwards. *)
Theorem RemoveNode_keeps_other_keys (c : ConsistentHashRing) (nodeID key : string) :
  Sorted Z.le (virtualNodes c) →
  GetNode c key ≠ nodeID →
  GetNode (RemoveNode c nodeID) key = GetNode c key.
Proof.
  intros Hs Hown.
  destruct (RemoveNode_spec c nodeID) as (Hsub & Hinv & Hmap & Hkeep & _).
  destruct (decide (virtualNodes c = [])) as [Hnil|Hne].
  - rewrite Hnil in Hsub. apply sublist_nil_r in Hsub.
    unfold GetNode. cbv zeta. by rewrite Hsub, Hnil.
  - destruct (GetNode_successor c key Hs Hne) as (t & Hsucc & Hget).
    rewrite Hget in Hown |- *.
    pose proof (Hkeep t (proj1 Hsucc) Hown) as Ht'.
    destruct (GetNode_successor (RemoveNode c nodeID) key) as (t' & Hsucc' & ->).
    { by eapply Sorted_le_sublist. }
    { intros E. rewrite E in Ht'. by apply elem_of_nil in Ht'. }
    assert (t' = t) as ->.
    { eapply successor_token_unique; [done|].
      eapply successor_token_subset; [|done..].
      intros x Hx. by eapply elem_of_sublist. }
    by rewrite Hmap.
Qed.

Lemma GetNode_member c key :
  ring_wf c → nodes c ≠ ∅ → nodes c !! GetNode c key = Some true.
Proof.
  intros Hwf Hne.
  destruct (GetNode_successor c key (wf_sorted c Hwf) (wf_tokens c Hwf Hne))
    as (t & Hsucc & ->).
  destruct (wf_owned c Hwf t (proj1 Hsucc)) as (n & -> & Hmem). done.
Qed.

Lemma ringA_wf : ring_wf ringA.
Proof. apply built_wf, built_add, built_new. Qed.

Lemma ringA_nodes : nodes ringA = {["nodeA" := true]}.
Proof. unfold ringA. by rewrite AddNode_unfold. Qed.

Lemma ringA_GetNode key : GetNode ringA key = "nodeA".
Proof.
  pose proof (GetNode_member ringA key ringA_wf) as H.
  rewrite ringA_nodes in H. specialize (H ltac:(apply insert_non_empty)).
  apply lookup_singleton_Some in H as [<- _]. done.
Qed.

Lemma RemoveNode_keeps_other_keys_witness :
  GetNode (RemoveNode ringA "nodeB") "mykey" = GetNode ringA "mykey".
Proof.
  apply (RemoveNode_keeps_other_keys ringA "nodeB" "mykey").
  - apply (wf_sorted _ ringA_wf).
  - by rewrite ringA_GetNode.
Defined.

(** X7. Adding a node moves keys only to the new node: on a ring with
    ascending tokens, after [AddNode] every key is assigned either to the
    added node or to the node it was assigned to before. *)
Theorem AddNode_moves_keys_to_new_node (c : ConsistentHashRing) (nodeID key : string) :
  Sorted Z.le (virtualNodes c) →
  GetNode (AddNode c nodeID) key = nodeID ∨
  GetNode (AddNode c nodeID) key = GetNode c key.
Proof.
  intros Hs.
  destruct (GetNode_successor (AddNode c nodeID) key) as (t' & Hsucc' & ->).
  { rewrite AddNode_unfold. apply sort_tokens_sorted. }
  { intros E. pose proof (AddNode_length c nodeID) as Hlen. rewrite E in Hlen.
    unfold virtualNodeCount in Hlen. simpl in Hlen. lia. }
  revert Hsucc'. rewrite AddNode_unfold. cbn [virtualNodes nodeMap]. intros Hsucc'.
  rewrite insert_tokens_lookup.
  destruct (decide (t' ∈ tokens_of nodeID)) as [Hin|Hnin]; [by left|right].
  assert (t' ∈ virtualNodes c) as Ht'.
  { destruct Hsucc' as [Ht' _]. apply elem_of_sort_tokens, elem_of_app in Ht'.
    by destruct Ht'. }
  destruct (GetNode_successor c key Hs) as (t & Hsucc & ->).
  { intros E. rewrite E in Ht'. by apply elem_of_nil in Ht'. }
  f_equal. f_equal.
  eapply successor_token_unique; [|done].
  eapply successor_token_subset; [|done..].
  intros x Hx. apply elem_of_sort_tokens, elem_of_app. by left.
Qed.

Lemma AddNode_moves_keys_to_new_node_witness :
  GetNode (AddNode ringA "nodeB") "mykey" = "nodeB" ∨
  GetNode (AddNode ringA "nodeB") "mykey" = GetNode ringA "mykey".
Proof.
  apply (AddNode_moves_keys_to_new_node ringA "nodeB" "mykey").
  apply (wf_sorted _ ringA_wf).
Defined.

(** X8. [RemoveNode] is idempotent; it keeps the remaining tokens in
    their order, drops the node from the member set and leaves the other
    members as they were. *)
Theorem RemoveNode_idempotent (c : ConsistentHashRing) (nodeID : string) :
  RemoveNode (RemoveNode c nodeID) nodeID = RemoveNode c nodeID ∧
  virtualNodes (RemoveNode c nodeID) `sublist_of` virtualNodes c ∧
  nodes (RemoveNode c nodeID) !! nodeID = None ∧
  (∀ n, n ≠ nodeID → nodes (RemoveNode c nodeID) !! n = nodes c !! n).
Proof.
  destruct (RemoveNode_spec c nodeID) as (Hsub & Hinv & _ & _ & Hnodes).
  split; [|split; [done|split]].
  - remember (RemoveNode c nodeID) as r eqn:Hr. clear Hr.
    unfold RemoveNode. cbv zeta.
    rewrite remove_vnode_fold_id by done. cbn [fst snd app].
    rewrite Hnodes, delete_delete_eq, <- Hnodes. by destruct r.
  - rewrite Hnodes. apply lookup_delete_eq.
  - intros n Hn. rewrite Hnodes. by apply lookup_delete_ne.
Qed.

End RingFacts.

Module CoordFacts.

Import Coord.

(** *** [compareVectorClocks] *)

Lemma cvc_step_flags b l st :
  foldl (cvc_step b) st l
  = (raise_flag (VClock.vc_hit b) st.1 l, raise_flag (VClock.other_hit b) st.2 l).
Proof.
  revert st. induction l as [|e l IH]; intros [ag bg]; [done|].
  simpl. rewrite IH. unfold cvc_step, VClock.vc_hit, VClock.other_hit.
  destruct (b !! e.1) as [bc|]; [|done].
  destruct (bc <? e.2) eqn:H1, (e.2 <? bc) eqn:H2; simpl; try done.
  apply Z.ltb_lt in H1, H2. lia.
Qed.

(** Both comparison functions raise the same two flags. *)
Lemma compareVectorClocks_flags a b :
  compareVectorClocks (Some a) (Some b)
  = let f := VClock.compare_flags (VClock.Clock a) (VClock.Clock b) in
    if f.1 && f.2 then "concurrent" else if f.2 then "newer" else "older".
Proof.
  unfold compareVectorClocks, VClock.compare_flags.
  by rewrite cvc_step_flags, VClockFacts.compare_step_flags.
Qed.


Lemma compareVectorClocks_older a b :
  compareVectorClocks (Some a) (Some b) = "older"
  ↔ VClock.covers (VClock.Clock a) (VClock.Clock b).
Proof.
  rewrite compareVectorClocks_flags, VClockFacts.covers_not_exceeds. cbv zeta.
  rewrite <- (VClockFacts.flag_false_iff _ _ (VClockFacts.otherDominates_spec _ _)).
  destruct (VClock.compare_flags _ _) as [[] []]; simpl; intuition congruence.
Qed.

Lemma compareVectorClocks_newer a b :
  compareVectorClocks (Some a) (Some b) = "newer"
  ↔ VClock.exceeds (VClock.Clock b) (VClock.Clock a)
    ∧ VClock.covers (VClock.Clock b) (VClock.Clock a).
Proof.
  rewrite compareVectorClocks_flags, VClockFacts.covers_not_exceeds. cbv zeta.
  rewrite <- VClockFacts.otherDominates_spec.
  rewrite <- (VClockFacts.flag_false_iff _ _ (VClockFacts.vcDominates_spec _ _)).
  destruct (VClock.compare_flags _ _) as [[] []]; simpl; intuition congruence.
Qed.


(** *** Local write application *)




Example localPut_S4_clock :
  VClock.vc_max (VClock.Clock clockB1) (VClock.clock_of (VectorClock stored_v1))
  = <["nodeA" := 1]> {["nodeB" := 1]}.
Proof. by vm_compute. Qed.


Lemma localPut_NodeID w c key value vc : NodeID (localPut w c key value vc).2 = NodeID c.
Proof.
  unfold localPut, Storage_Put. destruct (Storage c !! key) as [ex|]; cbv zeta.
  - repeat case_decide; destruct (storage_put_ok w key); done.
  - destruct (storage_put_ok w key); done.
Qed.

Lemma writeToNode_NodeID w c nid key value vc :
  NodeID (writeToNode w c nid key value vc).2 = NodeID c.
Proof. unfold writeToNode. case_decide; [apply localPut_NodeID|done]. Qed.

(** A peer is among the acknowledged nodes exactly when it is on the list
    and one of its three attempts succeeded; the list of acknowledgements
    is never longer than the list of replicas. *)
Lemma replicateWrite_acks w c nodes key value vc :
  let r := replicateWrite w c nodes key value vc in
  NodeID r.2 = NodeID c ∧
  (length r.1 <= length nodes)%nat ∧
  ∀ nid, nid ≠ NodeID c →
    (nid ∈ r.1 ↔ nid ∈ nodes ∧ remotePutWithRetry w nid key value vc = true).
Proof.
  cbv zeta. unfold replicateWrite.
  assert (∀ acc c0, NodeID c0 = NodeID c →
    let r := foldl (replicate_step w key value vc) (acc, c0) nodes in
    NodeID r.2 = NodeID c ∧ (length r.1 <= length acc + length nodes)%nat ∧
    ∀ nid, nid ≠ NodeID c →
      (nid ∈ r.1 ↔ nid ∈ acc ∨ (nid ∈ nodes ∧ remotePutWithRetry w nid key value vc = true)))
    as Hgen.
  { induction nodes as [|n nodes IH]; intros acc c0 Hid; cbv zeta.
    - simpl. split; [done|]. split; [lia|]. intros nid _. split; [by left|].
      intros [?|[H _]]; [done|]. by apply elem_of_nil in H.
    - simpl foldl.
      assert (replicate_step w key value vc (acc, c0) n
              = (if (writeToNode w c0 n key value vc).1 then acc ++ [n] else acc,
                 (writeToNode w c0 n key value vc).2)) as -> by done.
      destruct (IH (if (writeToNode w c0 n key value vc).1 then acc ++ [n] else acc)
                   (writeToNode w c0 n key value vc).2) as (H1 & H2 & H3).
      { by rewrite writeToNode_NodeID. }
      split; [done|]. split.
      + revert H2. destruct (writeToNode w c0 n key value vc).1;
          rewrite ?length_app; simpl; lia.
      + intros nid Hnid. rewrite (H3 nid Hnid). rewrite elem_of_cons.
        unfold writeToNode. destruct (decide (n = NodeID c0)) as [Heq|Hne].
        * assert (nid ≠ n) as Hn by congruence.
          destruct (localPut w c0 key value vc).1.
          -- rewrite elem_of_app, list_elem_of_singleton. tauto.
          -- tauto.
        * simpl. destruct (remotePutWithRetry w n key value vc) eqn:Hr.
          -- rewrite elem_of_app, list_elem_of_singleton.
             split; [intros [[?| ->]|[? ?]]; auto|intros [?|[[ -> |?] ?]]; auto].
          -- split; [intros [?|[? ?]]; auto|intros [?|[[ -> |?] ?]]; auto; congruence]. }
  destruct (Hgen [] c eq_refl) as (H1 & H2 & H3). split; [done|]. split; [simpl in H2; lia|].
  intros nid Hnid. rewrite (H3 nid Hnid). split; [|by right].
  intros [H|?]; [by apply elem_of_nil in H|done].
Qed.


Lemma find_hint_Some key hints h :
  find_hint key hints = Some h → h ∈ hints ∧ hint_Key h = key.
Proof.
  unfold find_hint. destruct (list_find _ hints) as [[i x]|] eqn:Hf; [|done].
  intros [= <-]. apply list_find_Some in Hf as (Hi & Hk & _).
  split; [by eapply list_elem_of_lookup_2|done].
Qed.

Lemma find_hint_None key hints h :
  find_hint key hints = None → h ∈ hints → hint_Key h ≠ key.
Proof.
  unfold find_hint. destruct (list_find _ hints) as [[i x]|] eqn:Hf; [done|].
  intros _ Hin. apply list_find_None in Hf.
  by apply (proj1 (Forall_forall _ _) Hf).
Qed.

Lemma scan_hints_Some key targets h :
  scan_hints key targets = Some h →
  ∃ target hints, (target, hints) ∈ targets ∧ h ∈ hints ∧ hint_Key h = key.
Proof.
  induction targets as [|[t hs] targets IH]; [done|]. simpl.
  destruct (find_hint key hs) as [h'|] eqn:Hf.
  - intros [= ->]. apply find_hint_Some in Hf as [Hin Hk].
    exists t, hs. split; [by left|done].
  - intros (t' & hs' & Hin & H)%IH. exists t', hs'. split; [by right|done].
Qed.

Lemma scan_hints_None key targets target hints h :
  scan_hints key targets = None → (target, hints) ∈ targets → h ∈ hints →
  hint_Key h ≠ key.
Proof.
  induction targets as [|[t hs] targets IH]; [by intros _ ?%elem_of_nil|]. simpl.
  destruct (find_hint key hs) as [h'|] eqn:Hf; [done|].
  intros Hs [[= -> ->]|Hin]%elem_of_cons Hh.
  - by eapply find_hint_None.
  - by apply IH.
Qed.

Lemma walk_elem (w : World) {A} (m : gmap string A) k x :
  walk_ok w → (k, x) ∈ walk w A m ↔ m !! k = Some x.
Proof. intros Hw. rewrite (Hw A m). apply elem_of_map_to_list. Qed.

(** The hint half of [localGet] returns a buffered hint for the key if
    there is one, and the empty value otherwise. *)
Lemma localGet_hints_found w c key h0 :
  walk_ok w → holds_hint c key h0 →
  ∃ h, holds_hint c key h ∧ localGet_hints w c key = hint_value h.
Proof.
  intros Hw (t0 & hs0 & Ht0 & Hin0 & Hk0). unfold localGet_hints.
  destruct (scan_hints key (walk w _ (Hints c))) as [h|] eqn:Hs.
  - exists h. split; [|done].
    apply scan_hints_Some in Hs as (t & hs & Hin & Hh & Hk).
    exists t, hs. split; [by apply (walk_elem w)|done].
  - exfalso. eapply (scan_hints_None _ _ t0 hs0 h0 Hs); [|done..].
    by apply (walk_elem w).
Qed.

Lemma localGet_hints_none w c key :
  walk_ok w → (∀ h, ¬ holds_hint c key h) → localGet_hints w c key = emptyStoredValue.
Proof.
  intros Hw Hno. unfold localGet_hints.
  destruct (scan_hints key (walk w _ (Hints c))) as [h|] eqn:Hs; [|done].
  exfalso. apply (Hno h).
  apply scan_hints_Some in Hs as (t & hs & Hin & Hh & Hk).
  exists t, hs. split; [by apply (walk_elem w)|done].
Qed.

Lemma localGet_stored w c key sv v :
  Storage c !! key = Some sv → Value sv = Some v → localGet w c key = sv.
Proof. intros Hs Hv. unfold localGet. by rewrite Hs, Hv. Qed.

(** C4. When fewer than [R] replicas return a value, [Get] answers from
    the local node: the read-quorum error if [localGet] finds no value, and
    otherwise the local value and clock with a nil error and no repair.  In
    terms of the state: a value in the local store is returned as it is, and
    a node with neither a stored value nor a hint for the key gets the
    error. *)
Theorem Get_below_read_quorum (w : World) (c : Coordinator) (key : string) :
  Z.of_nat (size (responses w c key)) < ReadQuorum c →
  (Value (localGet w c key) = None →
     Get w c key = (GetError "insufficient replicas for read quorum", [])) ∧
  (∀ v vc, Value (localGet w c key) = Some v →
           VectorClock (localGet w c key) = Some vc →
     Get w c key = (GetOk (mkGetResult (Some v) (VClock.Clock vc) None), [])) ∧
  (∀ sv v vc, Storage c !! key = Some sv → Value sv = Some v →
              VectorClock sv = Some vc →
     Get w c key = (GetOk (mkGetResult (Some v) (VClock.Clock vc) None), [])) ∧
  (walk_ok w →
   (∀ sv, Storage c !! key = Some sv → Value sv = None) →
   (∀ h, ¬ holds_hint c key h) →
     Get w c key = (GetError "insufficient replicas for read quorum", [])).
Proof.
  intros Hlt. apply Z.ltb_lt in Hlt. unfold responses in Hlt.
  assert (∀ v vc, Value (localGet w c key) = Some v →
                  VectorClock (localGet w c key) = Some vc →
          Get w c key = (GetOk (mkGetResult (Some v) (VClock.Clock vc) None), [])) as Hok.
  { intros v vc Hv Hvc. unfold Get. cbv zeta. rewrite Hlt, Hv.
    unfold formatResult. by rewrite Hvc, Hv. }
  assert (Value (localGet w c key) = None →
          Get w c key = (GetError "insufficient replicas for read quorum", [])) as Herr.
  { intros Hv. unfold Get. cbv zeta. by rewrite Hlt, Hv. }
  split; [done|]. split; [done|]. split.
  - intros sv v vc Hs Hv Hvc. apply Hok; by rewrite (localGet_stored w c key sv v).
  - intros Hw Hst Hno. apply Herr. unfold localGet.
    destruct (Storage c !! key) as [sv|] eqn:Hs.
    + rewrite (Hst sv eq_refl). by rewrite localGet_hints_none.
    + by rewrite localGet_hints_none.
Qed.

(** Node A alone cannot reach R = 2, and answers "ck" from its store. *)
Lemma Get_below_read_quorum_witness :
  Get silent_world nodeA_alone "ck"
  = (GetOk (mkGetResult (Some (JString "v1")) (VClock.Clock clockA1) None), []).
Proof.
  apply (proj1 (proj2 (proj2 (Get_below_read_quorum silent_world nodeA_alone "ck"
           ltac:(vm_compute; reflexivity)))) stored_v1 (JString "v1") clockA1);
    reflexivity.
Defined.

Lemma ringABC_nodes : Ring.nodes ringABC = members_ABC.
Proof. unfold ringABC. by rewrite !RingFacts.AddNode_unfold. Qed.

Lemma primary_index_lt allNodes primary :
  allNodes ≠ [] → (primary_index allNodes primary < length allNodes)%nat.
Proof.
  intros Hne. unfold primary_index.
  destruct (list_find _ allNodes) as [[i x]|] eqn:Hf.
  - apply list_find_Some in Hf as (Hi & _). by eapply lookup_lt_Some.
  - destruct allNodes; [done|simpl; lia].
Qed.

(** Whichever node the ring makes the primary for the key, the preference
    list is a rotation of the three nodes. *)
Lemma three_nodes_preference ring :
  Ring.nodes ring = members_ABC →
  (getResponsibleNodes replicas_answer_world (three_nodes ring) "mykey" true).1
  ∈ [["nodeA"; "nodeB"; "nodeC"]; ["nodeB"; "nodeC"; "nodeA"]; ["nodeC"; "nodeA"; "nodeB"]].
Proof.
  intros Hn. unfold getResponsibleNodes, getResponsibleNodes_loop, maxRetryAttempts.
  unfold determineResponsibleNodes, getAllNodeIDs. cbv zeta.
  replace (walk replicas_answer_world bool (Ring.nodes (Ring (three_nodes ring))))
    with (map_to_list members_ABC) by (by rewrite <- Hn).
  assert ((map_to_list members_ABC).*1 = ["nodeC"; "nodeA"; "nodeB"]) as ->
    by (vm_compute; reflexivity).
  pose proof (primary_index_lt ["nodeC"; "nodeA"; "nodeB"]
                (Ring.GetNode (Ring (three_nodes ring)) "mykey") ltac:(done)) as Hlt.
  revert Hlt. generalize (primary_index ["nodeC"; "nodeA"; "nodeB"]
                            (Ring.GetNode (Ring (three_nodes ring)) "mykey")).
  intros i Hi. simpl in Hi.
  destruct i as [|[|[|i]]]; [| | |lia].
  - vm_compute. right. right. by left.
  - vm_compute. by left.
  - vm_compute. right. by left.
Qed.

(** What the read of "mykey" at node A does in this cluster, for each of
    the possible preference lists. *)
Lemma three_nodes_read ring :
  Ring.nodes ring = members_ABC →
  reconciled replicas_answer_world (three_nodes ring) "mykey" = hello_value ∧
  size (responses replicas_answer_world (three_nodes ring) "mykey") = 2%nat ∧
  "nodeA" ∈ (getResponsibleNodes replicas_answer_world (three_nodes ring) "mykey" true).1 ∧
  "nodeB" ∈ (repair_node <$> (Get replicas_answer_world (three_nodes ring) "mykey").2) ∧
  "nodeA" ∉ (repair_node <$> (Get replicas_answer_world (three_nodes ring) "mykey").2).
Proof.
  intros Hn. pose proof (three_nodes_preference ring Hn) as Hp.
  unfold reconciled, responses, Get. cbv zeta.
  revert Hp.
  generalize (getResponsibleNodes replicas_answer_world (three_nodes ring) "mykey" true).1.
  intros nodes Hp.
  repeat (apply elem_of_cons in Hp as [->|Hp]); [| | |by apply elem_of_nil in Hp].
  all: split; [vm_compute; reflexivity|].
  all: split; [vm_compute; reflexivity|].
  all: split; [apply (bool_decide_unpack _); vm_compute; exact I|].
  all: split; apply (bool_decide_unpack _); vm_compute; exact I.
Qed.

Lemma three_nodes_returned ring :
  returned replicas_answer_world (three_nodes ring) "mykey" "nodeB" = hello_value ∧
  returned replicas_answer_world (three_nodes ring) "mykey" "nodeA" = emptyStoredValue.
Proof. split; vm_compute; reflexivity. Qed.

(** C5, as stated, fails both ways: node A is on the preference list,
    returned nothing, and is sent no repair; node B returned the reconciled
    version itself and is sent one. *)
Lemma read_repair_ignores_versions :
  "nodeA" ∈ (getResponsibleNodes replicas_answer_world nodeA_of_three "mykey" true).1 ∧
  returned_stale replicas_answer_world nodeA_of_three "mykey" "nodeA" ∧
  ("nodeA" ∉ repair_node <$> (Get replicas_answer_world nodeA_of_three "mykey").2) ∧
  "nodeB" ∈ (repair_node <$> (Get replicas_answer_world nodeA_of_three "mykey").2) ∧
  returned replicas_answer_world nodeA_of_three "mykey" "nodeB"
    = reconciled replicas_answer_world nodeA_of_three "mykey" ∧
  ¬ returned_stale replicas_answer_world nodeA_of_three "mykey" "nodeB".
Proof.
  unfold nodeA_of_three.
  destruct (three_nodes_read ringABC ringABC_nodes) as (Hrec & _ & HA & HB & HnA).
  destruct (three_nodes_returned ringABC) as (HrB & HrA).
  assert (compareVectorClocks (VectorClock hello_value) (VectorClock hello_value) = "older")
    as Hsame by (vm_compute; reflexivity).
  split; [exact HA|]. split; [left; by rewrite HrA|]. split; [exact HnA|].
  split; [exact HB|]. split; [by rewrite HrB, Hrec|].
  unfold returned_stale. rewrite HrB, Hrec, Hsame. intros [H|H]; discriminate H.
Qed.

Lemma repairNode_node nodeID key value : repair_node (repairNode nodeID key value) = nodeID.
Proof. done. Qed.

(** The repair carries the value, the clock, the timestamp and, when
    there are any, the siblings of what it is given. *)
Lemma repairNode_body nodeID key value vc :
  VectorClock value = Some vc →
  repair_key (repairNode nodeID key value) = key ∧
  (Conflicts value = [] →
     repair_body (repairNode nodeID key value)
     = Some (mkRepairBody (Value value) (VClock.Clock vc) (Timestamp value) None)) ∧
  (∀ siblings, Conflicts value ≠ [] →
     mapM repair_conflict (Conflicts value) = Some siblings →
     repair_body (repairNode nodeID key value)
     = Some (mkRepairBody (Value value) (VClock.Clock vc) (Timestamp value) (Some siblings))).
Proof.
  intros Hvc. unfold repairNode. cbn [repair_key repair_body]. rewrite Hvc.
  split; [done|]. split.
  - by intros ->.
  - intros siblings. destruct (Conflicts value) as [|s l]; [done|].
    intros _ Hm. by rewrite Hm.
Qed.

(** C5, amended.  After a [Get] that reached the read quorum, a repair
    [PUT /internal/repair/<key>] built from the reconciled value (its value,
    merged clock and sibling list) goes to every replica of the preference
    list other than the coordinator itself, whichever version that replica
    returned, and to no other node; a [Get] below the quorum sends none. *)
Theorem Get_read_repairs (w : World) (c : Coordinator) (key : string) :
  (ReadQuorum c <= Z.of_nat (size (responses w c key)) →
     (Get w c key).2
       = (λ nodeID, repairNode nodeID key (reconciled w c key))
           <$> filter (λ nodeID, nodeID ≠ NodeID c) (getResponsibleNodes w c key true).1 ∧
     ∀ nodeID, nodeID ∈ (repair_node <$> (Get w c key).2)
               ↔ nodeID ∈ (getResponsibleNodes w c key true).1 ∧ nodeID ≠ NodeID c) ∧
  (Z.of_nat (size (responses w c key)) < ReadQuorum c → (Get w c key).2 = []).
Proof.
  split.
  - intros Hge. apply Z.ltb_ge in Hge. unfold responses in Hge.
    assert ((Get w c key).2
            = (λ nodeID, repairNode nodeID key (reconciled w c key))
                <$> filter (λ nodeID, nodeID ≠ NodeID c) (getResponsibleNodes w c key true).1)
      as Heq.
    { unfold Get, reconciled, responses, performReadRepairs. cbv zeta. rewrite Hge.
      by destruct (formatResult _ _). }
    split; [done|]. intros nodeID. rewrite Heq, <- list_fmap_compose.
    rewrite list_elem_of_fmap. split.
    + intros (n & -> & Hin). apply list_elem_of_filter in Hin as [Hne Hin]. done.
    + intros [Hin Hne]. exists nodeID. split; [done|]. by apply list_elem_of_filter.
  - intros Hlt. apply Z.ltb_lt in Hlt. unfold responses in Hlt.
    unfold Get. cbv zeta. rewrite Hlt.
    destruct (Value (localGet w c key)); [by destruct (formatResult _ _)|done].
Qed.

(** In the three-node example the read reaches the quorum, and the repairs
    are those of the preference list without node A. *)
Lemma Get_read_repairs_witness :
  (Get replicas_answer_world nodeA_of_three "mykey").2
  = (λ nodeID, repairNode nodeID "mykey" (reconciled replicas_answer_world nodeA_of_three "mykey"))
      <$> filter (λ nodeID, nodeID ≠ NodeID nodeA_of_three)
                 (getResponsibleNodes replicas_answer_world nodeA_of_three "mykey" true).1.
Proof.
  apply (proj1 (Get_read_repairs replicas_answer_world nodeA_of_three "mykey")).
  unfold nodeA_of_three.
  rewrite (proj1 (proj2 (three_nodes_read ringABC ringABC_nodes))). simpl. lia.
Defined.

(** *** Hints as a fallback for local reads *)

(** C10. On a key that is absent from the local store, if some buffered
    hint (for whichever target) carries the key, [localGet] returns the
    value, clock and timestamp of such a hint; [InternalGetHandler] then
    serves them, and so does the degraded read of [Get] when the hinted
    value is not nil. *)
Theorem localGet_hint_fallback (w : World) (c : Coordinator) (key : string)
    (h0 : HintedWrite) :
  walk_ok w → Storage c !! key = None → holds_hint c key h0 →
  ∃ h, holds_hint c key h ∧
       localGet w c key = hint_value h ∧
       InternalGetHandler w c key
         = Some (mkInternalGetResponse (hint_Value h) (VClock.Clock (hint_VectorClock h))
                                       (hint_Timestamp h) None) ∧
       (Z.of_nat (size (responses w c key)) < ReadQuorum c →
        ∀ v, hint_Value h = Some v →
          (Get w c key).1
          = GetOk (mkGetResult (Some v) (VClock.Clock (hint_VectorClock h)) None)).
Proof.
  intros Hw Hs Hh. destruct (localGet_hints_found w c key h0 Hw Hh) as (h & Hholds & Hget).
  assert (localGet w c key = hint_value h) as Hlg.
  { unfold localGet. by rewrite Hs. }
  exists h. split; [done|]. split; [done|]. split.
  - unfold InternalGetHandler. cbv zeta. by rewrite Hlg.
  - intros Hlt v Hv.
    destruct (Get_below_read_quorum w c key Hlt) as (_ & Hok & _).
    rewrite (Hok v (hint_VectorClock h)); [done|by rewrite Hlg|by rewrite Hlg].
Qed.

Lemma silent_world_walk_ok : walk_ok silent_world.
Proof. intros A m. reflexivity. Qed.

Lemma localGet_hint_fallback_witness :
  ∃ h, holds_hint nodeA_with_hint "fault" h ∧
       localGet silent_world nodeA_with_hint "fault" = hint_value h ∧
       InternalGetHandler silent_world nodeA_with_hint "fault"
         = Some (mkInternalGetResponse (hint_Value h) (VClock.Clock (hint_VectorClock h))
                                       (hint_Timestamp h) None) ∧
       (Z.of_nat (size (responses silent_world nodeA_with_hint "fault"))
          < ReadQuorum nodeA_with_hint →
        ∀ v, hint_Value h = Some v →
          (Get silent_world nodeA_with_hint "fault").1
          = GetOk (mkGetResult (Some v) (VClock.Clock (hint_VectorClock h)) None)).
Proof.
  apply (localGet_hint_fallback silent_world nodeA_with_hint "fault" hint_fault).
  - exact silent_world_walk_ok.
  - reflexivity.
  - exists "nodeC", [hint_fault]. split; [reflexivity|]. split; [by left|reflexivity].
Defined.

Example localGet_S2 :
  localGet silent_world nodeA_with_hint "fault" = hint_value hint_fault.
Proof. by vm_compute. Qed.

Lemma storeHint_buffer w c target key value vc :
  buffer (storeHint w c target key value vc) target
  = (if decide (hintStorageLimit <= length (buffer c target))%nat
     then drop 1 (buffer c target) else buffer c target)
    ++ [mkHint key value (VClock.Clone vc) target (now w) 0].
Proof. unfold buffer, storeHint. simpl. by rewrite lookup_insert_eq. Qed.

Lemma storeHint_other w c target key value vc target' :
  target ≠ target' →
  Hints (storeHint w c target key value vc) !! target' = Hints c !! target'.
Proof. intros Hne. unfold storeHint. simpl. by rewrite lookup_insert_ne. Qed.

(** [storeHint] keeps the bound: a full buffer loses its first entry
    before the new hint is appended. *)
Lemma storeHint_bounded w c target key value vc :
  hints_bounded (Hints c) → hints_bounded (Hints (storeHint w c target key value vc)).
Proof.
  intros Hb. unfold storeHint. simpl. apply map_Forall_insert_2; [|done].
  assert (length (default [] (Hints c !! target)) <= hintStorageLimit)%nat as Hlen.
  { destruct (Hints c !! target) as [hints|] eqn:Ht; simpl; [|unfold hintStorageLimit; lia].
    by apply (Hb target hints). }
  rewrite length_app. simpl. unfold hintStorageLimit in *.
  case_decide; [rewrite length_drop|]; lia.
Qed.

Lemma fifo_snoc hints h :
  fifo hints → not_later (hint_Timestamp h) hints → fifo (hints ++ [h]).
Proof.
  intros Hf Hn. apply StronglySorted_app_2; [|done|repeat constructor].
  intros h1 h2 Hh1 ->%list_elem_of_singleton.
  by apply (proj1 (Forall_forall _ _) Hn).
Qed.

Lemma fifo_drop n hints : fifo hints → fifo (drop n hints).
Proof.
  intros Hf. revert n. induction Hf as [|h hints Hf IH Hall]; intros [|n]; simpl;
    try constructor; auto.
Qed.

Lemma fifo_filter (P : HintedWrite → Prop) `{∀ h, Decision (P h)} hints :
  fifo hints → fifo (filter P hints).
Proof.
  induction 1 as [|h hints Hf IH Hall]; [constructor|].
  rewrite filter_cons. case_decide; [|done].
  constructor; [done|]. apply Forall_forall. intros x [_ Hx]%list_elem_of_filter.
  by apply (proj1 (Forall_forall _ _) Hall).
Qed.

(** With a clock that does not run backwards, [storeHint] keeps every
    buffer in arrival order. *)
Lemma storeHint_fifo w c target key value vc t :
  t <= now w → hints_fifo t (Hints c) →
  hints_fifo (now w) (Hints (storeHint w c target key value vc)).
Proof.
  intros Ht Hf. unfold storeHint. simpl.
  assert (∀ hints, not_later t hints → not_later (now w) hints) as Hmono.
  { intros hints Hh. eapply Forall_impl; [exact Hh|]. intros h. simpl. lia. }
  apply map_Forall_insert_2.
  - assert (fifo (default [] (Hints c !! target))
            ∧ not_later t (default [] (Hints c !! target))) as [Hfi Hnl].
    { destruct (Hints c !! target) as [hints|] eqn:Hl; simpl.
      - by apply (Hf target hints).
      - split; constructor. }
    set (old := if decide (hintStorageLimit <= length (default [] (Hints c !! target)))%nat
                then drop 1 (default [] (Hints c !! target))
                else default [] (Hints c !! target)).
    assert (fifo old ∧ not_later t old) as [Hfo Hno].
    { unfold old. case_decide; [|done]. split; [by apply fifo_drop|by apply Forall_drop]. }
    split.
    + apply fifo_snoc; [done|]. simpl. by apply Hmono.
    + apply Forall_app. split; [by apply Hmono|]. repeat constructor. simpl. lia.
  - intros k hints Hk. destruct (Hf k hints Hk) as [H1 H2]. split; [done|by apply Hmono].
Qed.

(** [processHints] only takes hints away, in place. *)
Lemma processHints_target_bounded w hs e :
  hints_bounded hs → hints_bounded (processHints_target w hs e).
Proof.
  intros Hb. unfold processHints_target.
  destruct (hint_Key <$> filter _ e.2) as [|k ks]; [done|].
  destruct (hs !! e.1) as [orig|] eqn:Ho; [|done].
  destruct (filter _ orig) as [|h l] eqn:Hf; [by apply map_Forall_delete|].
  apply map_Forall_insert_2; [|done]. rewrite <- Hf.
  etrans; [apply length_filter|]. by apply (Hb e.1 orig).
Qed.

Lemma processHints_target_fifo w t hs e :
  hints_fifo t hs → hints_fifo t (processHints_target w hs e).
Proof.
  intros Hb. unfold processHints_target.
  destruct (hint_Key <$> filter _ e.2) as [|k ks]; [done|].
  destruct (hs !! e.1) as [orig|] eqn:Ho; [|done].
  destruct (filter _ orig) as [|h l] eqn:Hf; [by apply map_Forall_delete|].
  apply map_Forall_insert_2; [|done]. rewrite <- Hf.
  destruct (Hb e.1 orig Ho) as [H1 H2]. split.
  - by apply fifo_filter.
  - apply Forall_forall. intros x [_ Hx]%list_elem_of_filter.
    by apply (proj1 (Forall_forall _ _) H2).
Qed.

Lemma processHints_bounded w c :
  hints_bounded (Hints c) → hints_bounded (Hints (processHints w c)).
Proof.
  unfold processHints. simpl. generalize (filter (λ e, isNodeAvailable c e.1 = true)
    (walk w _ (Hints c))). intros l. generalize (Hints c).
  induction l as [|e l IH]; intros hs Hb; simpl; [done|].
  by apply IH, processHints_target_bounded.
Qed.

Lemma processHints_fifo w c t :
  hints_fifo t (Hints c) → hints_fifo t (Hints (processHints w c)).
Proof.
  unfold processHints. simpl. generalize (filter (λ e, isNodeAvailable c e.1 = true)
    (walk w _ (Hints c))). intros l. generalize (Hints c).
  induction l as [|e l IH]; intros hs Hb; simpl; [done|].
  by apply IH, processHints_target_fifo.
Qed.

Lemma remove_swapping_length key hints :
  (length (remove_swapping key hints) <= length hints)%nat.
Proof.
  unfold remove_swapping. destruct (list_find _ hints) as [[i h]|]; [|done].
  case_decide; [simpl; lia|]. case_decide.
  - destruct (last hints); [|done]. rewrite length_take, length_insert. lia.
  - rewrite length_take. lia.
Qed.

Lemma reconnect_step_bounded w nodeID hs hint :
  hints_bounded hs → hints_bounded (reconnect_step w nodeID hs hint).
Proof.
  intros Hb. unfold reconnect_step. destruct (existsb _ _); [|done].
  destruct (remove_swapping _ _) as [|y ys] eqn:Hr; [by apply map_Forall_delete|].
  apply map_Forall_insert_2; [|done]. rewrite <- Hr.
  etrans; [apply remove_swapping_length|].
  destruct (hs !! nodeID) as [hints|] eqn:Hh; simpl; [by apply (Hb nodeID hints)|].
  unfold hintStorageLimit. lia.
Qed.

(** [forceReconnectHints] keeps the bound as well. *)
Lemma forceReconnectHints_bounded w c nodeID :
  hints_bounded (Hints c) → hints_bounded (Hints (forceReconnectHints w c nodeID).1).
Proof.
  intros Hb. unfold forceReconnectHints.
  destruct (Hints c !! nodeID) as [[|h hintsCopy]|]; try done.
  cbn [fst set_Hints Hints].
  generalize (h :: hintsCopy). intros l. revert Hb. generalize (Hints c).
  induction l as [|x l IH]; intros hs Hb; simpl; [done|].
  by apply IH, reconnect_step_bounded.
Qed.

Lemma fifo_head hint hints x :
  fifo (hint :: hints) → x ∈ hints → hint_Timestamp hint <= hint_Timestamp x.
Proof.
  intros Hf Hx. apply StronglySorted_inv in Hf as [_ Hall].
  by apply (proj1 (Forall_forall _ _) Hall).
Qed.

(** C9 fails on [forceReconnectHints].  With three hints buffered in
    arrival order, the delivery of the first one moves the newest hint to
    the front.  With a full buffer of 1000, the same removal followed by two
    calls of [storeHint] evicts the hint of instant 1000 and keeps those of
    instants 2 to 999, which are older. *)
Theorem forceReconnectHints_breaks_fifo :
  timestamps (buffered (instants 3)) = [1; 2; 3] ∧
  fifo (buffer (buffered (instants 3)) "nodeC") ∧
  timestamps (reconnected (buffered (instants 3)) 4) = [3; 2] ∧
  ¬ fifo (buffer (reconnected (buffered (instants 3)) 4) "nodeC") ∧
  length (timestamps (buffered (instants 1000))) = 1000%nat ∧
  take 3 (timestamps (hint_at (reconnected (buffered (instants 1000)) 1001) 1002))
    = [1000; 2; 3] ∧
  length (timestamps (hint_at (reconnected (buffered (instants 1000)) 1001) 1002))
    = 1000%nat ∧
  take 3 (timestamps (hint_at (hint_at (reconnected (buffered (instants 1000)) 1001) 1002) 1003))
    = [2; 3; 4] ∧
  1000 ∉ timestamps (hint_at (hint_at (reconnected (buffered (instants 1000)) 1001) 1002) 1003).
Proof.
  assert (timestamps (reconnected (buffered (instants 3)) 4) = [3; 2]) as Hafter
    by (vm_compute; reflexivity).
  split; [vm_compute; reflexivity|]. split; [|split; [exact Hafter|split]].
  - assert (buffer (buffered (instants 3)) "nodeC"
            = [mkHint "k1" (Some (JNumber 1)) (VClock.Clone (Some clockA1)) "nodeC" 1 0;
               mkHint "k2" (Some (JNumber 2)) (VClock.Clone (Some clockA1)) "nodeC" 2 0;
               mkHint "k3" (Some (JNumber 3)) (VClock.Clone (Some clockA1)) "nodeC" 3 0]) as ->
      by (vm_compute; reflexivity).
    repeat (constructor; simpl; try lia).
  - intros Hf. unfold timestamps in Hafter.
    destruct (buffer (reconnected (buffered (instants 3)) 4) "nodeC") as [|a [|b [|? ?]]];
      try discriminate Hafter.
    injection Hafter as Ha Hb.
    pose proof (fifo_head a [b] b Hf ltac:(by left)). lia.
  - split; [vm_compute; reflexivity|]. split; [vm_compute; reflexivity|].
    split; [vm_compute; reflexivity|]. split; [vm_compute; reflexivity|].
    apply (bool_decide_unpack _). vm_compute. exact I.
Qed.

(** *** Further properties of the coordinator *)

(** X9. On two non-nil clocks [compareVectorClocks] and
    [VectorClock.Compare] agree: the verdict is "newer" exactly when
    [Compare] returns -1, a clock that [Compare] ranks above the other gets
    "older", and "concurrent" clocks compare as 0; a clock is "older"
    against itself.  They part on nil: [compareVectorClocks] calls a nil
    clock concurrent with any other, where [Compare] orders it below. *)
Theorem compareVectorClocks_agrees_with_Compare (a b : VClock.VectorClock) :
  (compareVectorClocks (Some a) (Some b) = "newer"
     ↔ VClock.Compare (Some a) (Some b) = -1) ∧
  (VClock.Compare (Some a) (Some b) = 1 → compareVectorClocks (Some a) (Some b) = "older") ∧
  (compareVectorClocks (Some a) (Some b) = "concurrent" → VClock.Compare (Some a) (Some b) = 0) ∧
  (compareVectorClocks (Some a) (Some b) = "older" → VClock.Compare (Some a) (Some b) ≠ -1) ∧
  compareVectorClocks (Some a) (Some a) = "older" ∧
  (compareVectorClocks None (Some b) = "concurrent" ∧ VClock.Compare None (Some b) = -1) ∧
  (compareVectorClocks (Some a) None = "concurrent" ∧ VClock.Compare (Some a) None = 1).
Proof.
  split; [|split; [|split; [|split; [|split; [|done]]]]].
  - by rewrite compareVectorClocks_newer, VClockFacts.Compare_m1_iff.
  - rewrite VClockFacts.Compare_1_iff, compareVectorClocks_older. tauto.
  - rewrite compareVectorClocks_flags. unfold VClock.Compare. cbv zeta.
    by destruct (VClock.compare_flags _ _) as [[] []].
  - rewrite compareVectorClocks_flags. unfold VClock.Compare. cbv zeta.
    by destruct (VClock.compare_flags _ _) as [[] []].
  - apply compareVectorClocks_older, VClockFacts.covers_refl.
Qed.

(** *** [gatherResponses] *)

Lemma gather_fold w c key nodes : ∀ acc nid sv,
  foldl (gather_step w c key) acc nodes !! nid = Some sv ↔
  (nid ∈ nodes ∧ retrieveValue w c nid key = sv ∧ Value sv ≠ None) ∨
  ((nid ∉ nodes ∨ Value (retrieveValue w c nid key) = None) ∧ acc !! nid = Some sv).
Proof.
  induction nodes as [|n nodes IH]; intros acc nid sv; simpl.
  - split; [intros H; right; split; [left; apply not_elem_of_nil|done]|].
    intros [[H _]|[_ H]]; [by apply elem_of_nil in H|done].
  - rewrite IH. rewrite elem_of_cons. unfold gather_step.
    destruct (decide (nid = n)) as [->|Hne].
    + destruct (Value (retrieveValue w c n key)) eqn:Hv.
      * rewrite lookup_insert_eq.
        split.
        -- intros [H|[_ [= <-]]]; [tauto|]. left. rewrite Hv. auto.
        -- intros [([_|Hin] & <- & Hsv)|[[Hn|?] _]]; [ | | |done].
           ++ destruct (decide (n ∈ nodes)); [left; auto|right; auto].
           ++ left; auto.
           ++ exfalso. apply Hn. by left.
      * intuition (try (subst; congruence)).
    + destruct (Value (retrieveValue w c n key)) eqn:Hv.
      * rewrite lookup_insert_ne by done. intuition (try (subst; congruence)).
      * intuition (try (subst; congruence)).
Qed.

Lemma gatherResponses_lookup w c nodes key nid sv :
  gatherResponses w c nodes key !! nid = Some sv ↔
  nid ∈ nodes ∧ retrieveValue w c nid key = sv ∧ Value sv ≠ None.
Proof.
  unfold gatherResponses. rewrite gather_fold, lookup_empty.
  split; [intros [?|[_ ?]]; done|by left].
Qed.

(** X11. [gatherResponses] maps a node to a value exactly when the node
    is on the list it was given and [retrieveValue] returned a non-nil value
    for it, that value being the entry; a node listed twice counts once, so
    the map is never larger than the list. *)
Theorem gatherResponses_spec (w : World) (c : Coordinator) (nodes : list string)
    (key : string) :
  (∀ nid sv, gatherResponses w c nodes key !! nid = Some sv ↔
             nid ∈ nodes ∧ retrieveValue w c nid key = sv ∧ Value sv ≠ None) ∧
  (size (gatherResponses w c nodes key) <= length nodes)%nat.
Proof.
  assert (∀ nid sv, gatherResponses w c nodes key !! nid = Some sv ↔
             nid ∈ nodes ∧ retrieveValue w c nid key = sv ∧ Value sv ≠ None) as Hspec.
  { intros nid sv. apply gatherResponses_lookup. }
  split; [done|].
  unfold gatherResponses. clear Hspec.
  assert (∀ acc, (size (foldl (gather_step w c key) acc nodes) <= size acc + length nodes)%nat)
    as Hgen.
  { induction nodes as [|n nodes IH]; intros acc; simpl; [lia|].
    etrans; [apply IH|]. unfold gather_step.
    destruct (Value (retrieveValue w c n key)); [|lia].
    destruct (acc !! n) eqn:Hn.
    - rewrite map_size_insert_Some by done. lia.
    - rewrite map_size_insert_None by done. lia. }
  specialize (Hgen ∅). by rewrite map_size_empty in Hgen.
Qed.

(** *** [resolveConflicts] *)

Lemma compareVectorClocks_values a b :
  compareVectorClocks a b = "concurrent" ∨ compareVectorClocks a b = "newer" ∨
  compareVectorClocks a b = "older".
Proof.
  destruct a as [a|], b as [b|]; try by left.
  rewrite compareVectorClocks_flags. cbv zeta.
  destruct (VClock.compare_flags _ _) as [[] []]; simpl; auto.
Qed.

Lemma mergeConflicts_clock w a b :
  clock_of_value (mergeConflicts w a b)
  = VClock.vc_max (clock_of_value a) (clock_of_value b).
Proof.
  unfold clock_of_value, mergeConflicts. simpl.
  rewrite VClockFacts.Merge_vc_max. by destruct (VectorClock a).
Qed.

Lemma resolve_step_inv w st e :
  Value st.1 ≠ None → Value e.2 ≠ None →
  Value (resolve_step w st e).1 ≠ None ∧
  VClock.covers (clock_of_value (resolve_step w st e).1) (clock_of_value st.1) ∧
  VClock.covers (clock_of_value (resolve_step w st e).1) (clock_of_value e.2) ∧
  (Value (resolve_step w st e).1 = Value st.1 ∨ Value (resolve_step w st e).1 = Value e.2) ∧
  (VectorClock st.1 ≠ None → VectorClock e.2 ≠ None →
   VectorClock (resolve_step w st e).1 ≠ None).
Proof.
  intros Hst He. unfold resolve_step.
  destruct (Value st.1) as [v|] eqn:Hv; [|done].
  destruct (decide (compareVectorClocks _ _ = "concurrent")) as [Hc|Hnc].
  - cbn [fst]. split; [by rewrite <- Hv in Hst|].
    rewrite mergeConflicts_clock.
    split; [apply VClockFacts.covers_vc_max_l|]. split; [apply VClockFacts.covers_vc_max_r|].
    split; [by left|done].
  - destruct (VectorClock st.1) as [a|] eqn:Ha; [|done].
    destruct (VectorClock e.2) as [b|] eqn:Hb; [|by destruct Hnc].
    destruct (decide (compareVectorClocks _ _ = "newer")) as [Hn|Hnn].
    + cbn [fst]. split; [done|]. unfold clock_of_value. rewrite Ha, Hb. simpl.
      apply compareVectorClocks_newer in Hn as [_ Hcov].
      split; [done|]. split; [apply VClockFacts.covers_refl|]. split; [by right|done].
    + rewrite Hv. split; [done|]. unfold clock_of_value. rewrite Ha, Hb. simpl.
      split; [apply VClockFacts.covers_refl|]. split; [|split; [by left|done]].
      apply compareVectorClocks_older.
      by destruct (compareVectorClocks_values (Some a) (Some b)) as [?|[?|?]].
Qed.

Lemma resolve_fold_inv w l : ∀ st,
  Forall (λ e, Value e.2 ≠ None) l → Value st.1 ≠ None →
  Value (foldl (resolve_step w) st l).1 ≠ None ∧
  VClock.covers (clock_of_value (foldl (resolve_step w) st l).1) (clock_of_value st.1) ∧
  (∀ e, e ∈ l → VClock.covers (clock_of_value (foldl (resolve_step w) st l).1)
                              (clock_of_value e.2)) ∧
  (Value (foldl (resolve_step w) st l).1 = Value st.1 ∨
   ∃ e, e ∈ l ∧ Value (foldl (resolve_step w) st l).1 = Value e.2) ∧
  (VectorClock st.1 ≠ None → Forall (λ e, VectorClock e.2 ≠ None) l →
   VectorClock (foldl (resolve_step w) st l).1 ≠ None).
Proof.
  induction l as [|e l IH]; intros st Hl Hst.
  - simpl. split; [done|]. split; [apply VClockFacts.covers_refl|].
    split; [by intros e ?%elem_of_nil|]. split; [by left|done].
  - apply Forall_cons in Hl as [He Hl]. simpl.
    destruct (resolve_step_inv w st e Hst He) as (Hv & Hc1 & Hc2 & Hval & Hvc).
    destruct (IH (resolve_step w st e) Hl Hv) as (Hv' & Hc' & Hall & Hval' & Hvc').
    split; [done|]. split; [by eapply VClockFacts.covers_trans|]. split; [|split].
    + intros e' [->|Hin]%elem_of_cons; [by eapply VClockFacts.covers_trans|by apply Hall].
    + destruct Hval' as [->|(e' & Hin & ->)].
      * destruct Hval as [-> | ->]; [by left|]. right. exists e. split; [by left|done].
      * right. exists e'. split; [by right|done].
    + intros Hs [He' Hl']%Forall_cons. apply Hvc'; [by apply Hvc|done].
Qed.

(** [resolveConflicts] on replies that all carry a value. *)
Lemma resolveConflicts_inv w (responses : gmap string storedValue) :
  walk_ok w →
  (∀ nid sv, responses !! nid = Some sv → Value sv ≠ None) →
  (responses = ∅ ∧ resolveConflicts w responses = (emptyStoredValue, 0)) ∨
  (Value (resolveConflicts w responses).1 ≠ None ∧
   (∃ nid sv, responses !! nid = Some sv ∧
              Value (resolveConflicts w responses).1 = Value sv) ∧
   (∀ nid sv, responses !! nid = Some sv →
      VClock.covers (clock_of_value (resolveConflicts w responses).1) (clock_of_value sv)) ∧
   ((∀ nid sv, responses !! nid = Some sv → VectorClock sv ≠ None) →
    VectorClock (resolveConflicts w responses).1 ≠ None)).
Proof.
  intros Hw Hval. unfold resolveConflicts.
  assert (∀ e, e ∈ walk w _ responses ↔ responses !! e.1 = Some e.2) as Hel.
  { intros [k x]. by apply walk_elem. }
  destruct (walk w _ responses) as [|e l] eqn:Hwalk.
  - left. split; [|done]. apply map_empty. intros k.
    destruct (responses !! k) as [x|] eqn:Hk; [|done].
    apply (Hel (k, x)) in Hk. by apply elem_of_nil in Hk.
  - right. simpl.
    assert (resolve_step w (emptyStoredValue, 0) e = (e.2, 0)) as -> by done.
    assert (Forall (λ e, Value e.2 ≠ None) (e :: l)) as Hall.
    { apply Forall_forall. intros [k x] Hin. apply Hel in Hin. by eapply Hval. }
    apply Forall_cons in Hall as [He Hl].
    destruct (resolve_fold_inv w l (e.2, 0) Hl He) as (Hv & Hc & Hcl & Hfrom & Hvc).
    split; [done|]. split; [|split].
    + destruct Hfrom as [->|(e' & Hin & ->)].
      * exists e.1, e.2. split; [|done]. apply Hel. by left.
      * exists e'.1, e'.2. split; [|done]. apply Hel. by right.
    + intros nid sv Hin. apply (Hel (nid, sv)) in Hin.
      apply elem_of_cons in Hin as [<-|Hin]; [done|]. by apply (Hcl (nid, sv)).
    + intros Hsome. apply Hvc.
      * apply (Hsome e.1). apply Hel. by left.
      * apply Forall_forall. intros [k x] Hin. apply (Hsome k). apply (Hel (k, x)). by right.
Qed.

(** X12. On a non-empty map of replies that all carry a value,
    [resolveConflicts] returns a value that is non-nil and is the value of
    one of the replies, with a clock that covers the clock of every reply
    (each entry present with a count at least as large), so that
    [compareVectorClocks] never finds a reply newer than the result. *)
Theorem resolveConflicts_latest (w : World) (replies : gmap string storedValue) :
  walk_ok w →
  (∀ nid sv, replies !! nid = Some sv → Value sv ≠ None) →
  replies ≠ ∅ →
  Value (resolveConflicts w replies).1 ≠ None ∧
  (∃ nid sv, replies !! nid = Some sv ∧ Value (resolveConflicts w replies).1 = Value sv) ∧
  (∀ nid sv, replies !! nid = Some sv →
     VClock.covers (clock_of_value (resolveConflicts w replies).1) (clock_of_value sv) ∧
     compareVectorClocks (VectorClock (resolveConflicts w replies).1) (VectorClock sv)
       ≠ "newer").
Proof.
  intros Hw Hval Hne.
  destruct (resolveConflicts_inv w replies Hw Hval) as [[? _]|(Hv & Hfrom & Hcov & _)]; [done|].
  split; [done|]. split; [done|]. intros nid sv Hin. split; [by eapply Hcov|].
  specialize (Hcov nid sv Hin). unfold clock_of_value in Hcov.
  destruct (VectorClock (resolveConflicts w replies).1) as [a|]; [|done].
  destruct (VectorClock sv) as [b|]; [|done]. simpl in Hcov.
  apply compareVectorClocks_older in Hcov. by rewrite Hcov.
Qed.

Lemma resolveConflicts_latest_witness :
  Value (resolveConflicts silent_world {["nodeB" := hello_value]}).1 ≠ None ∧
  (∃ nid sv, ({["nodeB" := hello_value]} : gmap string storedValue) !! nid = Some sv ∧
     Value (resolveConflicts silent_world {["nodeB" := hello_value]}).1 = Value sv) ∧
  (∀ nid sv, ({["nodeB" := hello_value]} : gmap string storedValue) !! nid = Some sv →
     VClock.covers (clock_of_value (resolveConflicts silent_world {["nodeB" := hello_value]}).1)
                   (clock_of_value sv) ∧
     compareVectorClocks (VectorClock (resolveConflicts silent_world {["nodeB" := hello_value]}).1)
                         (VectorClock sv) ≠ "newer").
Proof.
  apply (resolveConflicts_latest silent_world {["nodeB" := hello_value]}).
  - exact silent_world_walk_ok.
  - intros nid sv [_ <-]%lookup_singleton_Some. done.
  - apply map_non_empty_singleton.
Defined.

(** *** [Get] at the quorum *)

Lemma parseStoredValue_clock w data :
  Value (parseStoredValue w data) ≠ None → VectorClock (parseStoredValue w data) ≠ None.
Proof. unfold parseStoredValue. by destruct (wire_value data). Qed.

Lemma remoteGet_attempts_clock w attempts nodeID key :
  Value (remoteGet_attempts w attempts nodeID key) ≠ None →
  VectorClock (remoteGet_attempts w attempts nodeID key) ≠ None.
Proof.
  induction attempts as [|i rest IH]; simpl; [done|].
  destruct (Value (remoteGet w i nodeID key)) eqn:Hv; [|done].
  intros _. unfold remoteGet in *. destruct (remoteGet_reply w i nodeID key); [|done].
  apply parseStoredValue_clock. by rewrite Hv.
Qed.

Lemma localGet_clock w c key :
  (∀ sv, Storage c !! key = Some sv → VectorClock sv ≠ None) →
  Value (localGet w c key) ≠ None → VectorClock (localGet w c key) ≠ None.
Proof.
  intros Hst. unfold localGet, localGet_hints.
  destruct (Storage c !! key) as [sv|] eqn:Hs.
  - destruct (Value sv); [intros _; by apply Hst|].
    by destruct (scan_hints _ _).
  - by destruct (scan_hints _ _).
Qed.

Lemma retrieveValue_clock w c nid key :
  (∀ sv, Storage c !! key = Some sv → VectorClock sv ≠ None) →
  Value (retrieveValue w c nid key) ≠ None → VectorClock (retrieveValue w c nid key) ≠ None.
Proof.
  intros Hst. unfold retrieveValue. case_decide.
  - by apply localGet_clock.
  - apply remoteGet_attempts_clock.
Qed.

(** X13. When at least [R] replicas answered ([R] positive) and the
    locally stored version has a clock, [Get] returns a result, not an
    error: its value is non-nil and is the value of one of the replies, and
    its vector clock covers the clock of every reply. *)
Theorem Get_at_read_quorum (w : World) (c : Coordinator) (key : string) :
  walk_ok w →
  0 < ReadQuorum c →
  ReadQuorum c <= Z.of_nat (size (responses w c key)) →
  (∀ sv, Storage c !! key = Some sv → VectorClock sv ≠ None) →
  ∃ result,
    (Get w c key).1 = GetOk result ∧
    res_value result ≠ None ∧
    (∃ nid sv, responses w c key !! nid = Some sv ∧ res_value result = Value sv) ∧
    (∀ nid sv, responses w c key !! nid = Some sv →
       VClock.covers (res_vector_clock result) (clock_of_value sv)).
Proof.
  intros Hw HR Hq Hst.
  assert (∀ nid sv, responses w c key !! nid = Some sv →
            Value sv ≠ None ∧ VectorClock sv ≠ None) as Hresp.
  { intros nid sv Hin. apply gatherResponses_lookup in Hin as (_ & <- & Hv).
    split; [done|]. by apply retrieveValue_clock. }
  destruct (resolveConflicts_inv w (responses w c key) Hw) as [[He _]|(Hv & Hfrom & Hcov & Hvc)].
  { intros nid sv Hin. by apply (Hresp nid sv). }
  { rewrite He, map_size_empty in Hq. simpl in Hq. lia. }
  specialize (Hvc ltac:(intros nid sv Hin; by apply (Hresp nid sv))).
  fold (reconciled w c key) in *.
  destruct (VectorClock (reconciled w c key)) as [vc|] eqn:Hclock; [|done].
  eexists. split.
  - unfold Get. cbv zeta. fold (responses w c key).
    apply Z.ltb_ge in Hq. rewrite Hq.
    unfold formatResult. fold (reconciled w c key). by rewrite Hclock.
  - cbn [res_value res_vector_clock]. split; [done|]. split; [done|].
    intros nid sv Hin. specialize (Hcov nid sv Hin).
    unfold clock_of_value in Hcov at 1. by rewrite Hclock in Hcov.
Qed.

Lemma replicas_answer_world_walk_ok : walk_ok replicas_answer_world.
Proof. intros A m. reflexivity. Qed.

Lemma Get_at_read_quorum_witness :
  ∃ result,
    (Get replicas_answer_world nodeA_of_three "mykey").1 = GetOk result ∧
    res_value result ≠ None ∧
    (∃ nid sv, responses replicas_answer_world nodeA_of_three "mykey" !! nid = Some sv ∧
               res_value result = Value sv) ∧
    (∀ nid sv, responses replicas_answer_world nodeA_of_three "mykey" !! nid = Some sv →
       VClock.covers (res_vector_clock result) (clock_of_value sv)).
Proof.
  apply (Get_at_read_quorum replicas_answer_world nodeA_of_three "mykey").
  - exact replicas_answer_world_walk_ok.
  - reflexivity.
  - unfold nodeA_of_three.
    rewrite (proj1 (proj2 (three_nodes_read ringABC ringABC_nodes))). simpl. lia.
  - intros sv Hsv. discriminate Hsv.
Defined.

(** X14. [GetHandler] never answers 404 "Key not found": a reply of
    [Get] always carries a non-nil value.  For a key that no replica of the
    preference list and no local hint holds, the answer is 500 with the
    read-quorum message. *)
Theorem GetHandler_never_not_found (w : World) (c : Coordinator) (key : string) :
  walk_ok w →
  GetHandler w c key ≠ GetResponse404 ∧
  (0 < ReadQuorum c →
   (∀ nid, nid ∈ (getResponsibleNodes w c key true).1 →
           Value (retrieveValue w c nid key) = None) →
   Value (localGet w c key) = None →
   GetHandler w c key = GetResponse500 "insufficient replicas for read quorum").
Proof.
  intros Hw. split.
  - unfold GetHandler, Get. cbv zeta.
    fold (responses w c key).
    destruct (Z.of_nat (size (responses w c key)) <? ReadQuorum c) eqn:Hq.
    + destruct (Value (localGet w c key)) as [v|] eqn:Hv.
      * unfold formatResult. destruct (VectorClock (localGet w c key)); cbn;
          rewrite ?Hv; done.
      * cbn. rewrite ?Hv. done.
    + destruct (resolveConflicts_inv w (responses w c key) Hw)
        as [[_ He]|(Hv & _)].
      { intros nid sv Hin. by apply gatherResponses_lookup in Hin as (_ & <- & Hv). }
      * rewrite He. cbn. done.
      * unfold formatResult.
        destruct (VectorClock (resolveConflicts w (responses w c key)).1); cbn; [|done].
        by destruct (Value (resolveConflicts w (responses w c key)).1).
  - intros HR Hnone Hlocal.
    assert (responses w c key = ∅) as He.
    { apply map_empty. intros nid.
      destruct (responses w c key !! nid) as [sv|] eqn:Hin; [|done].
      apply gatherResponses_lookup in Hin as (Hn & <- & Hv). by rewrite Hnone in Hv. }
    unfold GetHandler, Get. cbv zeta. fold (responses w c key).
    rewrite He, map_size_empty.
    assert ((Z.of_nat 0 <? ReadQuorum c) = true) as -> by (apply Z.ltb_lt; simpl; lia).
    rewrite ?Hlocal. cbn. rewrite ?Hlocal. done.
Qed.

Lemma GetHandler_never_not_found_witness :
  GetHandler silent_world nodeA_alone "nokey" ≠ GetResponse404 ∧
  (0 < ReadQuorum nodeA_alone →
   (∀ nid, nid ∈ (getResponsibleNodes silent_world nodeA_alone "nokey" true).1 →
           Value (retrieveValue silent_world nodeA_alone nid "nokey") = None) →
   Value (localGet silent_world nodeA_alone "nokey") = None →
   GetHandler silent_world nodeA_alone "nokey"
   = GetResponse500 "insufficient replicas for read quorum").
Proof.
  apply (GetHandler_never_not_found silent_world nodeA_alone "nokey").
  exact silent_world_walk_ok.
Defined.

(** *** The coordinator's own writes *)

Lemma Clone_Some vc : VClock.Clone (Some vc) = vc.
Proof. by destruct vc. Qed.

Lemma updateLocalVectorClock_newer c key existing evc :
  Storage c !! key = Some existing → VectorClock existing = Some evc →
  - 2 ^ 63 <= default 0 (VClock.Clock evc !! NodeID c) < 2 ^ 63 - 1 →
  updateLocalVectorClock c key = VClock.Increment evc (NodeID c) ∧
  compareVectorClocks (Some evc) (Some (updateLocalVectorClock c key)) = "newer".
Proof.
  intros Hs Hvc Hr.
  assert (updateLocalVectorClock c key = VClock.Increment evc (NodeID c)) as Heq.
  { unfold updateLocalVectorClock. by rewrite Hs, Hvc, Clone_Some. }
  split; [done|]. rewrite Heq. apply compareVectorClocks_newer.
  by apply VClockFacts.Compare_1_iff, VClockFacts.Increment_Compare.
Qed.

(** [localPut] with the clock [Put] has just derived from the local store. *)
Lemma localPut_own w c key value :
  (∀ sv, Storage c !! key = Some sv →
     ∃ evc, VectorClock sv = Some evc ∧
            - 2 ^ 63 <= default 0 (VClock.Clock evc !! NodeID c) < 2 ^ 63 - 1) →
  localPut w c key value (updateLocalVectorClock c key)
  = Storage_Put w c key
      (mkStored value (Some (updateLocalVectorClock c key)) [] (now w)).
Proof.
  intros Hst. unfold localPut. cbv zeta. rewrite Clone_Some.
  destruct (Storage c !! key) as [existing|] eqn:Hs; [|done].
  destruct (Hst existing eq_refl) as (evc & Hvc & Hr).
  destruct (updateLocalVectorClock_newer c key existing evc Hs Hvc Hr) as [_ Hn].
  rewrite Hvc, Hn. by rewrite decide_False, decide_False.
Qed.

(** X15. The clock [updateLocalVectorClock] derives for a stored key is
    the stored clock incremented at the coordinator, which
    [compareVectorClocks] judges "newer" than the stored one (short of integer
    overflow); so [localPut] with it replaces the stored version, without
    keeping it as a sibling, or reports failure and changes nothing when the
    store refuses the write. *)
Theorem localPut_own_write_supersedes (w : World) (c : Coordinator) (key : string)
    (value : option json) (existing : storedValue) (evc : VClock.VectorClock) :
  Storage c !! key = Some existing →
  VectorClock existing = Some evc →
  - 2 ^ 63 <= default 0 (VClock.Clock evc !! NodeID c) < 2 ^ 63 - 1 →
  updateLocalVectorClock c key = VClock.Increment evc (NodeID c) ∧
  compareVectorClocks (Some evc) (Some (updateLocalVectorClock c key)) = "newer" ∧
  localPut w c key value (updateLocalVectorClock c key)
  = if storage_put_ok w key
    then (true, set_Storage (<[key := mkStored value (Some (VClock.Increment evc (NodeID c)))
                                               [] (now w)]>) c)
    else (false, c).
Proof.
  intros Hs Hvc Hr.
  destruct (updateLocalVectorClock_newer c key existing evc Hs Hvc Hr) as [Heq Hn].
  split; [done|]. split; [done|].
  rewrite localPut_own.
  - by rewrite Heq.
  - intros sv Hsv. exists evc. by simplify_eq.
Qed.

Lemma localPut_own_write_supersedes_witness :
  updateLocalVectorClock nodeA_state "ck" = VClock.Increment clockA1 (NodeID nodeA_state) ∧
  compareVectorClocks (Some clockA1) (Some (updateLocalVectorClock nodeA_state "ck")) = "newer" ∧
  localPut silent_world nodeA_state "ck" (Some (JString "v2"))
           (updateLocalVectorClock nodeA_state "ck")
  = if storage_put_ok silent_world "ck"
    then (true, set_Storage (<["ck" := mkStored (Some (JString "v2"))
                                  (Some (VClock.Increment clockA1 (NodeID nodeA_state)))
                                  [] (now silent_world)]>) nodeA_state)
    else (false, nodeA_state).
Proof.
  apply (localPut_own_write_supersedes silent_world nodeA_state "ck"
           (Some (JString "v2")) stored_v1 clockA1).
  - reflexivity.
  - reflexivity.
  - by vm_compute.
Defined.

(** *** The preference list *)

Lemma getResponsibleNodes_eq w c key sloppy :
  getResponsibleNodes w c key sloppy = determineResponsibleNodes w c key sloppy.
Proof.
  unfold getResponsibleNodes, maxRetryAttempts. simpl.
  repeat case_decide; done.
Qed.

Lemma walk_singleton (w : World) {A} (k : string) (x : A) :
  walk_ok w → walk w A {[k := x]} = [(k, x)].
Proof.
  intros Hw. apply Permutation_singleton_r. by rewrite (Hw A), map_to_list_singleton.
Qed.

Lemma walk_empty (w : World) {A} : walk_ok w → walk w A ∅ = [].
Proof. intros Hw. apply Permutation_nil_r. by rewrite (Hw A), map_to_list_empty. Qed.

Lemma isNodeAvailable_self c : isNodeAvailable c (NodeID c) = true.
Proof. unfold isNodeAvailable. by rewrite decide_True. Qed.

Lemma determineResponsibleNodes_single w c key sloppy :
  walk_ok w → Ring.nodes (Ring c) = {[NodeID c := true]} → 0 < Replication c →
  determineResponsibleNodes w c key sloppy = ([NodeID c], ∅).
Proof.
  intros Hw Hn HN. unfold determineResponsibleNodes, getAllNodeIDs. cbv zeta.
  rewrite Hn, walk_singleton by done. cbn [fmap list_fmap fst length].
  assert (Z.to_nat (Z.min (Replication c) (Z.of_nat 1)) = 1%nat) as -> by lia.
  assert (primary_index [NodeID c] (Ring.GetNode (Ring c) key) = 0%nat) as ->.
  { pose proof (primary_index_lt [NodeID c] (Ring.GetNode (Ring c) key) ltac:(done)) as H.
    simpl in H. lia. }
  cbn [seq foldl]. unfold responsible_step.
  cbn -[isNodeAvailable find_replacement].
  rewrite isNodeAvailable_self. by rewrite andb_false_r.
Qed.

(** X18. Read-your-writes on a single-node cluster ([N] positive, [R]
    and [W] at most 1, the store accepting the write): [Put] of a non-nil
    value returns nil, the store then holds the value under the clock of
    [updateLocalVectorClock] with no siblings, and a [Get] of the key right
    after returns that value and clock with no conflicts. *)
Theorem Put_then_Get_single_node (w : World) (c : Coordinator) (key : string) (v : json) :
  walk_ok w →
  Ring.nodes (Ring c) = {[NodeID c := true]} →
  0 < Replication c → WriteQuorum c <= 1 → ReadQuorum c <= 1 →
  storage_put_ok w key = true →
  (∀ sv, Storage c !! key = Some sv →
     ∃ evc, VectorClock sv = Some evc ∧
            - 2 ^ 63 <= default 0 (VClock.Clock evc !! NodeID c) < 2 ^ 63 - 1) →
  (Put w c key (Some v)).1 = None ∧
  Storage (Put w c key (Some v)).2
  = <[key := mkStored (Some v) (Some (updateLocalVectorClock c key)) [] (now w)]> (Storage c) ∧
  (Get w (Put w c key (Some v)).2 key).1
  = GetOk (mkGetResult (Some v) (VClock.Clock (updateLocalVectorClock c key)) None).
Proof.
  intros Hw Hn HN HW HR Hok Hst.
  set (nv := mkStored (Some v) (Some (updateLocalVectorClock c key)) [] (now w)).
  assert (Put w c key (Some v) = (None, set_Storage (<[key := nv]>) c)) as HPut.
  { unfold Put. cbv zeta.
    rewrite getResponsibleNodes_eq, determineResponsibleNodes_single by done.
    cbn [fst snd]. unfold replicateWrite. cbn [foldl]. unfold replicate_step.
    cbn [fst snd]. unfold writeToNode. rewrite decide_True by done.
    rewrite localPut_own by done. unfold Storage_Put. rewrite Hok. cbn [fst snd app length].
    assert ((Z.of_nat 1 <? WriteQuorum c) = false) as -> by (apply Z.ltb_ge; lia).
    unfold processSloppyReplacements. by rewrite walk_empty. }
  rewrite HPut. cbn [fst snd]. split; [done|]. split; [done|].
  set (c' := set_Storage (<[key := nv]>) c).
  unfold Get. cbv zeta.
  rewrite getResponsibleNodes_eq, (determineResponsibleNodes_single w c') by done.
  cbn [fst]. unfold gatherResponses. cbn [foldl]. unfold gather_step, retrieveValue.
  rewrite decide_True by done.
  assert (localGet w c' key = nv) as ->.
  { apply (localGet_stored w c' key nv v); [|done]. apply lookup_insert_eq. }
  change (Value nv) with (Some v). cbv iota beta.
  rewrite insert_empty, map_size_singleton.
  assert ((Z.of_nat 1 <? ReadQuorum c') = false) as -> by (apply Z.ltb_ge; simpl; lia).
  unfold resolveConflicts. rewrite walk_singleton by done.
  done.
Qed.

Lemma Put_then_Get_single_node_witness :
  (Put silent_world nodeA_single "ck" (Some (JString "v2"))).1 = None ∧
  Storage (Put silent_world nodeA_single "ck" (Some (JString "v2"))).2
  = <["ck" := mkStored (Some (JString "v2")) (Some (updateLocalVectorClock nodeA_single "ck"))
                       [] (now silent_world)]> (Storage nodeA_single) ∧
  (Get silent_world (Put silent_world nodeA_single "ck" (Some (JString "v2"))).2 "ck").1
  = GetOk (mkGetResult (Some (JString "v2"))
             (VClock.Clock (updateLocalVectorClock nodeA_single "ck")) None).
Proof.
  apply (Put_then_Get_single_node silent_world nodeA_single "ck" (JString "v2")).
  - exact silent_world_walk_ok.
  - exact RingFacts.ringA_nodes.
  - reflexivity.
  - reflexivity.
  - reflexivity.
  - reflexivity.
  - intros sv Hsv. exists clockA1.
    change (({["ck" := stored_v1]} : gmap string storedValue) !! "ck" = Some sv) in Hsv.
    rewrite lookup_singleton_eq in Hsv. injection Hsv as <-.
    split; [reflexivity|]. change (NodeID nodeA_single) with "nodeA". by vm_compute.
Defined.

(** *** The preference list in general *)

Lemma lookup_total_elem (l : list string) (i : nat) :
  (i < length l)%nat → l !!! i ∈ l.
Proof. intros Hi. eapply list_elem_of_lookup_2, list_lookup_lookup_total_lt, Hi. Qed.

Lemma rem_index_lt (x : Z) (n : nat) : (0 < n)%nat → (Z.to_nat (Z.rem x (Z.of_nat n)) < n)%nat.
Proof.
  intros Hn. destruct (decide (0 <= x)) as [Hx|Hx].
  - pose proof (Z.rem_bound_pos x (Z.of_nat n) Hx ltac:(lia)). lia.
  - pose proof (Z.rem_nonpos x (Z.of_nat n) ltac:(lia) ltac:(lia)). lia.
Qed.

Lemma find_replacement_Some c allNodes nodes primaryIndex js candidate :
  allNodes ≠ [] →
  find_replacement c allNodes nodes primaryIndex js = Some candidate →
  candidate ∈ allNodes ∧ isNodeAvailable c candidate = true ∧ candidate ∉ nodes.
Proof.
  intros Hne. induction js as [|j rest IH]; simpl; [done|].
  destruct (isNodeAvailable c _ && negb (contains nodes _)) eqn:Hc; [|done].
  intros [= <-]. apply andb_true_iff in Hc as [Ha Hn].
  split; [|split; [done|]].
  - apply lookup_total_elem, rem_index_lt. destruct allNodes; [done|simpl; lia].
  - apply negb_true_iff in Hn. unfold contains in Hn. by apply bool_decide_eq_false in Hn.
Qed.

Lemma responsible_step_spec c sloppy allNodes primaryIndex st i :
  allNodes ≠ [] →
  ∃ x, (responsible_step c sloppy allNodes primaryIndex st i).1 = st.1 ++ [x] ∧
       x ∈ allNodes ∧
       (∀ o s, (responsible_step c sloppy allNodes primaryIndex st i).2 !! o = Some s →
          st.2 !! o = Some s ∨
          (sloppy = true ∧ o ∈ allNodes ∧ isNodeAvailable c o = false ∧
           isNodeAvailable c s = true ∧ s = x)) ∧
       (sloppy = false →
          x = allNodes !!! ((primaryIndex + i) mod length allNodes)%nat ∧
          (responsible_step c sloppy allNodes primaryIndex st i).2 = st.2).
Proof.
  intros Hne. unfold responsible_step. cbv zeta.
  assert (0 < length allNodes)%nat as Hlen by (destruct allNodes; [done|simpl; lia]).
  set (nodeID := allNodes !!! ((primaryIndex + i) mod length allNodes)%nat).
  assert (nodeID ∈ allNodes) as Hin.
  { apply lookup_total_elem, Nat.mod_upper_bound. lia. }
  destruct sloppy; simpl.
  - destruct (isNodeAvailable c nodeID) eqn:Hav; simpl.
    + exists nodeID. split; [done|]. split; [done|]. split; [auto|done].
    + destruct (find_replacement _ _ _ _ _) as [candidate|] eqn:Hf; simpl.
      * apply find_replacement_Some in Hf as (Hc & Hca & _); [|done].
        exists candidate. split; [done|]. split; [done|]. split; [|done].
        intros o s. destruct (decide (o = nodeID)) as [->|Ho].
        -- rewrite lookup_insert_eq. intros [= <-]. right. done.
        -- rewrite lookup_insert_ne by done. auto.
      * exists nodeID. split; [done|]. split; [done|]. split; [auto|done].
  - exists nodeID. split; [done|]. split; [done|]. split; [auto|done].
Qed.

Lemma responsible_fold_spec c sloppy allNodes primaryIndex idxs : ∀ st,
  allNodes ≠ [] →
  let r := foldl (responsible_step c sloppy allNodes primaryIndex) st idxs in
  (∃ xs, r.1 = st.1 ++ xs ∧ length xs = length idxs ∧ (∀ x, x ∈ xs → x ∈ allNodes) ∧
         (sloppy = false →
            xs = (λ i, allNodes !!! ((primaryIndex + i) mod length allNodes)%nat) <$> idxs)) ∧
  (∀ o s, r.2 !! o = Some s →
      st.2 !! o = Some s ∨
      (sloppy = true ∧ o ∈ allNodes ∧ isNodeAvailable c o = false ∧
       isNodeAvailable c s = true ∧ s ∈ r.1)) ∧
  (sloppy = false → r.2 = st.2).
Proof.
  induction idxs as [|i idxs IH]; intros st Hne; cbv zeta.
  - simpl. split; [|split; [auto|done]].
    exists []. rewrite app_nil_r. split; [done|]. split; [done|].
    split; [by intros x ?%elem_of_nil|done].
  - simpl foldl.
    destruct (responsible_step_spec c sloppy allNodes primaryIndex st i Hne)
      as (x & Hx1 & Hxin & Hmap & Hns).
    destruct (IH (responsible_step c sloppy allNodes primaryIndex st i) Hne)
      as ((xs & Hxs & Hlen & Hall & Hns') & Hmap' & Hns'').
    split; [|split].
    + exists (x :: xs). rewrite Hxs, Hx1, <- app_assoc. split; [done|].
      split; [simpl; lia|]. split.
      * intros y [->|Hy]%elem_of_cons; [done|by apply Hall].
      * intros Hs. rewrite (Hns' Hs). destruct (Hns Hs) as [-> _]. done.
    + intros o s Hos. destruct (Hmap' o s Hos) as [Hprev|Hnew]; [|by right].
      destruct (Hmap o s Hprev) as [?|(? & ? & ? & ? & ->)]; [by left|right].
      split; [done|]. split; [done|]. split; [done|]. split; [done|].
      rewrite Hxs, Hx1. apply elem_of_app. left. apply elem_of_app. right. by left.
    + intros Hs. rewrite (Hns'' Hs). by destruct (Hns Hs) as [_ ->].
Qed.

Lemma mod_shift_inj (p i j n : nat) :
  (i < n)%nat → (j < n)%nat → ((p + i) mod n = (p + j) mod n)%nat → i = j.
Proof.
  intros Hi Hj Heq.
  pose proof (Nat.div_mod_eq (p + i) n) as H1.
  pose proof (Nat.div_mod_eq (p + j) n) as H2.
  rewrite Heq in H1.
  pose proof (Nat.mod_upper_bound (p + j) n ltac:(lia)) as Hb.
  assert ((p + i) / n = (p + j) / n)%nat as Hq; [nia|].
  rewrite Hq in H1. lia.
Qed.

Lemma getAllNodeIDs_members w ring :
  walk_ok w →
  NoDup (getAllNodeIDs w ring) ∧
  length (getAllNodeIDs w ring) = size (Ring.nodes ring) ∧
  ∀ n, n ∈ getAllNodeIDs w ring ↔ is_Some (Ring.nodes ring !! n).
Proof.
  intros Hw. unfold getAllNodeIDs. split; [|split].
  - rewrite (Hw bool (Ring.nodes ring)). apply NoDup_fst_map_to_list.
  - rewrite (Hw bool (Ring.nodes ring)). by rewrite length_fmap, length_map_to_list.
  - intros n. rewrite list_elem_of_fmap. split.
    + intros ([k x] & -> & Hin). apply (walk_elem w) in Hin; [|done]. by exists x.
    + intros [x Hx]. exists (n, x). split; [done|]. by apply (walk_elem w).
Qed.

Lemma preference_list_spec w c key sloppy :
  walk_ok w →
  0 < Replication c →
  length (getResponsibleNodes w c key sloppy).1
  = Z.to_nat (Z.min (Replication c) (Z.of_nat (size (Ring.nodes (Ring c))))) ∧
  (∀ n, n ∈ (getResponsibleNodes w c key sloppy).1 → is_Some (Ring.nodes (Ring c) !! n)) ∧
  (∀ o s, (getResponsibleNodes w c key sloppy).2 !! o = Some s →
     sloppy = true ∧ is_Some (Ring.nodes (Ring c) !! o) ∧
     isNodeAvailable c o = false ∧ isNodeAvailable c s = true ∧
     s ∈ (getResponsibleNodes w c key sloppy).1) ∧
  (sloppy = false →
     NoDup (getResponsibleNodes w c key sloppy).1 ∧
     (getResponsibleNodes w c key sloppy).2 = ∅).
Proof.
  intros Hw HN. rewrite getResponsibleNodes_eq.
  destruct (getAllNodeIDs_members w (Ring c) Hw) as (Hnd & Hlen & Hmem).
  unfold determineResponsibleNodes. cbv zeta. rewrite <- Hlen.
  destruct (getAllNodeIDs w (Ring c)) as [|n0 rest] eqn:Hall.
  { simpl. split; [lia|]. split; [by intros n ?%elem_of_nil|].
    split; [by intros o s ?|]. intros _. split; [constructor|done]. }
  rewrite <- Hall in *. assert (getAllNodeIDs w (Ring c) ≠ []) as Hne by (by rewrite Hall).
  clear Hall n0 rest.
  set (allNodes := getAllNodeIDs w (Ring c)) in *.
  set (p := primary_index allNodes (Ring.GetNode (Ring c) key)).
  set (rounds := Z.to_nat (Z.min (Replication c) (Z.of_nat (length allNodes)))).
  destruct (responsible_fold_spec c sloppy allNodes p (seq 0 rounds) ([], ∅) Hne)
    as ((xs & Hxs & Hlenxs & Hin & Hns) & Hmap & Hns').
  simpl in Hxs. rewrite Hxs in *. rewrite length_seq in Hlenxs.
  split; [done|]. split; [|split].
  - intros n Hn. by apply Hmem, Hin.
  - intros o s Hos. destruct (Hmap o s Hos) as [Hprev|(? & ? & ? & ? & ?)]; [done|].
    split; [done|]. split; [by apply Hmem|done].
  - intros Hs. split; [|by apply Hns'].
    rewrite (Hns Hs). apply NoDup_fmap_2_strong; [|apply NoDup_seq].
    intros i j Hi%elem_of_seq Hj%elem_of_seq Heq.
    assert (rounds <= length allNodes)%nat as Hr by (unfold rounds; lia).
    apply (mod_shift_inj p i j (length allNodes)); [lia..|].
    eapply NoDup_lookup; [exact Hnd| |].
    + apply list_lookup_lookup_total_lt, Nat.mod_upper_bound. lia.
    + rewrite Heq. apply list_lookup_lookup_total_lt, Nat.mod_upper_bound. lia.
Qed.

(** X10. The preference list of [getResponsibleNodes] has exactly
    min(N, number of ring members) entries, all of them ring members.  Every
    recorded replacement maps an unavailable member to an available node
    that is on the list, and only arises with [sloppy] set; without
    [sloppy] the list has no duplicates and no replacements. *)
Theorem getResponsibleNodes_preference_list (w : World) (c : Coordinator)
    (key : string) (sloppy : bool) :
  walk_ok w →
  0 < Replication c →
  Replication c + 2 * Z.of_nat (size (Ring.nodes (Ring c))) < 2 ^ 63 →
  length (getResponsibleNodes w c key sloppy).1
  = Z.to_nat (Z.min (Replication c) (Z.of_nat (size (Ring.nodes (Ring c))))) ∧
  (∀ n, n ∈ (getResponsibleNodes w c key sloppy).1 → is_Some (Ring.nodes (Ring c) !! n)) ∧
  (∀ o s, (getResponsibleNodes w c key sloppy).2 !! o = Some s →
     sloppy = true ∧ is_Some (Ring.nodes (Ring c) !! o) ∧
     isNodeAvailable c o = false ∧ isNodeAvailable c s = true ∧
     s ∈ (getResponsibleNodes w c key sloppy).1) ∧
  (sloppy = false →
     NoDup (getResponsibleNodes w c key sloppy).1 ∧
     (getResponsibleNodes w c key sloppy).2 = ∅).
Proof. intros Hw HN _. by apply preference_list_spec. Qed.

Lemma getResponsibleNodes_preference_list_witness :
  length (getResponsibleNodes replicas_answer_world nodeA_of_three "mykey" true).1
  = Z.to_nat (Z.min (Replication nodeA_of_three)
                    (Z.of_nat (size (Ring.nodes (Ring nodeA_of_three))))) ∧
  (∀ n, n ∈ (getResponsibleNodes replicas_answer_world nodeA_of_three "mykey" true).1 →
        is_Some (Ring.nodes (Ring nodeA_of_three) !! n)) ∧
  (∀ o s, (getResponsibleNodes replicas_answer_world nodeA_of_three "mykey" true).2 !! o = Some s →
     true = true ∧ is_Some (Ring.nodes (Ring nodeA_of_three) !! o) ∧
     isNodeAvailable nodeA_of_three o = false ∧ isNodeAvailable nodeA_of_three s = true ∧
     s ∈ (getResponsibleNodes replicas_answer_world nodeA_of_three "mykey" true).1) ∧
  (true = false →
     NoDup (getResponsibleNodes replicas_answer_world nodeA_of_three "mykey" true).1 ∧
     (getResponsibleNodes replicas_answer_world nodeA_of_three "mykey" true).2 = ∅).
Proof.
  apply (getResponsibleNodes_preference_list replicas_answer_world nodeA_of_three "mykey" true).
  - exact replicas_answer_world_walk_ok.
  - reflexivity.
  - change (3 + 2 * Z.of_nat (size (Ring.nodes ringABC)) < 2 ^ 63).
    rewrite ringABC_nodes. by vm_compute.
Defined.

(** *** [processHints] *)

Lemma filter_all {A} (P : A → Prop) `{∀ x, Decision (P x)} (l : list A) :
  (∀ x, x ∈ l → P x) → filter P l = l.
Proof.
  induction l as [|x l IH]; intros Hall; [done|].
  rewrite filter_cons_True by (apply Hall; by left).
  f_equal. apply IH. intros y Hy. apply Hall. by right.
Qed.

Lemma processHints_target_spec w hs target hints :
  hs !! target = Some hints →
  default [] (processHints_target w hs (target, hints) !! target) = undelivered w hints ∧
  ∀ t, t ≠ target → processHints_target w hs (target, hints) !! t = hs !! t.
Proof.
  intros Hs. unfold processHints_target, undelivered. cbn [fst snd].
  destruct (hint_Key <$> filter (λ h, deliverHint w h = true) hints) as [|k ks] eqn:Hk.
  - rewrite Hs. split; [|done]. simpl. symmetry. apply filter_all.
    intros x _. apply not_elem_of_nil.
  - rewrite Hs.
    destruct (filter (λ h, hint_Key h ∉ k :: ks) hints) as [|h0 rest] eqn:Hf.
    + split; [by rewrite lookup_delete_eq|]. intros t Ht. by rewrite lookup_delete_ne.
    + split; [by rewrite lookup_insert_eq|]. intros t Ht. by rewrite lookup_insert_ne.
Qed.

Lemma processHints_fold w l : ∀ hs,
  NoDup l.*1 →
  (∀ t hints, (t, hints) ∈ l → hs !! t = Some hints) →
  (∀ t hints, (t, hints) ∈ l →
     default [] (foldl (processHints_target w) hs l !! t) = undelivered w hints) ∧
  (∀ t, t ∉ l.*1 → foldl (processHints_target w) hs l !! t = hs !! t).
Proof.
  induction l as [|[t0 h0] l IH]; intros hs Hnd Hl.
  - split; [by intros t hints ?%elem_of_nil|done].
  - simpl in Hnd. apply NoDup_cons in Hnd as [Ht0 Hnd]. simpl foldl.
    destruct (processHints_target_spec w hs t0 h0) as [Hd Ho]; [apply Hl; by left|].
    destruct (IH (processHints_target w hs (t0, h0)) Hnd) as [IH1 IH2].
    { intros t hints Hin. rewrite Ho; [apply Hl; by right|].
      intros ->. apply Ht0. apply list_elem_of_fmap. by exists (t0, hints). }
    split.
    + intros t hints [[= -> ->]|Hin]%elem_of_cons.
      * by rewrite IH2.
      * by apply IH1.
    + intros t Ht. simpl in Ht. apply not_elem_of_cons in Ht as [Hne Ht].
      rewrite IH2 by done. by apply Ho.
Qed.

(** X16. [processHints] leaves the buffer of an unavailable target as it
    is; of the buffer of an available target it keeps, in order, the hints
    whose key is not the key of a delivered hint.  So it never adds a hint,
    and a hint disappears only if some hint of the same target with the
    same key was delivered. *)
Theorem processHints_drops_only_delivered_keys (w : World) (c : Coordinator)
    (target : string) :
  walk_ok w →
  buffer (processHints w c) target
  = (if isNodeAvailable c target then undelivered w (buffer c target) else buffer c target) ∧
  (∀ h, h ∈ buffer (processHints w c) target → h ∈ buffer c target) ∧
  (∀ h, h ∈ buffer c target → h ∉ buffer (processHints w c) target →
     isNodeAvailable c target = true ∧
     ∃ h', h' ∈ buffer c target ∧ hint_Key h' = hint_Key h ∧ deliverHint w h' = true).
Proof.
  intros Hw.
  assert (buffer (processHints w c) target
          = if isNodeAvailable c target then undelivered w (buffer c target)
            else buffer c target) as Heq.
  { unfold buffer, processHints. cbn [Hints set_Hints].
    set (pending := filter (λ e, isNodeAvailable c e.1 = true) (walk w _ (Hints c))).
    assert (∀ t hints, (t, hints) ∈ pending ↔
              Hints c !! t = Some hints ∧ isNodeAvailable c t = true) as Hpend.
    { intros t hints. unfold pending. rewrite list_elem_of_filter, (walk_elem w) by done.
      simpl. tauto. }
    destruct (processHints_fold w pending (Hints c)) as [H1 H2].
    { eapply sublist_NoDup; [|apply fmap_sublist, sublist_filter].
      rewrite (Hw _ (Hints c)). apply NoDup_fst_map_to_list. }
    { intros t hints Hin. by apply Hpend in Hin as [? _]. }
    destruct (Hints c !! target) as [hints|] eqn:Ht.
    - destruct (isNodeAvailable c target) eqn:Hav.
      + simpl. apply H1. by apply Hpend.
      + rewrite H2, Ht; [done|].
        intros ([t hs] & -> & Hin)%list_elem_of_fmap. apply Hpend in Hin as [_ Hin].
        simpl in *. congruence.
    - rewrite H2, Ht.
      + simpl. by destruct (isNodeAvailable c target).
      + intros ([t hs] & -> & Hin)%list_elem_of_fmap. apply Hpend in Hin as [Hin _].
        simpl in *. congruence. }
  split; [done|]. rewrite Heq. split.
  - intros h. destruct (isNodeAvailable c target); [|done].
    unfold undelivered. by intros [_ ?]%list_elem_of_filter.
  - intros h Hin Hout. destruct (isNodeAvailable c target); [|done].
    split; [done|]. unfold undelivered in Hout.
    destruct (decide (hint_Key h ∈ hint_Key <$> filter (λ h', deliverHint w h' = true)
                                                      (buffer c target))) as [Hk|Hk].
    + apply list_elem_of_fmap in Hk as (h' & Hkey & Hd).
      apply list_elem_of_filter in Hd as [Hd Hh']. by exists h'.
    + exfalso. apply Hout. by apply list_elem_of_filter.
Qed.

Lemma processHints_drops_only_delivered_keys_witness :
  buffer (processHints (delivering_world 10 "k1") (buffered (instants 3))) "nodeC"
  = (if isNodeAvailable (buffered (instants 3)) "nodeC"
     then undelivered (delivering_world 10 "k1") (buffer (buffered (instants 3)) "nodeC")
     else buffer (buffered (instants 3)) "nodeC") ∧
  (∀ h, h ∈ buffer (processHints (delivering_world 10 "k1") (buffered (instants 3))) "nodeC" →
        h ∈ buffer (buffered (instants 3)) "nodeC") ∧
  (∀ h, h ∈ buffer (buffered (instants 3)) "nodeC" →
        h ∉ buffer (processHints (delivering_world 10 "k1") (buffered (instants 3))) "nodeC" →
     isNodeAvailable (buffered (instants 3)) "nodeC" = true ∧
     ∃ h', h' ∈ buffer (buffered (instants 3)) "nodeC" ∧ hint_Key h' = hint_Key h ∧
           deliverHint (delivering_world 10 "k1") h' = true).
Proof.
  apply (processHints_drops_only_delivered_keys (delivering_world 10 "k1")
           (buffered (instants 3)) "nodeC").
  intros A m. reflexivity.
Defined.

(** X20. Writing JSON null on a single-node cluster is accepted ([Put]
    returns nil and the store holds a version with a nil value under the
    new clock), after which the key reads as missing: with no hint for it,
    [Get] returns the read-quorum error. *)
Theorem Put_null_reads_as_missing (w : World) (c : Coordinator) (key : string) :
  walk_ok w →
  Ring.nodes (Ring c) = {[NodeID c := true]} →
  0 < Replication c → WriteQuorum c <= 1 → 0 < ReadQuorum c →
  storage_put_ok w key = true →
  (∀ sv, Storage c !! key = Some sv →
     ∃ evc, VectorClock sv = Some evc ∧
            - 2 ^ 63 <= default 0 (VClock.Clock evc !! NodeID c) < 2 ^ 63 - 1) →
  (∀ h, ¬ holds_hint c key h) →
  (Put w c key None).1 = None ∧
  Storage (Put w c key None).2 !! key
  = Some (mkStored None (Some (updateLocalVectorClock c key)) [] (now w)) ∧
  Get w (Put w c key None).2 key
  = (GetError "insufficient replicas for read quorum", []).
Proof.
  intros Hw Hn HN HW HR Hok Hst Hno.
  set (nv := mkStored None (Some (updateLocalVectorClock c key)) [] (now w)).
  assert (Put w c key None = (None, set_Storage (<[key := nv]>) c)) as HPut.
  { unfold Put. cbv zeta.
    rewrite getResponsibleNodes_eq, determineResponsibleNodes_single by done.
    cbn [fst snd]. unfold replicateWrite. cbn [foldl]. unfold replicate_step.
    cbn [fst snd]. unfold writeToNode. rewrite decide_True by done.
    rewrite localPut_own by done. unfold Storage_Put. rewrite Hok. cbn [fst snd app length].
    assert ((Z.of_nat 1 <? WriteQuorum c) = false) as -> by (apply Z.ltb_ge; lia).
    unfold processSloppyReplacements. by rewrite walk_empty. }
  rewrite HPut. cbn [fst snd]. split; [done|].
  split; [apply lookup_insert_eq|].
  set (c' := set_Storage (<[key := nv]>) c).
  assert (localGet w c' key = emptyStoredValue) as Hlg.
  { unfold localGet. cbn [Storage c' set_Storage]. rewrite lookup_insert_eq.
    change (Value nv) with (@None json). cbv iota.
    apply localGet_hints_none; [done|].
    intros h (t & hs & Ht & Hin & Hk). apply (Hno h). by exists t, hs. }
  unfold Get. cbv zeta.
  rewrite getResponsibleNodes_eq, (determineResponsibleNodes_single w c') by done.
  cbn [fst]. unfold gatherResponses. cbn [foldl]. unfold gather_step, retrieveValue.
  rewrite decide_True by done. rewrite Hlg.
  change (Value emptyStoredValue) with (@None json). cbv iota.
  rewrite map_size_empty.
  assert ((Z.of_nat 0 <? ReadQuorum c') = true) as -> by (apply Z.ltb_lt; simpl; lia).
  done.
Qed.

Lemma Put_null_reads_as_missing_witness :
  (Put silent_world nodeA_single "ck" None).1 = None ∧
  Storage (Put silent_world nodeA_single "ck" None).2 !! "ck"
  = Some (mkStored None (Some (updateLocalVectorClock nodeA_single "ck")) [] (now silent_world)) ∧
  Get silent_world (Put silent_world nodeA_single "ck" None).2 "ck"
  = (GetError "insufficient replicas for read quorum", []).
Proof.
  apply (Put_null_reads_as_missing silent_world nodeA_single "ck").
  - exact silent_world_walk_ok.
  - exact RingFacts.ringA_nodes.
  - reflexivity.
  - reflexivity.
  - reflexivity.
  - reflexivity.
  - intros sv Hsv. exists clockA1.
    change (({["ck" := stored_v1]} : gmap string storedValue) !! "ck" = Some sv) in Hsv.
    rewrite lookup_singleton_eq in Hsv. injection Hsv as <-.
    split; [reflexivity|]. change (NodeID nodeA_single) with "nodeA". by vm_compute.
  - intros h (t & hs & Ht & _). change ((∅ : gmap string (list HintedWrite)) !! t = Some hs) in Ht.
    by rewrite lookup_empty in Ht.
Defined.

Lemma localPut_refused w c key value vc :
  storage_put_ok w key = false → (localPut w c key value vc).2 = c.
Proof.
  intros Hno. unfold localPut, Storage_Put. rewrite Hno. cbv zeta.
  destruct (Storage c !! key); [|done]. by repeat case_decide.
Qed.

(** X19. [InternalPutHandler] on a body with a value.  Flagged as hint,
    forced sync or forced key, the write replaces whatever the node stores
    under the key, with the clock of the body and no siblings, and is
    answered 200, or 500 with nothing changed when the store refuses it.
    Unflagged, the write goes through [localPut] and is answered 200 whatever
    [localPut] returned: also when the store refused it and nothing
    changed, and also when the stored clock covers the incoming one and the
    write is ignored. *)
Theorem InternalPutHandler_contract (w : World) (c : Coordinator) (key : string)
    (body : InternalPutBody) (value : option json) :
  put_value body = Some value →
  (put_force_sync body || put_is_hint body || put_force_key body = true →
     (storage_put_ok w key = true →
        (InternalPutHandler w c key (Some body)).1 = (200, "OK") ∧
        Storage (InternalPutHandler w c key (Some body)).2 !! key
        = Some (mkStored value (Some (body_clock c (put_vector_clock body))) [] (now w))) ∧
     (storage_put_ok w key = false →
        InternalPutHandler w c key (Some body) = ((500, "Storage error"), c))) ∧
  (put_force_sync body || put_is_hint body || put_force_key body = false →
     (InternalPutHandler w c key (Some body)).1 = (200, "OK") ∧
     (InternalPutHandler w c key (Some body)).2
     = (localPut w c key value (body_clock c (put_vector_clock body))).2 ∧
     (storage_put_ok w key = false →
        InternalPutHandler w c key (Some body) = ((200, "OK"), c)) ∧
     (∀ existing evc,
        Storage c !! key = Some existing → VectorClock existing = Some evc →
        VClock.covers (VClock.Clock evc)
                      (VClock.Clock (body_clock c (put_vector_clock body))) →
        InternalPutHandler w c key (Some body) = ((200, "OK"), c))).
Proof.
  intros Hv. unfold InternalPutHandler. rewrite Hv. cbv zeta. split.
  - intros ->. unfold Storage_Put. split.
    + intros ->. cbn [fst snd]. split; [done|]. apply lookup_insert_eq.
    + by intros ->.
  - intros ->. split; [done|]. split; [done|]. split.
    + intros Hno. by rewrite localPut_refused.
    + intros existing evc Hs Hvc Hcov.
      apply compareVectorClocks_older in Hcov.
      unfold localPut. cbv zeta. rewrite Hs, Hvc, Hcov.
      by rewrite decide_False, decide_True.
Qed.

Lemma InternalPutHandler_contract_witness :
  (put_force_sync stale_hint_body || put_is_hint stale_hint_body || put_force_key stale_hint_body = true →
     (storage_put_ok silent_world "x" = true →
        (InternalPutHandler silent_world nodeA_state "x" (Some stale_hint_body)).1 = (200, "OK") ∧
        Storage (InternalPutHandler silent_world nodeA_state "x" (Some stale_hint_body)).2 !! "x"
        = Some (mkStored (Some (JString "old")) (Some (body_clock nodeA_state (put_vector_clock stale_hint_body))) [] (now silent_world))) ∧
     (storage_put_ok silent_world "x" = false →
        InternalPutHandler silent_world nodeA_state "x" (Some stale_hint_body) = ((500, "Storage error"), nodeA_state))) ∧
  (put_force_sync stale_hint_body || put_is_hint stale_hint_body || put_force_key stale_hint_body = false →
     (InternalPutHandler silent_world nodeA_state "x" (Some stale_hint_body)).1 = (200, "OK") ∧
     (InternalPutHandler silent_world nodeA_state "x" (Some stale_hint_body)).2
     = (localPut silent_world nodeA_state "x" (Some (JString "old")) (body_clock nodeA_state (put_vector_clock stale_hint_body))).2 ∧
     (storage_put_ok silent_world "x" = false →
        InternalPutHandler silent_world nodeA_state "x" (Some stale_hint_body) = ((200, "OK"), nodeA_state)) ∧
     (∀ existing evc,
        Storage nodeA_state !! "x" = Some existing → VectorClock existing = Some evc →
        VClock.covers (VClock.Clock evc)
                      (VClock.Clock (body_clock nodeA_state (put_vector_clock stale_hint_body))) →
        InternalPutHandler silent_world nodeA_state "x" (Some stale_hint_body) = ((200, "OK"), nodeA_state))).
Proof.
  apply (InternalPutHandler_contract silent_world nodeA_state "x" stale_hint_body
           (Some (JString "old"))).
  reflexivity.
Defined.

Lemma mapM_repair_conflict cs :
  Forall (λ cf, VectorClock cf ≠ None) cs →
  mapM repair_conflict cs
  = Some ((λ cf, (Value cf, clock_of_value cf, Timestamp cf)) <$> cs).
Proof.
  unfold clock_of_value.
  induction cs as [|cf cs IH]; intros Hall; [done|].
  apply Forall_cons in Hall as [Hcf Hall]. cbn [mapM]. rewrite (IH Hall).
  unfold repair_conflict at 1.
  destruct (VectorClock cf) eqn:E; [|done]. cbn. by rewrite E.
Qed.

Lemma RepairHandler_decoded w c key b :
  RepairHandler w c key (Some (decoded b))
  = if storage_put_ok w key
    then ((200, "OK"),
          set_Storage (<[key :=
            mkStored (repair_value b) (Some (VClock.mkVC (repair_vector_clock b)))
              ((λ cf : option json * gmap string Z * Z,
                  mkStored cf.1.1 (Some (VClock.mkVC cf.1.2)) [] (now w))
                 <$> default [] (repair_conflicts b))
              (now w)]>) c)
    else ((500, "Storage error"), c).
Proof.
  unfold RepairHandler, decoded, Storage_Put.
  cbn [payload_value payload_vector_clock payload_conflicts].
  assert (∀ l : list (option json * gmap string Z * Z),
            (λ cf : option json * gmap string Z, mkStored cf.1 (Some (VClock.mkVC cf.2)) [] (now w))
              <$> omap id ((λ cf : option json * gmap string Z * Z, Some cf.1) <$> l)
            = (λ cf : option json * gmap string Z * Z,
                 mkStored cf.1.1 (Some (VClock.mkVC cf.1.2)) [] (now w)) <$> l) as Hl.
  { induction l as [|x l IH]; [done|]. cbn. f_equal. apply IH. }
  destruct (repair_conflicts b) as [l|]; cbn.
  - rewrite <- (Hl l). by destruct (storage_put_ok w key).
  - by destruct (storage_put_ok w key).
Qed.

(** X17. Read repair installs the reconciled version: for a value whose
    clock and whose siblings' clocks are non-nil (with counts that survive
    the JSON decoder), [repairNode] builds a body, and [RepairHandler] on the
    decoded body replaces what the replica stores under the key by the
    value and clock of the reconciled version, with the siblings reduced to
    their value and clock and all timestamps set to the time of the repair;
    the answer is 200, or 500 with nothing changed when the store refuses the
    write. *)
Theorem read_repair_installs_reconciled (w : World) (c : Coordinator)
    (nodeID key : string) (value : storedValue) (vc : VClock.VectorClock) :
  VectorClock value = Some vc →
  Forall (λ cf, VectorClock cf ≠ None) (Conflicts value) →
  wire_safe (VClock.Clock vc) →
  Forall (λ cf, wire_safe (clock_of_value cf)) (Conflicts value) →
  ∃ body,
    repair_body (repairNode nodeID key value) = Some body ∧
    RepairHandler w c key (Some (decoded body))
    = if storage_put_ok w key
      then ((200, "OK"),
            set_Storage (<[key := mkStored (Value value) (Some vc)
                                           (repaired_sibling w <$> Conflicts value)
                                           (now w)]>) c)
      else ((500, "Storage error"), c).
Proof.
  intros Hvc Hall _ _.
  assert (VClock.mkVC (VClock.Clock vc) = vc) as Hmk by (by destruct vc).
  assert (∃ body, repair_body (repairNode nodeID key value) = Some body ∧
            repair_value body = Value value ∧ repair_vector_clock body = VClock.Clock vc ∧
            default [] (repair_conflicts body)
            = (λ cf, (Value cf, clock_of_value cf, Timestamp cf)) <$> Conflicts value)
    as (body & Hbody & Hv & Hc & Hcf).
  { unfold repairNode. cbn [repair_body]. rewrite Hvc.
    destruct (Conflicts value) as [|cf cs] eqn:Hcs.
    - eexists. split; [done|]. done.
    - rewrite (mapM_repair_conflict _ Hall). eexists. split; [done|]. done. }
  exists body. split; [done|].
  rewrite RepairHandler_decoded, Hv, Hc, Hcf, Hmk, <- list_fmap_compose. done.
Qed.

(** X27. A buffered hint can be read back: on a node that stores no
    value under the key and holds no hint for it, [localGet] after
    [storeHint] returns the hinted value with the clone of the clock and the
    time of buffering. *)
Theorem storeHint_then_localGet (w : World) (c : Coordinator) (targetNode key : string)
    (value : option json) (vc : option VClock.VectorClock) :
  walk_ok w →
  (∀ sv, Storage c !! key = Some sv → Value sv = None) →
  (∀ h, ¬ holds_hint c key h) →
  localGet w (storeHint w c targetNode key value vc) key
  = mkStored value (Some (VClock.Clone vc)) [] (now w).
Proof.
  intros Hw Hst Hno.
  set (hint := mkHint key value (VClock.Clone vc) targetNode (now w) 0).
  set (c' := storeHint w c targetNode key value vc).
  assert (∀ h, holds_hint c' key h → h = hint) as Honly.
  { intros h (t & hs & Ht & Hin & Hk). unfold c', storeHint in Ht. cbv zeta in Ht.
    cbn [Hints set_Hints] in Ht. destruct (decide (t = targetNode)) as [->|Hne].
    - rewrite lookup_insert_eq in Ht. injection Ht as <-.
      apply elem_of_app in Hin as [Hin|Hin%list_elem_of_singleton]; [|done].
      exfalso. apply (Hno h).
      assert (h ∈ default [] (Hints c !! targetNode)) as Hold.
      { destruct (decide (hintStorageLimit <= length (default [] (Hints c !! targetNode)))%nat);
          [|done].
        eapply elem_of_sublist; [done|apply sublist_drop]. }
      destruct (Hints c !! targetNode) as [old|] eqn:Hlk.
      + by exists targetNode, old.
      + by apply elem_of_nil in Hold.
    - rewrite lookup_insert_ne in Ht by done. exfalso. apply (Hno h). by exists t, hs. }
  assert (holds_hint c' key hint) as Hheld.
  { exists targetNode, ((if decide (hintStorageLimit <= length (default [] (Hints c !! targetNode)))%nat
                         then drop 1 (default [] (Hints c !! targetNode))
                         else default [] (Hints c !! targetNode)) ++ [hint]).
    split; [apply lookup_insert_eq|]. split; [|done]. apply elem_of_app. right. by left. }
  destruct (localGet_hints_found w c' key hint Hw Hheld) as (h & Hh & Hget).
  rewrite (Honly h Hh) in Hget.
  unfold localGet. change (Storage c') with (Storage c).
  destruct (Storage c !! key) as [sv|] eqn:Hs; [|done].
  by rewrite (Hst sv eq_refl).
Qed.

Lemma storeHint_then_localGet_witness :
  localGet silent_world
    (storeHint silent_world nodeA_fresh "nodeC" "fault" (Some (JString "ft")) (Some clockA1))
    "fault"
  = mkStored (Some (JString "ft")) (Some (VClock.Clone (Some clockA1))) [] (now silent_world).
Proof.
  apply (storeHint_then_localGet silent_world nodeA_fresh "nodeC" "fault").
  - exact silent_world_walk_ok.
  - intros sv Hsv. discriminate Hsv.
  - intros h (t & hs & Ht & _). discriminate Ht.
Defined.

Lemma read_repair_installs_reconciled_witness :
  ∃ body,
    repair_body (repairNode "nodeB" "mykey" hello_value) = Some body ∧
    RepairHandler silent_world nodeA_state "mykey" (Some (decoded body))
    = if storage_put_ok silent_world "mykey"
      then ((200, "OK"),
            set_Storage (<["mykey" := mkStored (Value hello_value) (Some clockA1)
                                       (repaired_sibling silent_world <$> Conflicts hello_value)
                                       (now silent_world)]>) nodeA_state)
      else ((500, "Storage error"), nodeA_state).
Proof.
  apply (read_repair_installs_reconciled silent_world nodeA_state "nodeB" "mykey"
           hello_value clockA1).
  - reflexivity.
  - constructor.
  - apply map_Forall_singleton. lia.
  - constructor.
Defined.

(** *** What [Put] changes *)

Lemma localPut_frame w c key value vc :
  (localPut w c key value vc).2 = c ∨
  ∃ sv, (localPut w c key value vc).2 = set_Storage (<[key := sv]>) c.
Proof.
  unfold localPut, Storage_Put. cbv zeta.
  destruct (Storage c !! key); repeat case_decide;
    destruct (storage_put_ok w key); cbn [snd]; eauto.
Qed.

Lemma writeToNode_frame w c n key value vc :
  (writeToNode w c n key value vc).2 = c ∨
  ∃ sv, (writeToNode w c n key value vc).2 = set_Storage (<[key := sv]>) c.
Proof. unfold writeToNode. case_decide; [apply localPut_frame|by left]. Qed.

Lemma replicateWrite_frame w c nodes key value vc :
  let c' := (replicateWrite w c nodes key value vc).2 in
  NodeID c' = NodeID c ∧ Ring c' = Ring c ∧ Gossip c' = Gossip c ∧ Hints c' = Hints c ∧
  ∀ k, k ≠ key → Storage c' !! k = Storage c !! k.
Proof.
  cbv zeta. unfold replicateWrite. generalize (@nil string). revert c.
  induction nodes as [|n nodes IH]; intros c acc; [done|].
  simpl foldl.
  assert (replicate_step w key value vc (acc, c) n
          = (if (writeToNode w c n key value vc).1 then acc ++ [n] else acc,
             (writeToNode w c n key value vc).2)) as -> by done.
  destruct (IH (writeToNode w c n key value vc).2
               (if (writeToNode w c n key value vc).1 then acc ++ [n] else acc))
    as (H1 & H2 & H3 & H4 & H5).
  rewrite H1, H2, H3, H4.
  destruct (writeToNode_frame w c n key value vc) as [Heq|[sv Heq]]; rewrite Heq in *.
  - by split_and!.
  - split_and!; try done. intros k Hk. rewrite H5 by done.
    cbn [Storage set_Storage]. by rewrite lookup_insert_ne.
Qed.

Lemma isNodeAvailable_ext c c' t :
  NodeID c' = NodeID c → Gossip c' = Gossip c → isNodeAvailable c' t = isNodeAvailable c t.
Proof. intros H1 H2. unfold isNodeAvailable, getNodeStatus. by rewrite H1, H2. Qed.

Lemma sloppy_fold_frame w successNodes key value vc (l : list (string * string)) : ∀ c,
  let c' := foldl (sloppy_step w successNodes key value vc) c l in
  NodeID c' = NodeID c ∧ Ring c' = Ring c ∧ Gossip c' = Gossip c ∧ Storage c' = Storage c ∧
  (∀ t, t ∉ l.*1 → Hints c' !! t = Hints c !! t) ∧
  (∀ t h, h ∈ buffer c' t →
     h ∈ buffer c t ∨ (hint_Key h = key ∧ hint_Value h = value ∧ hint_TargetNode h = t)).
Proof.
  induction l as [|[o s] l IH]; intros c; cbv zeta.
  - simpl. split_and!; auto.
  - simpl foldl. destruct (IH (sloppy_step w successNodes key value vc c (o, s)))
      as (H1 & H2 & H3 & H4 & H5 & H6).
    assert (sloppy_step w successNodes key value vc c (o, s) = c ∨
            sloppy_step w successNodes key value vc c (o, s)
            = storeHint w c o key value (Some vc)) as [Hs|Hs].
    { unfold sloppy_step. cbn [fst snd]. destruct (contains successNodes s); auto. }
    + rewrite Hs in *. split_and!; try done.
      intros t Ht. simpl in Ht. apply not_elem_of_cons in Ht as [Hne Ht]. by apply H5.
    + rewrite Hs in *. split_and!; try done.
      * intros t Ht. simpl in Ht. apply not_elem_of_cons in Ht as [Hne Ht].
        rewrite H5 by done. by apply storeHint_other.
      * intros t h Hin. destruct (H6 t h Hin) as [Hold|?]; [|by right].
        destruct (decide (t = o)) as [->|Hne].
        -- rewrite storeHint_buffer in Hold.
           apply elem_of_app in Hold as [Hold|Hnew%list_elem_of_singleton].
           ++ left. destruct (decide _); [|exact Hold].
              eapply elem_of_sublist; [exact Hold|apply sublist_drop].
           ++ right. by rewrite Hnew.
        -- left. unfold buffer in *. by rewrite storeHint_other in Hold.
Qed.

(** X28. What [Put] changes at the coordinator: its id, ring and gossip
    view stay; in the local store only the entry of the key can change;
    the hint buffer of a node the coordinator holds available stays as it
    is, every hint that is new carries the key and the value of the write
    and sits in the buffer of its own target, and a [Put] that returns an
    error buffers no hint. *)
Theorem Put_effects (w : World) (c : Coordinator) (key : string) (value : option json) :
  walk_ok w →
  0 < Replication c →
  NodeID (Put w c key value).2 = NodeID c ∧
  Ring (Put w c key value).2 = Ring c ∧
  Gossip (Put w c key value).2 = Gossip c ∧
  (∀ k, k ≠ key → Storage (Put w c key value).2 !! k = Storage c !! k) ∧
  (∀ t, isNodeAvailable c t = true →
        Hints (Put w c key value).2 !! t = Hints c !! t) ∧
  (∀ t h, h ∈ buffer (Put w c key value).2 t →
     h ∈ buffer c t ∨ (hint_Key h = key ∧ hint_Value h = value ∧ hint_TargetNode h = t)) ∧
  ((Put w c key value).1 ≠ None → Hints (Put w c key value).2 = Hints c).
Proof.
  intros Hw HN. unfold Put. cbv zeta.
  set (vc := updateLocalVectorClock c key).
  set (r := getResponsibleNodes w c key true).
  destruct (replicateWrite_frame w c r.1 key value vc) as (R1 & R2 & R3 & R4 & R5).
  set (ws := replicateWrite w c r.1 key value vc) in *.
  destruct (Z.of_nat (length ws.1) <? WriteQuorum c); cbn [fst snd].
  - split_and!; try done.
    + intros t _. by rewrite R4.
    + intros t h Hin. left. unfold buffer in *. by rewrite R4 in Hin.
  - unfold processSloppyReplacements.
    destruct (sloppy_fold_frame w ws.1 key value vc (walk w _ r.2) ws.2)
      as (S1 & S2 & S3 & S4 & S5 & S6).
    split_and!; try congruence.
    + intros k Hk. rewrite S4. by apply R5.
    + intros t Hav. rewrite S5, R4; [done|].
      intros ([o s] & -> & Hin)%list_elem_of_fmap. apply (walk_elem w) in Hin; [|done].
      destruct (preference_list_spec w c key true Hw HN) as (_ & _ & Hrep & _).
      destruct (Hrep o s Hin) as (_ & _ & Hun & _). simpl in Hav. congruence.
    + intros t h Hin. destruct (S6 t h Hin) as [Hold|?]; [left|by right].
      unfold buffer in *. by rewrite R4 in Hold.
Qed.

Lemma Put_effects_witness :
  NodeID (Put silent_world nodeA_single "ck" (Some (JString "v2"))).2 = NodeID nodeA_single ∧
  Ring (Put silent_world nodeA_single "ck" (Some (JString "v2"))).2 = Ring nodeA_single ∧
  Gossip (Put silent_world nodeA_single "ck" (Some (JString "v2"))).2 = Gossip nodeA_single ∧
  (∀ k, k ≠ "ck" → Storage (Put silent_world nodeA_single "ck" (Some (JString "v2"))).2 !! k
                   = Storage nodeA_single !! k) ∧
  (∀ t, isNodeAvailable nodeA_single t = true →
        Hints (Put silent_world nodeA_single "ck" (Some (JString "v2"))).2 !! t
        = Hints nodeA_single !! t) ∧
  (∀ t h, h ∈ buffer (Put silent_world nodeA_single "ck" (Some (JString "v2"))).2 t →
     h ∈ buffer nodeA_single t ∨
     (hint_Key h = "ck" ∧ hint_Value h = Some (JString "v2") ∧ hint_TargetNode h = t)) ∧
  ((Put silent_world nodeA_single "ck" (Some (JString "v2"))).1 ≠ None →
   Hints (Put silent_world nodeA_single "ck" (Some (JString "v2"))).2 = Hints nodeA_single).
Proof.
  apply (Put_effects silent_world nodeA_single "ck" (Some (JString "v2"))).
  - exact silent_world_walk_ok.
  - reflexivity.
Defined.

(** *** A read from a peer *)

(** X29. A read from a peer loses the siblings: what [parseStoredValue]
    makes of an answer of the peer's [InternalGetHandler] (whose clock
    counts survive the JSON decoder, and whatever becomes of the timestamp)
    has the value of the peer's [localGet]; when that value is not null it
    has the peer's clock and no conflicts, although the answer may list
    some, and when it is null it is the empty value, clock included. *)
Theorem remote_read_drops_siblings (w w' : World) (c : Coordinator) (key : string)
    (reply : InternalGetResponse) (timestamp : option Z) :
  InternalGetHandler w c key = Some reply →
  wire_safe (resp_vector_clock reply) →
  Value (parseStoredValue w' (mkWire (resp_value reply) (resp_vector_clock reply) timestamp))
  = Value (localGet w c key) ∧
  (Value (localGet w c key) ≠ None →
   VectorClock (parseStoredValue w' (mkWire (resp_value reply) (resp_vector_clock reply)
                                            timestamp))
   = Some (VClock.mkVC (clock_of_value (localGet w c key))) ∧
   Conflicts (parseStoredValue w' (mkWire (resp_value reply) (resp_vector_clock reply)
                                          timestamp)) = []) ∧
  (Value (localGet w c key) = None →
   parseStoredValue w' (mkWire (resp_value reply) (resp_vector_clock reply) timestamp)
   = emptyStoredValue).
Proof.
  intros Hreply _.
  assert (∃ vc, VectorClock (localGet w c key) = Some vc ∧
                resp_value reply = Value (localGet w c key) ∧
                resp_vector_clock reply = VClock.Clock vc) as (vc & Hvc & Hv & Hc).
  { unfold InternalGetHandler in Hreply. cbv zeta in Hreply.
    destruct (VectorClock (localGet w c key)) as [vc|]; [|done].
    exists vc. split; [done|].
    destruct (Conflicts (localGet w c key)) as [|cf cs].
    - by injection Hreply as <-.
    - destruct (mapM _ _); [|done]. by injection Hreply as <-. }
  unfold parseStoredValue, clock_of_value.
  cbn [wire_value wire_vector_clock wire_timestamp].
  rewrite Hv, Hc, Hvc. by destruct (Value (localGet w c key)).
Qed.

Lemma remote_read_drops_siblings_witness :
  Value (parseStoredValue silent_world
           (mkWire (Some (JString "v1")) (VClock.Clock clockA1) (Some 50)))
  = Value (localGet silent_world nodeA_state "ck") ∧
  (Value (localGet silent_world nodeA_state "ck") ≠ None →
   VectorClock (parseStoredValue silent_world
                  (mkWire (Some (JString "v1")) (VClock.Clock clockA1) (Some 50)))
   = Some (VClock.mkVC (clock_of_value (localGet silent_world nodeA_state "ck"))) ∧
   Conflicts (parseStoredValue silent_world
                (mkWire (Some (JString "v1")) (VClock.Clock clockA1) (Some 50))) = []) ∧
  (Value (localGet silent_world nodeA_state "ck") = None →
   parseStoredValue silent_world
     (mkWire (Some (JString "v1")) (VClock.Clock clockA1) (Some 50))
   = emptyStoredValue).
Proof.
  apply (remote_read_drops_siblings silent_world silent_world nodeA_state "ck"
           (mkInternalGetResponse (Some (JString "v1")) (VClock.Clock clockA1) 50 None)
           (Some 50)).
  - reflexivity.
  - apply map_Forall_singleton. lia.
Defined.

End CoordFacts.

Module ConfFacts.

Import Conf.

Lemma ValidateConfig_None cfg :
  ValidateConfig cfg = None
  ↔ 0 < ReadQuorum cfg ∧ 0 < WriteQuorum cfg ∧
    ReplicationFactor cfg < wrap64 (ReadQuorum cfg + WriteQuorum cfg) ∧
    100 * Millisecond <= GossipInterval cfg.
Proof.
  unfold ValidateConfig. cbv zeta.
  destruct (ReadQuorum cfg <=? 0) eqn:Hr; simpl.
  { apply Z.leb_le in Hr. split; [done|]. lia. }
  destruct (WriteQuorum cfg <=? 0) eqn:Hw; simpl.
  { apply Z.leb_le in Hw. split; [done|]. lia. }
  destruct (_ <=? ReplicationFactor cfg) eqn:Hs.
  { apply Z.leb_le in Hs. split; [done|]. lia. }
  destruct (GossipInterval cfg <? _) eqn:Hg.
  { apply Z.ltb_lt in Hg. split; [done|]. lia. }
  apply Z.leb_gt in Hr, Hw, Hs. apply Z.ltb_ge in Hg. split; [|done]. intros _. lia.
Qed.

Lemma NewCoordinator_inr nodeID ring n r w :
  (∃ c, Coord.NewCoordinator nodeID ring n r w = inr c)
  ↔ 0 < r ∧ 0 < w ∧ 0 < n ∧ n < wrap64 (r + w).
Proof.
  unfold Coord.NewCoordinator.
  destruct (r <=? 0) eqn:Hr; simpl.
  { apply Z.leb_le in Hr. split; [by intros [c ?]|]. lia. }
  destruct (w <=? 0) eqn:Hw; simpl.
  { apply Z.leb_le in Hw. split; [by intros [c ?]|]. lia. }
  destruct (n <=? 0) eqn:Hn; simpl.
  { apply Z.leb_le in Hn. split; [by intros [c ?]|]. lia. }
  destruct (wrap64 (r + w) <=? n) eqn:Hs.
  { apply Z.leb_le in Hs. split; [by intros [c ?]|]. lia. }
  apply Z.leb_gt in Hr, Hw, Hn, Hs. split; [intros _; lia|]. intros _. eauto.
Qed.

Lemma starts_iff cfg :
  starts cfg
  ↔ 0 < ReadQuorum cfg ∧ 0 < WriteQuorum cfg ∧ 0 < ReplicationFactor cfg ∧
    ReplicationFactor cfg < wrap64 (ReadQuorum cfg + WriteQuorum cfg) ∧
    100 * Millisecond <= GossipInterval cfg.
Proof.
  unfold starts, startup. destruct (ValidateConfig cfg) as [e|] eqn:Hv.
  - split; [by intros [c ?]|]. intros (Hr & Hw & Hn & Hs & Hg).
    assert (ValidateConfig cfg = None) by (by apply ValidateConfig_None). congruence.
  - apply ValidateConfig_None in Hv as (Hr & Hw & Hs & Hg).
    cbv zeta. simpl. rewrite NewCoordinator_inr. tauto.
Qed.

Lemma wrap64_sum_le r w :
  int64_range r → int64_range w → 0 < r → 0 < w → wrap64 (r + w) <= r + w.
Proof.
  unfold int64_range. intros Hr Hw Hr0 Hw0.
  destruct (decide (r + w < 2 ^ 63)).
  - rewrite wrap64_id; [lia|]. unfold int64_range. lia.
  - rewrite wrap64_overflow; lia.
Qed.

(** C8, as stated, fails: [ValidateConfig] lets N = 0 through (the start
    is stopped later, by [NewCoordinator]), and a configuration that meets
    all five conditions is refused when R + W wraps around. *)
Lemma validation_gaps :
  ValidateConfig config_N0 = None ∧ ¬ valid config_N0 ∧
  valid config_huge ∧ int64_range (ReadQuorum config_huge) ∧
  ValidateConfig config_huge = Some (UnsafeQuorum (2 ^ 62) (2 ^ 62) 3) ∧
  ¬ starts config_huge.
Proof.
  split; [by vm_compute|]. split.
  { intros (_ & _ & Hn & _). simpl in Hn. lia. }
  split.
  { unfold valid. repeat split; by vm_compute. }
  split.
  { unfold int64_range. split; by vm_compute. }
  split; [by vm_compute|].
  intros [c Hc]. unfold startup in Hc.
  assert (ValidateConfig config_huge = Some (UnsafeQuorum (2 ^ 62) (2 ^ 62) 3)) as Hv
    by (by vm_compute).
  rewrite Hv in Hc. discriminate Hc.
Qed.

(** C8, amended.  With quorums that are Go [int] values: [ValidateConfig]
    accepts exactly when R > 0, W > 0, R + W > N for the 64-bit sum, and the
    gossip interval is at least 100ms; it does not look at N > 0, which
    [NewCoordinator] checks, so the node starts exactly when all of R, W,
    N > 0, R + W > N (64-bit sum) and the interval bound hold.  A node that
    starts meets the five conditions of the specification, and as long as
    R + W stays below 2^63 the converse holds too. *)
Theorem startup_validation (cfg : Config) :
  int64_range (ReadQuorum cfg) → int64_range (WriteQuorum cfg) →
  (ValidateConfig cfg = None
     ↔ 0 < ReadQuorum cfg ∧ 0 < WriteQuorum cfg ∧
       ReplicationFactor cfg < wrap64 (ReadQuorum cfg + WriteQuorum cfg) ∧
       100 * Millisecond <= GossipInterval cfg) ∧
  (starts cfg
     ↔ 0 < ReadQuorum cfg ∧ 0 < WriteQuorum cfg ∧ 0 < ReplicationFactor cfg ∧
       ReplicationFactor cfg < wrap64 (ReadQuorum cfg + WriteQuorum cfg) ∧
       100 * Millisecond <= GossipInterval cfg) ∧
  (starts cfg → valid cfg) ∧
  (ReadQuorum cfg + WriteQuorum cfg < 2 ^ 63 → (starts cfg ↔ valid cfg)).
Proof.
  intros Hr Hw. split; [apply ValidateConfig_None|]. split; [apply starts_iff|].
  split.
  - intros (H1 & H2 & H3 & H4 & H5)%starts_iff. unfold valid.
    pose proof (wrap64_sum_le _ _ Hr Hw H1 H2). lia.
  - intros Hsum. rewrite starts_iff. unfold valid.
    destruct (decide (0 < ReadQuorum cfg ∧ 0 < WriteQuorum cfg)) as [[H1 H2]|Hn]; [|tauto].
    rewrite wrap64_id; [tauto|]. unfold int64_range. lia.
Qed.

Lemma startup_validation_witness : starts cluster_config ↔ valid cluster_config.
Proof.
  apply (proj2 (proj2 (proj2 (startup_validation cluster_config
           ltac:(split; by vm_compute) ltac:(split; by vm_compute))))).
  by vm_compute.
Defined.

Example cluster_config_accepted : ValidateConfig cluster_config = None.
Proof. by vm_compute. Qed.

End ConfFacts.

Module GossipFacts.

Import Gossip.

Lemma updateMember_known now gs nm cur :
  NodeID nm ≠ "" → NodeID nm ≠ NodeID (Self gs) →
  Members gs !! NodeID nm = Some cur →
  ∃ m', (updateMember now gs (Some nm)).1
        = mkGossipService (Self gs) (<[NodeID nm := m']> (Members gs)) ∧
        NodeID m' = NodeID cur ∧ LastSeen m' = now ∧
        Heartbeat m' = Z.max (Heartbeat cur) (Heartbeat nm) ∧
        (Status m' = Status cur ∨
         (Status m' = StatusAlive ∧ Heartbeat cur < Heartbeat nm ∧ Status nm = StatusAlive) ∨
         (Status m' = StatusSuspected ∧ Status nm = StatusDown ∧ Status cur ≠ StatusDown)) ∧
        ((updateMember now gs (Some nm)).2 = Some (NodeID nm) ↔
           (Status cur = StatusDown ∨ Status cur = StatusSuspected) ∧
           Heartbeat cur < Heartbeat nm) ∧
        ((updateMember now gs (Some nm)).2 = None ∨
         (updateMember now gs (Some nm)).2 = Some (NodeID nm)).
Proof.
  intros Hne Hself Hcur. unfold updateMember.
  rewrite decide_False, decide_False, Hcur by done. cbv zeta. cbn [fst snd].
  eexists. split; [reflexivity|].
  unfold set_Status, set_LastSeen, StatusAlive, StatusSuspected, StatusDown.
  repeat (cbn [Heartbeat Status NodeID LastSeen Host Port andb orb negb];
          match goal with
          | |- context [decide ?P] => destruct (decide P)
          | |- context [bool_decide ?P] => destruct (bool_decide_reflect P)
          | |- context [?a <? ?b] => destruct (Z.ltb_spec a b)
          end).
  all: cbn [Heartbeat Status NodeID LastSeen Host Port andb orb negb].
  all: repeat split; try lia; try done; try tauto; try congruence.
  all: try (intros [[?|?] ?]; congruence || lia).
  all: try (right; left; repeat split; (done || lia)).
  all: try (right; right; repeat split; (done || congruence)).
  all: try (by left).
Qed.

(** X22. [updateMember] on a report about a known member other than the
    node itself stores one updated member under the id: its heartbeat is the
    larger of the known and the reported one and its [LastSeen] the current
    time; its status is the known one, or alive when the report says alive
    with a larger heartbeat, or suspected when the report says down and the
    member was not down, never newly down.  [forceReconnectHints] is started
    for the member exactly when it was down or suspected and the reported
    heartbeat is larger. *)
Theorem updateMember_known_member (now : Z) (gs : GossipService) (report current : Member) :
  NodeID report ≠ "" → NodeID report ≠ NodeID (Self gs) →
  Members gs !! NodeID report = Some current →
  ∃ updated,
    (updateMember now gs (Some report)).1
    = mkGossipService (Self gs) (<[NodeID report := updated]> (Members gs)) ∧
    NodeID updated = NodeID current ∧ LastSeen updated = now ∧
    Heartbeat updated = Z.max (Heartbeat current) (Heartbeat report) ∧
    (Status updated = Status current ∨
     (Status updated = StatusAlive ∧ Heartbeat current < Heartbeat report ∧
      Status report = StatusAlive) ∨
     (Status updated = StatusSuspected ∧ Status report = StatusDown ∧
      Status current ≠ StatusDown)) ∧
    ((updateMember now gs (Some report)).2 = Some (NodeID report) ↔
       (Status current = StatusDown ∨ Status current = StatusSuspected) ∧
       Heartbeat current < Heartbeat report) ∧
    ((updateMember now gs (Some report)).2 = None ∨
     (updateMember now gs (Some report)).2 = Some (NodeID report)).
Proof. apply updateMember_known. Qed.

Lemma gossipA_keyed : keyed gossipA.
Proof.
  intros k m Hk. change (({["nodeB" := peerB]} : gmap string Member) !! k = Some m) in Hk.
  apply lookup_singleton_Some in Hk as [<- <-]. done.
Qed.

Lemma updateMember_known_member_witness :
  ∃ updated,
    (updateMember 2000 gossipA (Some rumour_B_down)).1
    = mkGossipService (Self gossipA) (<[NodeID rumour_B_down := updated]> (Members gossipA)) ∧
    NodeID updated = NodeID peerB ∧ LastSeen updated = 2000 ∧
    Heartbeat updated = Z.max (Heartbeat peerB) (Heartbeat rumour_B_down) ∧
    (Status updated = Status peerB ∨
     (Status updated = StatusAlive ∧ Heartbeat peerB < Heartbeat rumour_B_down ∧
      Status rumour_B_down = StatusAlive) ∨
     (Status updated = StatusSuspected ∧ Status rumour_B_down = StatusDown ∧
      Status peerB ≠ StatusDown)) ∧
    ((updateMember 2000 gossipA (Some rumour_B_down)).2 = Some (NodeID rumour_B_down) ↔
       (Status peerB = StatusDown ∨ Status peerB = StatusSuspected) ∧
       Heartbeat peerB < Heartbeat rumour_B_down) ∧
    ((updateMember 2000 gossipA (Some rumour_B_down)).2 = None ∨
     (updateMember 2000 gossipA (Some rumour_B_down)).2 = Some (NodeID rumour_B_down)).
Proof.
  apply (updateMember_known_member 2000 gossipA rumour_B_down peerB); done.
Defined.

(** *** [checkMemberStatuses] *)

Lemma check_member_fold now self (l : list (string * Member)) : ∀ acc k,
  NoDup l.*1 → (∀ k m, (k, m) ∈ l → NodeID m = k) →
  foldl (check_member now self) acc l !! k
  = match (list_to_map l : gmap string Member) !! k with
    | Some m => if decide (NodeID m = self) then acc !! k else Some (checked now self m)
    | None => acc !! k
    end.
Proof.
  induction l as [|[k0 m0] l IH]; intros acc k Hnd Hkey; [done|].
  simpl in Hnd. apply NoDup_cons in Hnd as [Hk0 Hnd].
  assert (NodeID m0 = k0) as Hm0 by (apply Hkey; by left).
  simpl foldl. rewrite IH; [|done|intros k' m' Hin; apply Hkey; by right].
  simpl list_to_map. unfold check_member at 1 2. cbn [snd]. rewrite Hm0.
  destruct (decide (k = k0)) as [->|Hne].
  - rewrite lookup_insert_eq, (not_elem_of_list_to_map_1 _ k0) by done.
    rewrite Hm0. destruct (decide (k0 = self)) as [Hs|Hs]; [done|].
    rewrite lookup_insert_eq. unfold checked. by rewrite Hm0, decide_False.
  - rewrite lookup_insert_ne by done.
    destruct (decide (k0 = self)); [done|]. by rewrite lookup_insert_ne.
Qed.

Lemma checkMemberStatuses_lookup now gs k :
  keyed gs →
  Members (checkMemberStatuses now gs) !! k
  = checked now (NodeID (Self gs)) <$> Members gs !! k.
Proof.
  intros Hkey. unfold checkMemberStatuses. cbn [Members].
  rewrite check_member_fold.
  - rewrite list_to_map_to_list. destruct (Members gs !! k) as [m|] eqn:Hk; [|done].
    simpl. unfold checked. by destruct (decide (NodeID m = NodeID (Self gs))).
  - apply NoDup_fst_map_to_list.
  - intros k' m' Hin. apply elem_of_map_to_list in Hin. by apply Hkey.
Qed.

(** X23. [checkMemberStatuses] decides by silence alone: with every
    member stored under its own id, a member other than the node itself is
    left with the status of the time since its [LastSeen], alive up to 3
    seconds, down beyond 6 seconds and suspected in between, whatever its
    status was; its other fields and the node's own record do not change. *)
Theorem checkMemberStatuses_by_silence (now : Z) (gs : GossipService) :
  keyed gs →
  Self (checkMemberStatuses now gs) = Self gs ∧
  keyed (checkMemberStatuses now gs) ∧
  ∀ k m, Members gs !! k = Some m →
    k ≠ NodeID (Self gs) →
    Members (checkMemberStatuses now gs) !! k
    = Some (set_Status (status_by_silence (now - LastSeen m)) m) ∧
    (Status (set_Status (status_by_silence (now - LastSeen m)) m) = StatusAlive
       ↔ now - LastSeen m <= 3 * Second) ∧
    (Status (set_Status (status_by_silence (now - LastSeen m)) m) = StatusDown
       ↔ 6 * Second < now - LastSeen m).
Proof.
  intros Hkey. split; [done|]. split.
  - intros k m. rewrite checkMemberStatuses_lookup by done.
    destruct (Members gs !! k) as [m0|] eqn:Hk; [|done]. simpl. intros [= <-].
    unfold checked. destruct (decide _); [by apply Hkey|].
    cbn [NodeID set_Status]. by apply Hkey.
  - intros k m Hk Hself. rewrite checkMemberStatuses_lookup, Hk by done. simpl.
    unfold checked. rewrite decide_False by (by rewrite (Hkey k m Hk)).
    split; [done|]. cbn [Status set_Status]. unfold status_by_silence.
    destruct (Z.ltb_spec (6 * Second) (now - LastSeen m));
      destruct (Z.ltb_spec (3 * Second) (now - LastSeen m));
      unfold StatusAlive, StatusSuspected, StatusDown, Second in *; (split; split; (done || lia)).
Qed.

Lemma checkMemberStatuses_by_silence_witness :
  Self (checkMemberStatuses 2000 gossipA) = Self gossipA ∧
  keyed (checkMemberStatuses 2000 gossipA) ∧
  ∀ k m, Members gossipA !! k = Some m →
    k ≠ NodeID (Self gossipA) →
    Members (checkMemberStatuses 2000 gossipA) !! k
    = Some (set_Status (status_by_silence (2000 - LastSeen m)) m) ∧
    (Status (set_Status (status_by_silence (2000 - LastSeen m)) m) = StatusAlive
       ↔ 2000 - LastSeen m <= 3 * Second) ∧
    (Status (set_Status (status_by_silence (2000 - LastSeen m)) m) = StatusDown
       ↔ 6 * Second < 2000 - LastSeen m).
Proof. apply (checkMemberStatuses_by_silence 2000 gossipA), gossipA_keyed. Defined.

(** X21. News about a known member keeps it alive: whatever a report
    about a known member other than the node itself says, also that it is
    down, [updateMember] sets the member's [LastSeen] to the time of the
    report, so a [checkMemberStatuses] within the next 3 seconds marks the
    member alive. *)
Theorem rumour_keeps_member_alive (t t' : Z) (gs : GossipService)
    (report current : Member) :
  keyed gs →
  NodeID report ≠ "" → NodeID report ≠ NodeID (Self gs) →
  Members gs !! NodeID report = Some current →
  t <= t' <= t + 3 * Second →
  ∃ m, Members (checkMemberStatuses t' (updateMember t gs (Some report)).1) !! NodeID report
       = Some m ∧
       Status m = StatusAlive ∧ LastSeen m = t.
Proof.
  intros Hkey Hne Hself Hcur Ht.
  destruct (updateMember_known t gs report current Hne Hself Hcur)
    as (m' & -> & Hid & Hseen & _).
  assert (keyed (mkGossipService (Self gs) (<[NodeID report := m']> (Members gs)))) as Hkey'.
  { intros k m. cbn [Members]. destruct (decide (k = NodeID report)) as [->|Hk].
    - rewrite lookup_insert_eq. intros [= <-]. rewrite Hid. by apply Hkey.
    - rewrite lookup_insert_ne by done. apply Hkey. }
  rewrite checkMemberStatuses_lookup by done. cbn [Members Self].
  rewrite lookup_insert_eq. simpl. eexists. split; [done|].
  unfold checked. rewrite decide_False by (rewrite Hid, (Hkey _ _ Hcur); done).
  cbn [Status LastSeen set_Status]. split; [|done].
  unfold status_by_silence. rewrite Hseen.
  destruct (Z.ltb_spec (6 * Second) (t' - t)); [unfold Second in *; lia|].
  destruct (Z.ltb_spec (3 * Second) (t' - t)); [unfold Second in *; lia|done].
Qed.

Lemma rumour_keeps_member_alive_witness :
  ∃ m, Members (checkMemberStatuses 3000 (updateMember 2000 gossipA (Some rumour_B_down)).1)
         !! NodeID rumour_B_down = Some m ∧
       Status m = StatusAlive ∧ LastSeen m = 2000.
Proof.
  apply (rumour_keeps_member_alive 2000 3000 gossipA rumour_B_down peerB).
  - exact gossipA_keyed.
  - done.
  - done.
  - reflexivity.
  - by vm_compute.
Defined.

End GossipFacts.

Module MerkleFacts.

Import Merkle.

Lemma next_level_length current :
  length (next_level current) = ((length current + 1) / 2)%nat.
Proof.
  assert (∀ n l, (length l <= n)%nat →
            length (next_level l) = ((length l + 1) / 2)%nat) as H.
  { intros n. induction n as [|n IH]; intros l Hl.
    - destruct l; [done|simpl in Hl; lia].
    - destruct l as [|a [|b rest]]; [done|done|].
      cbn [next_level length]. rewrite IH by (simpl in Hl; lia).
      replace (S (S (length rest)) + 1)%nat with ((length rest + 1) + 1 * 2)%nat by lia.
      rewrite Nat.div_add by done. lia. }
  by apply (H (length current)).
Qed.


Lemma build_levels_unfold current :
  build_levels current
  = if decide (1 < length current)%nat
    then next_level current :: build_levels (next_level current) else [].
Proof.
  rewrite build_levels_equation_1.
  destruct (decide _); [by rewrite build_levels_clause_1_equation_1|done].
Qed.

Lemma next_level_nonempty current : current ≠ [] → next_level current ≠ [].
Proof. by destruct current as [|a [|b rest]]. Qed.

Lemma build_levels_last current :
  current ≠ [] → ∃ root, last (current :: build_levels current) = Some [root].
Proof.
  assert (∀ n l, (length l <= n)%nat → l ≠ [] →
            ∃ root, last (l :: build_levels l) = Some [root]) as H.
  { intros n. induction n as [|n IH]; intros l Hl Hne.
    - destruct l; [done|simpl in Hl; lia].
    - rewrite build_levels_unfold. destruct (decide (1 < length l)%nat) as [Hlt|Hge].
      + destruct (IH (next_level l)) as [root Hroot].
        * rewrite next_level_length.
          assert ((length l + 1) / 2 < length l)%nat; [|lia].
          apply Nat.Div0.div_lt_upper_bound. lia.
        * by apply next_level_nonempty.
        * exists root. by rewrite last_cons, Hroot.
      + destruct l as [|a [|b rest]]; [done| |simpl in Hge; lia]. by exists a. }
  by apply (H (length current)).
Qed.

Lemma build_levels_step current (i : nat) a b :
  (current :: build_levels current) !! i = Some a →
  (current :: build_levels current) !! S i = Some b →
  b = next_level a.
Proof.
  assert (∀ n l, (length l <= n)%nat → ∀ i a b,
            (l :: build_levels l) !! i = Some a →
            (l :: build_levels l) !! S i = Some b → b = next_level a) as H.
  { intros n. induction n as [|n IH]; intros l Hl j x y.
    - rewrite build_levels_unfold, decide_False by lia. by destruct j.
    - rewrite build_levels_unfold. destruct (decide (1 < length l)%nat) as [Hlt|Hge].
      + destruct j as [|j].
        * simpl. by intros [= <-] [= <-].
        * cbn [lookup list_lookup]. apply IH. rewrite next_level_length.
          assert ((length l + 1) / 2 < length l)%nat; [|lia].
          apply Nat.Div0.div_lt_upper_bound. lia.
      + by destruct j. }
  by apply (H (length current) current).
Qed.

(** X24. [buildTree] keeps the leaves as the first level and makes each
    further level the pairwise hashes of the one below, half as long
    (rounded up).  Without leaves there is the one empty level and the root
    is the empty string; with leaves the last level is a single hash, which
    [Root] returns, and the root of a single leaf is the leaf itself. *)
Theorem buildTree_levels (mt : MerkleTree) :
  Leaves (buildTree mt) = Leaves mt ∧
  head (Levels (buildTree mt)) = Some (Leaves mt) ∧
  (∀ (i : nat) a b, Levels (buildTree mt) !! i = Some a →
                    Levels (buildTree mt) !! S i = Some b →
     b = next_level a ∧ length b = ((length a + 1) / 2)%nat) ∧
  (Leaves mt = [] → Levels (buildTree mt) = [[]] ∧ Root (buildTree mt) = "") ∧
  (∀ leaf, Leaves mt = [leaf] → Root (buildTree mt) = leaf) ∧
  (Leaves mt ≠ [] →
     ∃ root, last (Levels (buildTree mt)) = Some [root] ∧ Root (buildTree mt) = root).
Proof.
  unfold buildTree, Root. cbn [Leaves Levels].
  split; [done|]. split; [done|]. split; [|split; [|split]].
  - intros i a b Ha Hb. pose proof (build_levels_step _ _ _ _ Ha Hb) as ->.
    split; [done|apply next_level_length].
  - intros ->. rewrite build_levels_unfold. simpl. done.
  - intros leaf ->. rewrite build_levels_unfold. simpl. done.
  - intros Hne. destruct (build_levels_last (Leaves mt) Hne) as [root Hroot].
    exists root. by rewrite Hroot.
Qed.

Lemma next_level_repeat (l : list string) x :
  Nat.odd (length l) = true → last l = Some x → next_level (l ++ [x]) = next_level l.
Proof.
  assert (∀ n l, (length l <= n)%nat → Nat.odd (length l) = true → last l = Some x →
            next_level (l ++ [x]) = next_level l) as H.
  { intros n. induction n as [|n IH]; intros k Hk Hodd Hlast.
    - destruct k; [done|simpl in Hk; lia].
    - destruct k as [|a [|b rest]]; [done| |].
      + simpl in Hlast. by injection Hlast as ->.
      + cbn [app next_level]. f_equal. apply IH.
        * simpl in Hk. lia.
        * done.
        * destruct rest; [done|]. by rewrite !last_cons_cons in Hlast. }
  by apply (H (length l)).
Qed.

(** X25. A tree over an odd number of leaves, three or more, and the
    tree over these leaves with the last one repeated differ in their
    leaves only: all levels above are the same, so the roots are equal and
    [CompareTrees] returns nil. *)
Theorem buildTree_repeated_last_leaf (mt other : MerkleTree) (x : string) :
  (1 < length (Leaves mt))%nat →
  Nat.odd (length (Leaves mt)) = true →
  last (Leaves mt) = Some x →
  Leaves other = Leaves mt ++ [x] →
  Leaves (buildTree other) ≠ Leaves (buildTree mt) ∧
  tail (Levels (buildTree other)) = tail (Levels (buildTree mt)) ∧
  Root (buildTree other) = Root (buildTree mt) ∧
  CompareTrees (buildTree mt) (buildTree other) = None.
Proof.
  intros Hlen Hodd Hlast Hother.
  assert (build_levels (Leaves other) = build_levels (Leaves mt)) as Hlv.
  { rewrite (build_levels_unfold (Leaves other)), (build_levels_unfold (Leaves mt)).
    rewrite Hother, length_app. cbn [length].
    rewrite decide_True by lia. rewrite decide_True by done.
    by rewrite next_level_repeat. }
  assert (Root (buildTree other) = Root (buildTree mt)) as Hroot.
  { unfold Root, buildTree. cbn [Levels]. rewrite Hlv.
    rewrite (build_levels_unfold (Leaves mt)), decide_True by done.
    by rewrite !last_cons_cons. }
  split; [|split; [|split]].
  - cbn [buildTree Leaves]. rewrite Hother. intros Heq.
    apply (f_equal length) in Heq. rewrite length_app in Heq. simpl in Heq. lia.
  - cbn [buildTree Levels tail]. done.
  - done.
  - unfold CompareTrees. by rewrite decide_True.
Qed.

(** *** [NewMerkleTree] and [CompareTrees] *)

Lemma sort_keys_elem k keys : k ∈ sort_keys keys ↔ k ∈ keys.
Proof. unfold sort_keys. by rewrite merge_sort_Permutation. Qed.

Lemma keys_elem (data : gmap string (option Coord.json)) k :
  k ∈ sort_keys (map_to_list data).*1 ↔ is_Some (data !! k).
Proof.
  rewrite sort_keys_elem, list_elem_of_fmap. split.
  - intros ([k' v] & -> & Hin). apply elem_of_map_to_list in Hin. by exists v.
  - intros [v Hv]. exists (k, v). split; [done|]. by apply elem_of_map_to_list.
Qed.

Lemma keymap_fold (leaf : string → string) keys : ∀ (m : gmap string string),
  (∀ h k, foldl (λ m k, <[leaf k := k]> m) m keys !! h = Some k →
          (k ∈ keys ∧ leaf k = h) ∨ m !! h = Some k) ∧
  (∀ k, k ∈ keys → is_Some (foldl (λ m k, <[leaf k := k]> m) m keys !! leaf k)) ∧
  (∀ h, is_Some (m !! h) → is_Some (foldl (λ m k, <[leaf k := k]> m) m keys !! h)).
Proof.
  induction keys as [|k0 keys IH]; intros m.
  - split; [auto|]. split; [by intros k ?%elem_of_nil|done].
  - simpl. destruct (IH (<[leaf k0 := k0]> m)) as (H1 & H2 & H3). split; [|split].
    + intros h k Hk. destruct (H1 h k Hk) as [[Hin Hl]|Hm].
      * left. split; [by right|done].
      * destruct (decide (h = leaf k0)) as [->|Hne].
        -- rewrite lookup_insert_eq in Hm. injection Hm as <-. left. split; [by left|done].
        -- rewrite lookup_insert_ne in Hm by done. by right.
    + intros k [->|Hin]%elem_of_cons; [|by apply H2].
      apply H3. by rewrite lookup_insert_eq.
    + intros h Hh. apply H3. destruct (decide (h = leaf k0)) as [->|Hne].
      * by rewrite lookup_insert_eq.
      * by rewrite lookup_insert_ne.
Qed.

(** The leaves and the key map of a tree built from [data]. *)
Lemma NewMerkleTree_spec render (data : gmap string (option Coord.json)) :
  (∀ h, h ∈ Leaves (NewMerkleTree render data) ↔
        ∃ k v, data !! k = Some v ∧ hashLeaf render k v = h) ∧
  (∀ h k, KeyMap (NewMerkleTree render data) !! h = Some k →
          ∃ v, data !! k = Some v ∧ hashLeaf render k v = h) ∧
  (∀ k v, data !! k = Some v →
          is_Some (KeyMap (NewMerkleTree render data) !! hashLeaf render k v)).
Proof.
  unfold NewMerkleTree. cbv zeta. cbn [buildTree Leaves KeyMap].
  set (leaf := λ k, hashLeaf render k (default None (data !! k))).
  destruct (keymap_fold leaf (sort_keys (map_to_list data).*1) ∅) as (H1 & H2 & _).
  split; [|split].
  - intros h. rewrite list_elem_of_fmap. split.
    + intros (k & -> & [v Hv]%keys_elem). exists k, v. split; [done|].
      unfold leaf. by rewrite Hv.
    + intros (k & v & Hv & <-). exists k. split; [unfold leaf; by rewrite Hv|].
      apply keys_elem. by exists v.
  - intros h k Hk. destruct (H1 h k Hk) as [[[v Hv]%keys_elem <-]|Hm]; [|done].
    exists v. split; [done|]. unfold leaf. by rewrite Hv.
  - intros k v Hv. assert (hashLeaf render k v = leaf k) as ->.
    { unfold leaf. by rewrite Hv. }
    apply H2, keys_elem. by exists v.
Qed.

(** X26. [CompareTrees] on two trees built by [NewMerkleTree] reports no
    key in vain: every key it returns is a key of one of the two data sets
    and has different entries in them; two trees built from the same data
    compare as equal (nil). *)
Theorem CompareTrees_no_false_positive (render : option Coord.json → string)
    (data other : gmap string (option Coord.json)) :
  (∀ diffs k,
     CompareTrees (NewMerkleTree render data) (NewMerkleTree render other) = Some diffs →
     k ∈ diffs →
     (is_Some (data !! k) ∨ is_Some (other !! k)) ∧ data !! k ≠ other !! k) ∧
  CompareTrees (NewMerkleTree render data) (NewMerkleTree render data) = None.
Proof.
  split; [|unfold CompareTrees; by rewrite decide_True].
  intros diffs k. unfold CompareTrees. destruct (decide _); [done|]. intros [= <-].
  destruct (NewMerkleTree_spec render data) as (HL1 & HK1 & HD1).
  destruct (NewMerkleTree_spec render other) as (HL2 & HK2 & HD2).
  unfold findDifferingKeys. cbv zeta.
  rewrite elem_of_list_to_set, elem_of_app, !list_elem_of_omap.
  intros [(h & Hh & Hk)|(h & Hh & Hk)].
  - destruct (decide (h ∈ Leaves (NewMerkleTree render other))) as [|Hnot]; [done|].
    destruct (HK1 h k Hk) as (v & Hv & Hhash). split; [left; by exists v|].
    intros Heq. apply Hnot, HL2. exists k, v. split; [by rewrite <- Heq|done].
  - destruct (KeyMap (NewMerkleTree render data) !! h) eqn:Hmine; [done|].
    destruct (HK2 h k Hk) as (v & Hv & Hhash). split; [right; by exists v|].
    intros Heq. rewrite <- Heq in Hv. destruct (HD1 k v Hv) as [k' Hk'].
    rewrite Hhash in Hk'. congruence.
Qed.
Lemma buildTree_repeated_last_leaf_witness :
  Leaves (buildTree four_leaves) ≠ Leaves (buildTree three_leaves) ∧
  tail (Levels (buildTree four_leaves)) = tail (Levels (buildTree three_leaves)) ∧
  Root (buildTree four_leaves) = Root (buildTree three_leaves) ∧
  CompareTrees (buildTree three_leaves) (buildTree four_leaves) = None.
Proof.
  apply (buildTree_repeated_last_leaf three_leaves four_leaves "c").
  - simpl. lia.
  - reflexivity.
  - reflexivity.
  - reflexivity.
Defined.

End MerkleFacts.
